(** * seekaur: a shallow embedding of [seekaur.go]

    The development follows the source file top to bottom: the [Package]
    record and the [PackageList] ordering, the timestamp decoder, the
    [multiInfo] reconciler, the category table and the four commands
    ([search], [info], [tarball], [pkgbuild]).  Definitions come first,
    results about them second.

    Conventions.
    - A Go [string] is a sequence of bytes: [String.string], whose
      characters are 8-bit [ascii] values.  Comparison of strings is the
      byte-wise lexicographic one ([String.compare]).
    - A Go [int] is modelled by [Z].  The program only compares, indexes with
      and prints such values; where the width matters (the range check of
      [strconv.Atoi]) it is written out.
    - What a run does is a chronological list of [event]s together with an
      [outcome]: a normal return, a run-time panic or [os.Exit].
    - The world outside the file (the AUR server behind [aurRequest] and
      [http.Get], the library routines [sort.Sort] and [url.QueryEscape],
      the local-zone rendering of [time.Time.Format]) is a parameter of the
      function that uses it.  [sort.Sort] is embedded as well (module
      [sort]), for the results on the order of search results. *)

From Stdlib Require Import List ZArith Lia Bool Ascii String DecimalString.
From Stdlib Require Import Permutation Sorted.
From Stdlib Require DecimalPos.
Import ListNotations.

Local Open Scope Z_scope.

(** ** Data model *)

(** [time.Time] as this program builds it: [time.Unix(sec, 0)]. *)
Record Time : Type := Unix { unixSec : Z }.

(** [type timeUnmarshaler struct{ time.Time }] *)
Record timeUnmarshaler : Type := mkTimeUnmarshaler { Time_ : Time }.

Record Package : Type := mkPackage
  { Maintainer : string
  ; ID : Z
  ; Name : string
  ; Version : string
  ; CategoryID : Z
  ; Description : string
  ; URL : string
  ; License : string
  ; NumVotes : Z
  ; OutOfDate : Z  (* actually a boolean but the JSON response is 0/1 *)
  ; FirstSubmitted : timeUnmarshaler
  ; LastModified : timeUnmarshaler
  ; URLPath : string }.

Definition PackageList : Type := list Package.

Record Response : Type := mkResponse
  { Type_ : string
  ; Count : Z
  ; Results : list Package }.

(** ** Errors, panics and effects *)

(** The two sentinel errors of [strconv]. *)
Inductive strconvErr : Type := ErrSyntax | ErrRange.

(** Go [error] values met in this program: the ones made from a message
    ([fmt.Errorf], and whatever the transport or the JSON decoder reports),
    and [*strconv.NumError]. *)
Inductive error : Type :=
| ErrorString (msg : string)
| NumError (Func Num : string) (Err : strconvErr).

(** Values a run-time panic carries. *)
Inductive panicValue : Type :=
| IndexOutOfRange (index len : Z)
| SliceBoundsOutOfRange (bound len : Z)
| PanicError (e : error).

Inductive outcome (A : Type) : Type :=
| Returned (a : A)
| Panicked (v : panicValue)
| Exited (code : Z).

Arguments Returned {A} a.
Arguments Panicked {A} v.
Arguments Exited {A} code.

(** Observable steps of a run.  [Invoke p] marks the moment [multiInfo]
    calls its callback on [p]; what the callback does follows it. *)
Inductive event : Type :=
| Stdout (s : string)
| Stderr (s : string)
| Invoke (p : Package).

(** Computations: a state [St] (whatever a callback closes over), the events
    produced, and the outcome.  A panic or an exit stops the computation with
    the events and the state reached so far. *)
Definition M (St A : Type) : Type := St -> list event * St * outcome A.

Definition ret {St A : Type} (a : A) : M St A :=
  fun s => ([], s, Returned a).

Definition bind {St A B : Type} (m : M St A) (k : A -> M St B) : M St B :=
  fun s =>
    let '(t1, s1, o) := m s in
    match o with
    | Returned a => let '(t2, s2, o2) := k a s1 in (t1 ++ t2, s2, o2)
    | Panicked v => (t1, s1, Panicked v)
    | Exited c => (t1, s1, Exited c)
    end.

Definition emit {St : Type} (e : event) : M St unit :=
  fun s => ([e], s, Returned tt).

Definition panic {St A : Type} (v : panicValue) : M St A :=
  fun s => ([], s, Panicked v).

(** [os.Exit(code)] *)
Definition os_Exit {St A : Type} (code : Z) : M St A :=
  fun s => ([], s, Exited code).

Notation "x <- m ;; k" := (bind m (fun x => k))
  (at level 61, m at next level, right associativity).
Notation "m ;; k" := (bind m (fun _ => k))
  (at level 61, right associativity).

(** [for _, x := range l { body }] *)
Fixpoint forRange {St A : Type} (l : list A) (body : A -> M St unit) : M St unit :=
  match l with
  | [] => ret tt
  | x :: rest => body x ;; forRange rest body
  end.

(** *** Strings and printing *)

Definition ESC : string := String (ascii_of_nat 27) EmptyString.
Definition LF : string := String (ascii_of_nat 10) EmptyString.

(** [len(s)] *)
Definition len (s : string) : Z := Z.of_nat (String.length s).

(** [s[lo:hi]] on a string: the bytes from [lo] up to [hi], a panic unless
    [0 <= lo <= hi <= len(s)]. *)
Definition slice {St : Type} (s : string) (lo hi : Z) : M St string :=
  if (0 <=? lo) && (lo <=? hi) && (hi <=? len s)
  then ret (substring (Z.to_nat lo) (Z.to_nat (hi - lo)) s)
  else panic (SliceBoundsOutOfRange hi (len s)).

(** [l[i]] on a slice of strings. *)
Definition index {St : Type} (l : list string) (i : Z) : M St string :=
  if (0 <=? i) && (i <? Z.of_nat (List.length l))
  then ret (nth (Z.to_nat i) l ""%string)
  else panic (IndexOutOfRange i (Z.of_nat (List.length l))).

(** [fmt.Print], and [fmt.Printf] once the verbs are filled in. *)
Definition Print {St : Type} (s : string) : M St unit := emit (Stdout s).

(** [fmt.Println] *)
Definition Println {St : Type} (s : string) : M St unit :=
  emit (Stdout (s ++ LF)).

(** The builtin [println], which writes to standard error. *)
Definition println {St : Type} (s : string) : M St unit :=
  emit (Stderr (s ++ LF)).

(** [%v] of an [int]: its decimal digits. *)
Definition formatInt (n : Z) : string := NilZero.string_of_int (Z.to_int n).

(** Everything written to standard output, in order. *)
Fixpoint stdoutText (t : list event) : string :=
  match t with
  | [] => ""%string
  | Stdout s :: rest => (s ++ stdoutText rest)%string
  | _ :: rest => stdoutText rest
  end.

(** ** [PackageList.Less] *)

(** [Less] on the two records found at the compared indices. *)
Definition Less (a b : Package) : bool :=
  if CategoryID a <? CategoryID b then true
  else if (CategoryID a =? CategoryID b) && (Name a <? Name b)%string then true
  else false.

(** The pair of fields [Less] looks at. *)
Definition sortKey (p : Package) : Z * string := (CategoryID p, Name p).

(** ** [timeUnmarshaler.UnmarshalJSON] *)

Definition isDigit (c : ascii) : bool :=
  (48 <=? nat_of_ascii c)%nat && (nat_of_ascii c <=? 57)%nat.

Definition digitValue (c : ascii) : Z := Z.of_nat (nat_of_ascii c) - 48.

(** The digit loop of [strconv.ParseUint] in base 10: a byte that is not a
    digit is a syntax error, a value above [maxVal] a range error, whichever
    is met first. *)
Fixpoint parseDigits (maxVal : Z) (s : string) (n : Z) : Z + strconvErr :=
  match s with
  | EmptyString => inl n
  | String c rest =>
      if isDigit c then
        let n1 := n * 10 + digitValue c in
        if n1 >? maxVal then inr ErrRange else parseDigits maxVal rest n1
      else inr ErrSyntax
  end.

(** [strconv.Atoi], after the Go standard library: an optional sign, then
    one or more decimal digits, the value within the range of [int], whose
    width [intSize] is 32 or 64 depending on the platform.  [atoiDigits] is
    the part that follows the sign; [s0] is the whole input, kept for the
    error. *)
Definition atoiDigits (intSize : Z) (s0 : string) (neg : bool) (digits : string)
  : Z + error :=
  match digits with
  | EmptyString => inr (NumError "Atoi" s0 ErrSyntax)
  | _ =>
      match parseDigits (2 ^ intSize - 1) digits 0 with
      | inr e => inr (NumError "Atoi" s0 e)
      | inl un =>
          let cutoff := 2 ^ (intSize - 1) in
          if negb neg && (un >=? cutoff) then inr (NumError "Atoi" s0 ErrRange)
          else if neg && (un >? cutoff) then inr (NumError "Atoi" s0 ErrRange)
          else inl (if neg then - un else un)
      end
  end.

Definition Atoi (intSize : Z) (s : string) : Z + error :=
  match s with
  | EmptyString => inr (NumError "Atoi" s ErrSyntax)
  | String c rest =>
      let neg := Ascii.eqb c "-"%char in
      atoiDigits intSize s neg (if neg || Ascii.eqb c "+"%char then rest else s)
  end.

(** The receiver is updated in place; the model returns its new value next
    to the error.  [None] is Go's [nil]. *)
Definition UnmarshalJSON (intSize : Z) (t : timeUnmarshaler) (str : string)
  : timeUnmarshaler * option error :=
  match Atoi intSize (* string(str) *) str with
  | inr err => (t, Some err)
  | inl unix => (mkTimeUnmarshaler (Unix unix), None)
  end.

(** *** Reading a [Time] in UTC

    The proleptic Gregorian calendar, as [time.Time.UTC().Date()] and
    [Clock()] report it: days are counted from 1970-01-01. *)
Record civil : Type := mkCivil
  { year : Z; month : Z; day : Z; hour : Z; minute : Z; second : Z }.

Definition civilOfDays (z0 : Z) : Z * Z * Z :=
  let z := z0 + 719468 in
  let era := z / 146097 in
  let doe := z - era * 146097 in
  let yoe := (doe - doe / 1460 + doe / 36524 - doe / 146096) / 365 in
  let doy := doe - (365 * yoe + yoe / 4 - yoe / 100) in
  let mp := (5 * doy + 2) / 153 in
  let d := doy - (153 * mp + 2) / 5 + 1 in
  let m := if mp <? 10 then mp + 3 else mp - 9 in
  let y := yoe + era * 400 + (if m <=? 2 then 1 else 0) in
  (y, m, d).

Definition utc (t : Time) : civil :=
  let days := unixSec t / 86400 in
  let rem := unixSec t mod 86400 in
  let '(y, m, d) := civilOfDays days in
  mkCivil y m d (rem / 3600) (rem mod 3600 / 60) (rem mod 60).

(** ** [multiInfo] *)

Section MultiInfo.

Context {St : Type}.

(** [url.QueryEscape] from the standard library. *)
Variable QueryEscape : string -> string.

(** [aurRequest]: the request goes to the AUR server and the body is decoded
    by [encoding/json]; the model takes the answer as given: the decoded
    envelope, or the error of the transport or of the decoder. *)
Variable aurRequest : string -> Response + error.

(** The request built by the first loop of [multiInfo]. *)
Definition multiInfoRequest (args : list string) : string :=
  fold_left (fun request str => ((request ++ "&arg[]=") ++ QueryEscape str)%string)
            args "/rpc.php?type=multiinfo"%string.

Definition notFoundLine (arg : string) : string :=
  (ESC ++ "[1;31merror:" ++ ESC ++ "[0m package '" ++ arg ++ "' was not found" ++ LF)%string.

(** The inner loop for one argument, over [results.Results].  [inl found]
    is the value of [found] when the loop is left by [break] or by running
    out of records; [inr err] is the [return err] of the function. *)
Fixpoint scanResults (f : Package -> M St (option error)) (arg : string)
  (results : list Package) : M St (bool + error) :=
  match results with
  | [] => ret (inl false)
  | pkg :: rest =>
      if (Name pkg =? arg)%string then
        emit (Invoke pkg) ;;
        err <- f pkg ;;
        match err with
        | Some e => ret (inr e)
        | None => ret (inl true)
        end
      else scanResults f arg rest
  end.

(** The outer loop, from [args[arg]] on.  [Some err] is the [return err] of
    the function; [None] means the loop ran to its end. *)
Fixpoint argLoop (f : Package -> M St (option error)) (results : list Package)
  (args : list string) : M St (option error) :=
  match args with
  | [] => ret None
  | a :: rest =>
      r <- scanResults f a results ;;
      match r with
      | inr e => ret (Some e)
      | inl found =>
          (if negb found then Print (notFoundLine a) else ret tt) ;;
          argLoop f results rest
      end
  end.

Definition someNotFound : error := ErrorString "Some packages were not found".

Definition multiInfo (args : list string) (f : Package -> M St (option error))
  : M St (option error) :=
  match aurRequest (multiInfoRequest args) with
  | inr err => ret (Some err)
  | inl results =>
      r <- argLoop f (Results results) args ;;
      match r with
      | Some e => ret (Some e)
      | None =>
          if (List.length (Results results) <? List.length args)%nat
          then ret (Some someNotFound)
          else ret None
      end
  end.

End MultiInfo.

(** ** [main]: the category table and the commands *)

Definition categories : list string :=
  [ ""; "none"; "daemons"; "devel"; "editors"; "emulators"; "games"; "gnome";
    "18n"; "kde"; "lib"; "modules"; "multimedia"; "network"; "office";
    "science"; "system"; "x11"; "xfce"; "kernels"; "fonts" ]%string.

Section Commands.

Context {St : Type}.

Variable QueryEscape : string -> string.
Variable aurRequest : string -> Response + error.

(** [sort.Sort] on a [PackageList], from the standard library: the slice it
    leaves behind. *)
Variable sort_Sort : PackageList -> PackageList.

(** [time.Time.Format] in the local zone of the process. *)
Variable Format : Time -> string -> string.

(** [http.Get] followed by [ioutil.ReadAll] of the body. *)
Variable httpGetBody : string -> string + error.

(** The body of the loop of [search]: one record in the compact form. *)
Definition searchLine (p : Package) : M St unit :=
  c <- index categories (CategoryID p) ;;
  Print (ESC ++ "[1;35m" ++ "aur/" ++ c ++ "/" ++ ESC ++ "[1;37m" ++ Name p ++ " ") ;;
  (if OutOfDate p =? 0
   then Print (ESC ++ "[1;32m")   (* green *)
   else Print (ESC ++ "[1;31m"))  (* red *) ;;
  Println (Version p) ;;
  Print ("    " ++ ESC ++ "[0m" ++ Description p ++ LF).

Definition search (args : list string) : M St unit :=
  match args with
  | [arg0] =>
      match aurRequest ("/rpc.php?type=search&arg=" ++ QueryEscape arg0) with
      | inr err => panic (PanicError err)
      | inl results => forRange (sort_Sort (Results results)) searchLine
      end
  | _ =>
      println "search must be invoked with exactly one argument" ;;
      os_Exit 1
  end.

Definition timeLayout : string := "Mon 02 Jan 2006 03:04:05 PM MST".

(** The function literal [info] hands to [multiInfo]. *)
Definition infoCallback (thispkg : Package) : M St (option error) :=
  c <- index categories (CategoryID thispkg) ;;
  Print (ESC ++ "[1mCategory        : " ++ ESC ++ "[0m" ++ c ++ LF) ;;
  Print (ESC ++ "[1mName            : " ++ ESC ++ "[0m" ++ Name thispkg ++ LF) ;;
  Print (ESC ++ "[1mVersion         : " ++ ESC ++ "[0m" ++ Version thispkg) ;;
  (if negb (OutOfDate thispkg =? 0) then Print " [out of date]" else ret tt) ;;
  Println "" ;;
  Print (ESC ++ "[1mDescription     : " ++ ESC ++ "[0m" ++ Description thispkg ++ LF) ;;
  Print (ESC ++ "[1mURL             : " ++ ESC ++ "[0m" ++ URL thispkg ++ LF) ;;
  Print (ESC ++ "[1mLicenses        : " ++ ESC ++ "[0m" ++ License thispkg ++ LF) ;;
  Print (ESC ++ "[1mMaintainer      : " ++ ESC ++ "[0m" ++ Maintainer thispkg ++ LF) ;;
  Print (ESC ++ "[1mFirst Submitted : " ++ ESC ++ "[0m"
         ++ Format (Time_ (FirstSubmitted thispkg)) timeLayout ++ LF) ;;
  Print (ESC ++ "[1mLast Modified   : " ++ ESC ++ "[0m"
         ++ Format (Time_ (LastModified thispkg)) timeLayout ++ LF) ;;
  Print (ESC ++ "[1mVotes           : " ++ ESC ++ "[0m" ++ formatInt (NumVotes thispkg) ++ LF) ;;
  Println "" ;;
  ret None.

Definition info (args : list string) : M St unit :=
  match args with
  | [] =>
      println "info requires at least one argument" ;;
      os_Exit 1
  | _ =>
      err <- multiInfo QueryEscape aurRequest args infoCallback ;;
      match err with
      | Some _ => os_Exit 1
      | None => ret tt
      end
  end.

(** The body of the loop of [tarball]. *)
Definition tarballLine (s : string) : M St unit :=
  s02 <- slice s 0 2 ;;
  Print ("https://aur.archlinux.org/packages/" ++ s02 ++ "/" ++ s ++ "/" ++ s ++ ".tar.gz" ++ LF).

Definition tarball (args : list string) : M St unit :=
  match args with
  | [] =>
      println "tarball requires at least one argument" ;;
      os_Exit 1
  | _ => forRange args tarballLine
  end.

Definition printPKGBUILD (s : string) : M St (option error) :=
  match httpGetBody s with
  | inr err => ret (Some err)
  | inl pkgb => Println pkgb ;; ret None
  end.

(** The body of the loop of [pkgbuild]. *)
Definition pkgbuildStep (s : string) : M St unit :=
  s02 <- slice s 0 2 ;;
  err <- printPKGBUILD ((("https://aur.archlinux.org/packages/" ++ s02) ++ "/") ++ s ++ "/PKGBUILD") ;;
  match err with
  | Some _ => os_Exit 1
  | None => ret tt
  end.

Definition pkgbuild (args : list string) : M St unit :=
  match args with
  | [] =>
      println "pkgbuild requires at least one argument" ;;
      os_Exit 1
  | _ => forRange args pkgbuildStep
  end.

End Commands.

(** ** Vocabulary of the statements *)

(** *** Sorting *)

Definition hasKey (k : Z * string) (p : Package) : bool :=
  (CategoryID p =? fst k) && (Name p =? snd k)%string.

(** Ascending order as [Less] determines it: no record is [Less] than one
    placed before it. *)
Definition ascending (l : list Package) : Prop :=
  StronglySorted (fun a b => Less b a = false) l.

(** What the documentation of [sort.Sort] promises of the slice it leaves:
    the same elements (it only calls [Swap]), in ascending order as
    determined by [Less].  The order of elements that compare equal is left
    open. *)
Definition SortContract (srt : PackageList -> PackageList) : Prop :=
  forall l, Permutation l (srt l) /\ ascending (srt l).

(** Every occurrence of [a] in [out] comes before every occurrence of [b],
    and both occur. *)
Definition placedBefore (out : list Package) (a b : Package) : Prop :=
  In a out /\ In b out /\
  forall i j, nth_error out i = Some a -> nth_error out j = Some b -> (i < j)%nat.

(** Stability: the records that share a sort key leave in the order in which
    they came. *)
Definition stableOn (srt : PackageList -> PackageList) (l : PackageList) : Prop :=
  forall k, filter (hasKey k) (srt l) = filter (hasKey k) l.

(** *** The timestamp decoder *)

Definition allDigits (s : string) : bool :=
  forallb isDigit (list_ascii_of_string s).

(** The number a string of decimal digits denotes, continuing from [n]. *)
Fixpoint digitsValue (s : string) (n : Z) : Z :=
  match s with
  | EmptyString => n
  | String c rest => digitsValue rest (n * 10 + digitValue c)
  end.

(** A base-10 integer token: an optional sign, then one or more decimal
    digits. *)
Definition isIntegerToken (s : string) : bool :=
  match s with
  | EmptyString => false
  | String c rest =>
      let digits := if Ascii.eqb c "-" || Ascii.eqb c "+" then rest else s in
      negb (digits =? "")%string && allDigits digits
  end.

(** The integer such a token denotes. *)
Definition tokenValue (s : string) : Z :=
  match s with
  | EmptyString => 0
  | String c rest =>
      if Ascii.eqb c "-" then - digitsValue rest 0
      else if Ascii.eqb c "+" then digitsValue rest 0
      else digitsValue s 0
  end.

(** *** The reconciler *)

(** The record the inner loop of [multiInfo] stops at: the first one whose
    name is the argument. *)
Definition firstNamed (arg : string) (results : list Package) : option Package :=
  find (fun pkg => (Name pkg =? arg)%string) results.

(** *** The renderings *)

(** The category name a record is printed with. *)
Definition categoryOf (p : Package) : string :=
  nth (Z.to_nat (CategoryID p)) categories ""%string.

(** What [infoCallback] writes before and after the version. *)
Definition infoBefore (p : Package) : list event :=
  [ Stdout (ESC ++ "[1mCategory        : " ++ ESC ++ "[0m" ++ categoryOf p ++ LF);
    Stdout (ESC ++ "[1mName            : " ++ ESC ++ "[0m" ++ Name p ++ LF) ].

Definition infoAfter (Format : Time -> string -> string) (p : Package) : list event :=
  [ Stdout (ESC ++ "[1mDescription     : " ++ ESC ++ "[0m" ++ Description p ++ LF);
    Stdout (ESC ++ "[1mURL             : " ++ ESC ++ "[0m" ++ URL p ++ LF);
    Stdout (ESC ++ "[1mLicenses        : " ++ ESC ++ "[0m" ++ License p ++ LF);
    Stdout (ESC ++ "[1mMaintainer      : " ++ ESC ++ "[0m" ++ Maintainer p ++ LF);
    Stdout (ESC ++ "[1mFirst Submitted : " ++ ESC ++ "[0m"
            ++ Format (Time_ (FirstSubmitted p)) timeLayout ++ LF);
    Stdout (ESC ++ "[1mLast Modified   : " ++ ESC ++ "[0m"
            ++ Format (Time_ (LastModified p)) timeLayout ++ LF);
    Stdout (ESC ++ "[1mVotes           : " ++ ESC ++ "[0m"
            ++ formatInt (NumVotes p) ++ LF);
    Stdout LF ].

(** The colour escapes of the compact form. *)
Definition green : string := ESC ++ "[1;32m".
Definition red : string := ESC ++ "[1;31m".

(** *** Sample inputs *)

(** Sample records. *)
Definition epoch : timeUnmarshaler := mkTimeUnmarshaler (Unix 0).

Definition pkg (id : Z) (name : string) (category : Z) (outOfDate : Z) : Package :=
  mkPackage "nobody" id name "1.0-1" category "a package" "http://example.org/"
            "MIT" 0 outOfDate epoch epoch "".

(** A callback that does nothing and returns [nil], one that records nothing
    but fails on a given name, and a server that answers every request with
    the same envelope. *)
Definition quietCallback : Package -> M unit (option error) :=
  fun _ => ret None.

Definition failingOn (name : string) : Package -> M unit (option error) :=
  fun p => if (Name p =? name)%string
           then ret (Some (ErrorString "callback failed"))
           else ret None.

Definition answering (results : list Package) : string -> Response + error :=
  fun _ => inl (mkResponse "multiinfo" (Z.of_nat (List.length results)) results).

Definition noEscape : string -> string := fun s => s.

(** A [Format] that prints nothing, and a server that answers a GET with the
    URL it was asked for. *)
Definition blankFormat : Time -> string -> string := fun _ _ => ""%string.

Definition echoServer : string -> string + error := fun url => inl url.

(** ** The rest of [PackageList]: [Len] and [Swap] *)

Definition Len (p : PackageList) : Z := Z.of_nat (List.length p).

(** [p[i]] on a slice of records. *)
Definition at_ {St : Type} (p : PackageList) (i : Z) : M St Package :=
  if (0 <=? i) && (i <? Len p)
  then match nth_error p (Z.to_nat i) with
       | Some x => ret x
       | None => panic (IndexOutOfRange i (Len p))
       end
  else panic (IndexOutOfRange i (Len p)).

(** [p[i] = x], the index already checked. *)
Fixpoint store (p : PackageList) (i : nat) (x : Package) : PackageList :=
  match p, i with
  | [], _ => []
  | _ :: rest, O => x :: rest
  | y :: rest, S i' => y :: store rest i' x
  end.

(** [p[i], p[j] = p[j], p[i]]: both elements are read before either is
    stored, and the two indices are checked against the length in the order
    [i], [j], so with both outside the slice the panic names [i].  The slice
    is shared with the caller; the model returns its new contents. *)
Definition Swap {St : Type} (p : PackageList) (i j : Z) : M St PackageList :=
  pi <- at_ p i ;;
  pj <- at_ p j ;;
  ret (store (store p (Z.to_nat i) pj) (Z.to_nat j) pi).

(** A run of [Swap] calls, as a sorting routine makes them. *)
Fixpoint swaps {St : Type} (p : PackageList) (calls : list (Z * Z))
  : M St PackageList :=
  match calls with
  | [] => ret p
  | (i, j) :: rest => p' <- Swap p i j ;; swaps p' rest
  end.

(** ** Further vocabulary *)

(** The records a run invoked the callback on, and what it wrote to standard
    output, in order. *)
Fixpoint invocations (t : list event) : list Package :=
  match t with
  | [] => []
  | Invoke p :: rest => p :: invocations rest
  | _ :: rest => invocations rest
  end.

Fixpoint written (t : list event) : list string :=
  match t with
  | [] => []
  | Stdout s :: rest => s :: written rest
  | _ :: rest => written rest
  end.

(** The events, the final state and the outcome of a run. *)
Definition trace {St A : Type} (r : list event * St * outcome A) : list event :=
  fst (fst r).

Definition final {St A : Type} (r : list event * St * outcome A) : St :=
  snd (fst r).

Definition result {St A : Type} (r : list event * St * outcome A) : outcome A :=
  snd r.

(** The parameters of the request: one [&arg[]=] with the escaped identifier
    for each argument, in order. *)
Fixpoint requestParameters (QueryEscape : string -> string) (args : list string)
  : string :=
  match args with
  | [] => ""%string
  | a :: rest =>
      ("&arg[]=" ++ QueryEscape a ++ requestParameters QueryEscape rest)%string
  end.

(** The records the arguments select, in the order of the arguments: for
    each argument the first record of that name, if there is one. *)
Definition selected (results : list Package) (args : list string) : list Package :=
  flat_map (fun a => match firstNamed a results with
                     | Some p => [p]
                     | None => []
                     end) args.

(** The arguments without a record of their name. *)
Definition unmatched (results : list Package) (args : list string) : list string :=
  filter (fun a => match firstNamed a results with
                   | Some _ => false
                   | None => true
                   end) args.

(** What the loop of [search] writes for one record. *)
Definition searchEvents (p : Package) : list event :=
  [ Stdout (ESC ++ "[1;35m" ++ "aur/" ++ categoryOf p ++ "/" ++ ESC ++ "[1;37m"
            ++ Name p ++ " ");
    Stdout (if OutOfDate p =? 0 then green else red);
    Stdout (Version p ++ LF);
    Stdout ("    " ++ ESC ++ "[0m" ++ Description p ++ LF) ].

(** What [infoCallback] writes for one record. *)
Definition infoEvents (Format : Time -> string -> string) (p : Package)
  : list event :=
  infoBefore p
  ++ Stdout (ESC ++ "[1mVersion         : " ++ ESC ++ "[0m" ++ Version p)
  :: (if OutOfDate p =? 0 then [] else [Stdout " [out of date]"])
  ++ Stdout LF :: infoAfter Format p.

(** The line [tarball] writes for an identifier of two bytes or more, and the
    URL [pkgbuild] fetches for it. *)
Definition tarballText (s : string) : string :=
  "https://aur.archlinux.org/packages/" ++ substring 0 2 s ++ "/" ++ s ++ "/"
  ++ s ++ ".tar.gz" ++ LF.

Definition pkgbuildURL (s : string) : string :=
  (("https://aur.archlinux.org/packages/" ++ substring 0 2 s) ++ "/")
  ++ s ++ "/PKGBUILD".

(** A server that knows the PKGBUILD of one package only. *)
Definition onlyServes (name body : string) : string -> string + error :=
  fun url => if (url =? pkgbuildURL name)%string then inl body
             else inr (ErrorString "connection refused").

(** ** [sort.Sort]

    The routine [search] hands the records to: [sort.Sort] of the Go
    library as of release 1.19 (pattern-defeating quicksort), which works on
    the slice through [Len], [Less] and [Swap] only.  Indices are natural
    numbers.  The routine keeps them within the slice, where [Less] and
    [Swap] do not panic; for an index outside the slice [data_Less] reads a
    blank record and [data_Swap] leaves the slice as it is.  A loop is a
    step function iterated by [loop]; the state of a loop is the slice
    together with the variables the loop changes. *)

Module sort.

Local Open Scope nat_scope.

(** *** The three methods, as the routine calls them *)

(** [data[i]]. *)
Definition elem (data : PackageList) (i : nat) : Package :=
  nth i data (pkg 0 "" 0 0).

(** [data.Len()]. *)
Definition data_Len (data : PackageList) : nat := Z.to_nat (Len data).

(** [data.Less(i, j)]: the comparison of [data[i]] and [data[j]]. *)
Definition data_Less (data : PackageList) (i j : nat) : bool :=
  Less (elem data i) (elem data j).

(** [data.Swap(i, j)]: the slice as [Swap] leaves it. *)
Definition data_Swap (data : PackageList) (i j : nat) : PackageList :=
  match result (Swap data (Z.of_nat i) (Z.of_nat j) tt) with
  | Returned data' => data'
  | _ => data
  end.

(** *** Loops *)

(** What one turn of a loop does: go on with a new state, or leave the loop
    with one. *)
Inductive control (State : Type) : Type :=
| next (s : State)
| done (s : State).

Arguments next {State} s.
Arguments done {State} s.

Fixpoint loop {State : Type} (fuel : nat) (step : State -> control State)
  (s : State) : State :=
  match fuel with
  | O => s
  | S fuel' =>
      match step s with
      | next s' => loop fuel' step s'
      | done s' => s'
      end
  end.

(** [for i := n - 1; i >= 0; i-- { body }]. *)
Fixpoint downFrom {State : Type} (n : nat) (body : nat -> State -> State)
  (s : State) : State :=
  match n with
  | O => s
  | S i => downFrom i body (body i s)
  end.

(** *** [insertionSort] *)

(** [for j := i; j > a && data.Less(j, j-1); j-- { data.Swap(j, j-1) }]. *)
Definition insertionSort_inner (a : nat) (s : PackageList * nat)
  : control (PackageList * nat) :=
  let '(data, j) := s in
  if (a <? j) && data_Less data j (j - 1)
  then next (data_Swap data j (j - 1), j - 1)
  else done (data, j).

(** [for i := a + 1; i < b; i++ { ... }]. *)
Definition insertionSort_outer (a b : nat) (s : PackageList * nat)
  : control (PackageList * nat) :=
  let '(data, i) := s in
  if i <? b
  then next (fst (loop (S i) (insertionSort_inner a) (data, i)), i + 1)
  else done (data, i).

(** [insertionSort] sorts [data[a:b]] using insertion sort. *)
Definition insertionSort (data : PackageList) (a b : nat) : PackageList :=
  fst (loop (S b) (insertionSort_outer a b) (data, a + 1)).

(** *** [heapSort] *)

(** One turn of the loop of [siftDown]. *)
Definition siftDown_step (hi first : nat) (s : PackageList * nat)
  : control (PackageList * nat) :=
  let '(data, root) := s in
  let child := 2 * root + 1 in
  if hi <=? child then done (data, root)
  else
    let child :=
      if (child + 1 <? hi) && data_Less data (first + child) (first + child + 1)
      then child + 1 else child in
    if negb (data_Less data (first + root) (first + child)) then done (data, root)
    else next (data_Swap data (first + root) (first + child), child).

(** [siftDown] implements the heap property on [data[lo:hi]]; [first] is an
    offset into the slice where the root of the heap lies. *)
Definition siftDown (data : PackageList) (lo hi first : nat) : PackageList :=
  fst (loop (S hi) (siftDown_step hi first) (data, lo)).

Definition heapSort (data : PackageList) (a b : nat) : PackageList :=
  let first := a in
  let lo := 0 in
  let hi := b - a in
  (* Build heap with greatest element at top. *)
  let data :=
    downFrom ((hi - 1) / 2 + 1) (fun i data => siftDown data i hi first) data in
  (* Pop elements, largest first, into end of data. *)
  downFrom hi
    (fun i data => siftDown (data_Swap data first (first + i)) lo i first) data.

(** *** The parts of [pdqsort] *)

Inductive sortedHint : Type :=
| unknownHint
| increasingHint
| decreasingHint.

(** [bits.Len(x)]: the number of bits it takes to write [x]. *)
Definition bits_Len (x : nat) : nat :=
  if x =? 0 then 0 else Nat.log2 x + 1.

(** [xorshift.Next], on 64-bit words. *)
Definition xorshift_Next (r : Z) : Z :=
  let r := Z.lxor r (Z.shiftl r 13 mod 2 ^ 64) in
  let r := Z.lxor r (Z.shiftr r 7) in
  let r := Z.lxor r (Z.shiftl r 17 mod 2 ^ 64) in
  r.

Definition nextPowerOfTwo (length : nat) : Z :=
  Z.shiftl 1 (Z.of_nat (bits_Len length)).

(** [order2] returns [x, y] where [data[x] <= data[y]], counting in [swaps]
    when it exchanges the two. *)
Definition order2 (data : PackageList) (a b swaps : nat) : nat * nat * nat :=
  if data_Less data b a then (b, a, swaps + 1) else (a, b, swaps).

(** [median] returns [x] where [data[x]] is the median of [data[a]],
    [data[b]], [data[c]]. *)
Definition median (data : PackageList) (a b c swaps : nat) : nat * nat :=
  let '(a, b, swaps) := order2 data a b swaps in
  let '(b, c, swaps) := order2 data b c swaps in
  let '(a, b, swaps) := order2 data a b swaps in
  (b, swaps).

Definition medianAdjacent (data : PackageList) (a swaps : nat) : nat * nat :=
  median data (a - 1) a (a + 1) swaps.

(** [choosePivot] chooses a pivot in [data[a:b]] and says whether the slice
    looks sorted already. *)
Definition choosePivot (data : PackageList) (a b : nat) : nat * sortedHint :=
  let l := b - a in
  let swaps := 0 in
  let i := a + l / 4 * 1 in
  let j := a + l / 4 * 2 in
  let k := a + l / 4 * 3 in
  let '(j, swaps) :=
    if 8 <=? l then
      let '(i, j, k, swaps) :=
        if 50 <=? l then
          let '(i, swaps) := medianAdjacent data i swaps in
          let '(j, swaps) := medianAdjacent data j swaps in
          let '(k, swaps) := medianAdjacent data k swaps in
          (i, j, k, swaps)
        else (i, j, k, swaps) in
      median data i j k swaps
    else (j, swaps) in
  if swaps =? 0 then (j, increasingHint)
  else if swaps =? 4 * 3 then (j, decreasingHint)
  else (j, unknownHint).

(** [for i < j { data.Swap(i, j); i++; j-- }]. *)
Definition reverseRange_step (s : PackageList * nat * nat)
  : control (PackageList * nat * nat) :=
  let '(data, i, j) := s in
  if i <? j then next (data_Swap data i j, i + 1, j - 1) else done (data, i, j).

Definition reverseRange (data : PackageList) (a b : nat) : PackageList :=
  fst (fst (loop (S b) reverseRange_step (data, a, b - 1))).

(** [for i < b && !data.Less(i, i-1) { i++ }]. *)
Definition partialInsertionSort_scan (data : PackageList) (b i : nat)
  : control nat :=
  if (i <? b) && negb (data_Less data i (i - 1)) then next (i + 1) else done i.

(** [for j := i - 1; j >= 1; j-- { if !data.Less(j, j-1) { break };
    data.Swap(j, j-1) }]. *)
Definition partialInsertionSort_left (s : PackageList * nat)
  : control (PackageList * nat) :=
  let '(data, j) := s in
  if 1 <=? j then
    if negb (data_Less data j (j - 1)) then done (data, j)
    else next (data_Swap data j (j - 1), j - 1)
  else done (data, j).

(** [for j := i + 1; j < b; j++ { if !data.Less(j, j-1) { break };
    data.Swap(j, j-1) }]. *)
Definition partialInsertionSort_right (b : nat) (s : PackageList * nat)
  : control (PackageList * nat) :=
  let '(data, j) := s in
  if j <? b then
    if negb (data_Less data j (j - 1)) then done (data, j)
    else next (data_Swap data j (j - 1), j + 1)
  else done (data, j).

(** What a turn of the loop of [partialInsertionSort] does with the
    element at [i] that is less than the one before it: exchange the two,
    then shift the smaller one to the left and the greater one to the
    right. *)
Definition partialInsertionSort_shift (data : PackageList) (a b i : nat)
  : PackageList :=
  let data := data_Swap data i (i - 1) in
  (* Shift the smaller one to the left. *)
  let data :=
    if 2 <=? i - a
    then fst (loop (S i) partialInsertionSort_left (data, i - 1))
    else data in
  (* Shift the greater one to the right. *)
  if 2 <=? b - i
  then fst (loop (S b) (partialInsertionSort_right b) (data, i + 1))
  else data.

(** The turns [j, ..., maxSteps - 1] of the loop of [partialInsertionSort],
    [steps] of them. *)
Fixpoint partialInsertionSort_steps (steps : nat) (data : PackageList)
  (a b i : nat) : PackageList * bool :=
  match steps with
  | O => (data, false)
  | S steps' =>
      let i := loop (S b) (partialInsertionSort_scan data b) i in
      if i =? b then (data, true)
      else if b - a <? 50 then (data, false)
      else
        partialInsertionSort_steps steps'
          (partialInsertionSort_shift data a b i) a b i
  end.

(** [partialInsertionSort] partially sorts a slice, returns true if the
    slice is sorted at the end. *)
Definition partialInsertionSort (data : PackageList) (a b : nat)
  : PackageList * bool :=
  partialInsertionSort_steps 5 data a b (a + 1).

(** [for i <= j && !data.Less(a, i) { i++ }] and
    [for i <= j && data.Less(a, j) { j-- }]. *)
Definition partitionEqual_i (data : PackageList) (a j i : nat) : control nat :=
  if (i <=? j) && negb (data_Less data a i) then next (i + 1) else done i.

Definition partitionEqual_j (data : PackageList) (a i j : nat) : control nat :=
  if (i <=? j) && data_Less data a j then next (j - 1) else done j.

Definition partitionEqual_step (a b : nat) (s : PackageList * nat * nat)
  : control (PackageList * nat * nat) :=
  let '(data, i, j) := s in
  let i := loop (S b) (partitionEqual_i data a j) i in
  let j := loop (S b) (partitionEqual_j data a i) j in
  if j <? i then done (data, i, j)
  else next (data_Swap data i j, i + 1, j - 1).

(** [partitionEqual] partitions [data[a:b]] into elements equal to
    [data[pivot]] followed by elements greater than [data[pivot]].  It
    assumes that [data[a:b]] does not contain elements smaller than
    [data[pivot]]. *)
Definition partitionEqual (data : PackageList) (a b pivot : nat)
  : PackageList * nat :=
  let data := data_Swap data a pivot in
  let '(data, i, _) :=
    loop (S b) (partitionEqual_step a b) (data, a + 1, b - 1) in
  (data, i).

(** [for i <= j && data.Less(i, a) { i++ }] and
    [for i <= j && !data.Less(j, a) { j-- }]. *)
Definition partition_i (data : PackageList) (a j i : nat) : control nat :=
  if (i <=? j) && data_Less data i a then next (i + 1) else done i.

Definition partition_j (data : PackageList) (a i j : nat) : control nat :=
  if (i <=? j) && negb (data_Less data j a) then next (j - 1) else done j.

Definition partition_step (a b : nat) (s : PackageList * nat * nat)
  : control (PackageList * nat * nat) :=
  let '(data, i, j) := s in
  let i := loop (S b) (partition_i data a j) i in
  let j := loop (S b) (partition_j data a i) j in
  if j <? i then done (data, i, j)
  else next (data_Swap data i j, i + 1, j - 1).

(** [partition] does one quicksort partition.  With [p = data[pivot]] it
    moves the elements of [data[a:b]] around so that [data[i] < p] and
    [data[j] >= p] for [i < newpivot] and [j > newpivot]; on return
    [data[newpivot] = p]. *)
Definition partition (data : PackageList) (a b pivot : nat)
  : PackageList * nat * bool :=
  let data := data_Swap data a pivot in
  let i := a + 1 in
  let j := b - 1 in
  let i := loop (S b) (partition_i data a j) i in
  let j := loop (S b) (partition_j data a i) j in
  if j <? i then (data_Swap data j a, j, true)
  else
    let data := data_Swap data i j in
    let '(data, _, j) :=
      loop (S b) (partition_step a b) (data, i + 1, j - 1) in
    (data_Swap data j a, j, false).

(** *** [pdqsort] and [Sort] *)

(** [breakPatterns] draws its indices from a generator; what is stated of
    the routine below holds whatever the generator, so [breakPatterns],
    [pdqsort] and [Sort] take the step [random.Next] of the generator as
    [random_Next].  In the library it is the step of a xorshift generator
    on 64-bit words, as [xorshift_Next]. *)
Section Generator.

Variable random_Next : Z -> Z.

(** One turn of [for i := 0; i < 3; i++] in [breakPatterns]. *)
Definition breakPatterns_step (a length : nat) (modulus : Z) (idx : nat)
  (s : PackageList * Z) (i : nat) : PackageList * Z :=
  let '(data, random) := s in
  let random := random_Next random in
  let other := Z.to_nat (Z.land random (modulus - 1)) in
  let other := if length <=? other then other - length else other in
  (data_Swap data (idx - 1 + i) (a + other), random).

(** [breakPatterns] scatters three elements around the middle of
    [data[a:b]] to break patterns that cause imbalanced partitions. *)
Definition breakPatterns (data : PackageList) (a b : nat) : PackageList :=
  let length := b - a in
  if 8 <=? length then
    let random := Z.of_nat length in
    let modulus := nextPowerOfTwo length in
    let idx := a + (length / 4) * 2 - 1 in
    fst (fold_left (breakPatterns_step a length modulus idx) [0; 1; 2]
           (data, random))
  else data.

(** The loop of [pdqsort], which sorts [data[a:b]]; [limit] is the number of
    allowed bad (very unbalanced) pivots before falling back to heapsort.
    A turn of the loop and a call of [pdqsort] within it each take one unit
    of [fuel]. *)
Fixpoint pdqsort_loop (fuel : nat) (data : PackageList) (a b limit : nat)
  (wasBalanced wasPartitioned : bool) {struct fuel} : PackageList :=
  match fuel with
  | O => data
  | S fuel' =>
      let length := b - a in
      if length <=? 12 then insertionSort data a b
      (* Fall back to heapsort if too many bad choices were made. *)
      else if limit =? 0 then heapSort data a b
      else
        (* If the last partitioning was imbalanced, we need to breakPatterns. *)
        let '(data, limit) :=
          if negb wasBalanced then (breakPatterns data a b, limit - 1)
          else (data, limit) in
        let '(pivot, hint) := choosePivot data a b in
        let '(data, pivot, hint) :=
          match hint with
          | decreasingHint =>
              (reverseRange data a b, (b - 1) - (pivot - a), increasingHint)
          | _ => (data, pivot, hint)
          end in
        (* The slice is likely already sorted. *)
        let '(data, sorted) :=
          match hint with
          | increasingHint =>
              if wasBalanced && wasPartitioned
              then partialInsertionSort data a b
              else (data, false)
          | _ => (data, false)
          end in
        if sorted then data
        (* Probably the slice contains many duplicate elements. *)
        else if (0 <? a) && negb (data_Less data (a - 1) pivot) then
          let '(data, mid) := partitionEqual data a b pivot in
          pdqsort_loop fuel' data mid b limit wasBalanced wasPartitioned
        else
          let '(data, mid, alreadyPartitioned) := partition data a b pivot in
          let wasPartitioned := alreadyPartitioned in
          let leftLen := mid - a in
          let rightLen := b - mid in
          let balanceThreshold := length / 8 in
          if leftLen <? rightLen then
            let wasBalanced := balanceThreshold <=? leftLen in
            let data := pdqsort_loop fuel' data a mid limit true true in
            pdqsort_loop fuel' data (mid + 1) b limit wasBalanced wasPartitioned
          else
            let wasBalanced := balanceThreshold <=? rightLen in
            let data := pdqsort_loop fuel' data (mid + 1) b limit true true in
            pdqsort_loop fuel' data a mid limit wasBalanced wasPartitioned
  end.

(** A call of [pdqsort]: its loop, entered with both flags set. *)
Definition pdqsort (fuel : nat) (data : PackageList) (a b limit : nat)
  : PackageList :=
  pdqsort_loop fuel data a b limit true true.

(** [Sort] sorts [data] in ascending order as determined by [Less].  No
    range that [pdqsort] works on is longer than the slice, so [n] turns
    are enough. *)
Definition Sort (data : PackageList) : PackageList :=
  let n := data_Len data in
  if n <=? 1 then data
  else
    let limit := bits_Len n in
    pdqsort n data 0 n limit.

End Generator.

End sort.

(** *** What [sort.Sort] does to the slice *)

(** [data[a:b]] is in ascending order: no element is [Less] than one
    before it. *)
Definition sortedRange (data : PackageList) (a b : nat) : Prop :=
  forall i j, (a <= i)%nat -> (i < j)%nat -> (j < b)%nat ->
    Less (sort.elem data j) (sort.elem data i) = false.

(** [data'] comes from [data] by calls of [Swap] with both indices in
    [[a, b)], a range within the slice. *)
Inductive Swaps (a b : nat) : PackageList -> PackageList -> Prop :=
| Swaps_refl (data : PackageList) : Swaps a b data data
| Swaps_step (data data' : PackageList) (i j : nat) :
    (a <= i < b)%nat -> (a <= j < b)%nat -> (b <= List.length data)%nat ->
    Swaps a b (sort.data_Swap data i j) data' ->
    Swaps a b data data'.

(** Nothing before [data[a:b]] is greater than an element of it. *)
Definition bounded (data : PackageList) (a b : nat) : Prop :=
  forall k, (0 < a)%nat -> (a <= k < b)%nat ->
    Less (sort.elem data k) (sort.elem data (a - 1)) = false.

(** In the heap that [heapSort] lays over [data[first:first+hi]], no node
    from [lo] on is less than a child of it. *)
Definition heapFrom (data : PackageList) (first lo hi : nat) : Prop :=
  forall r c, (lo <= r)%nat -> (c < hi)%nat ->
    (c = 2 * r + 1 \/ c = 2 * r + 2)%nat ->
    Less (sort.elem data (first + r)) (sort.elem data (first + c)) = false.

(** Where the two indices of [partition] stand: the elements of
    [data[a+1:i]] are less than the pivot at [data[a]], those of
    [data[j+1:b]] are not. *)
Definition partitioning (data : PackageList) (a b i j : nat) : Prop :=
  (a < i)%nat /\ (i <= j + 1)%nat /\ (j < b)%nat /\
  (forall k, (a < k < i)%nat ->
     Less (sort.elem data k) (sort.elem data a) = true) /\
  (forall k, (j < k < b)%nat ->
     Less (sort.elem data k) (sort.elem data a) = false).

(** The same for [partitionEqual]: the pivot at [data[a]] is not less than
    an element of [data[a:i]]. *)
Definition partitioningEqual (data : PackageList) (a b i j : nat) : Prop :=
  (a < i)%nat /\ (i <= j + 1)%nat /\ (j < b)%nat /\
  (forall k, (a <= k < i)%nat ->
     Less (sort.elem data a) (sort.elem data k) = false).

(** [data[mid]] divides [data[a:b]]: only smaller elements before it, no
    smaller element behind it. *)
Definition pivoted (data : PackageList) (a mid b : nat) : Prop :=
  (a <= mid < b)%nat /\
  (forall k, (a <= k < mid)%nat ->
     Less (sort.elem data k) (sort.elem data mid) = true) /\
  (forall k, (mid < k < b)%nat ->
     Less (sort.elem data k) (sort.elem data mid) = false).

(** *** A sample slice *)

(** Thirteen records: one of category 16, then twelve of category 4 that
    all bear the name [jq], numbered in the order in which they come. *)
Definition thirteen : PackageList :=
  pkg 0 "zsh" 16 0
  :: map (fun id => pkg id "jq" 4 0) [1; 2; 3; 4; 5; 6; 7; 8; 9; 10; 11; 12].

(** * Results *)

(** ** Byte-wise order of strings *)

Module StringOrder.

Lemma ascii_compare_refl (c : ascii) : Ascii.compare c c = Eq.
Proof. unfold Ascii.compare. apply N.compare_refl. Qed.

Lemma compare_refl (s : string) : (s ?= s)%string = Eq.
Proof.
  induction s as [|c s IH]; simpl; [reflexivity|].
  now rewrite ascii_compare_refl.
Qed.

Lemma compare_eq (s t : string) : (s ?= t)%string = Eq <-> s = t.
Proof.
  split; [apply String.compare_eq_iff|intros ->; apply compare_refl].
Qed.

Lemma ascii_compare_lt_trans (a b c : ascii) :
  Ascii.compare a b = Lt -> Ascii.compare b c = Lt -> Ascii.compare a c = Lt.
Proof.
  unfold Ascii.compare. rewrite !N.compare_lt_iff. apply N.lt_trans.
Qed.

Lemma compare_lt_trans (s t u : string) :
  (s ?= t)%string = Lt -> (t ?= u)%string = Lt -> (s ?= u)%string = Lt.
Proof.
  revert t u.
  induction s as [|a s IH]; intros [|b t] [|c u]; simpl; try congruence.
  destruct (Ascii.compare a b) eqn:Hab; try discriminate;
    destruct (Ascii.compare b c) eqn:Hbc; try discriminate; intros H1 H2.
  - apply Ascii.compare_eq_iff in Hab, Hbc. subst.
    rewrite ascii_compare_refl. eauto.
  - apply Ascii.compare_eq_iff in Hab. subst. now rewrite Hbc.
  - apply Ascii.compare_eq_iff in Hbc. subst. now rewrite Hab.
  - now rewrite (ascii_compare_lt_trans _ _ _ Hab Hbc).
Qed.

Lemma ltb_lt (s t : string) : (s <? t)%string = true <-> (s ?= t)%string = Lt.
Proof.
  unfold String.ltb. destruct (s ?= t)%string; split; congruence.
Qed.

Lemma ltb_irrefl (s : string) : (s <? s)%string = false.
Proof. unfold String.ltb. now rewrite compare_refl. Qed.

Lemma ltb_trans (s t u : string) :
  (s <? t)%string = true -> (t <? u)%string = true -> (s <? u)%string = true.
Proof. rewrite !ltb_lt. apply compare_lt_trans. Qed.

Lemma ltb_total (s t : string) :
  (s <? t)%string = true \/ s = t \/ (t <? s)%string = true.
Proof.
  rewrite !ltb_lt. destruct (s ?= t)%string eqn:E.
  - right; left. now apply compare_eq.
  - now left.
  - right; right. rewrite String.compare_antisym, E. reflexivity.
Qed.

End StringOrder.

(** ** [Less] is a strict order, total on sort keys *)

Lemma Less_spec (a b : Package) :
  Less a b = true <->
  CategoryID a < CategoryID b \/
  (CategoryID a = CategoryID b /\ (Name a <? Name b)%string = true).
Proof.
  unfold Less.
  destruct (CategoryID a <? CategoryID b) eqn:E1.
  - apply Z.ltb_lt in E1. tauto.
  - apply Z.ltb_ge in E1.
    destruct (CategoryID a =? CategoryID b) eqn:E2; simpl.
    + apply Z.eqb_eq in E2.
      destruct (Name a <? Name b)%string; split; intros H; try tauto;
        try discriminate.
      destruct H as [H|[_ H]]; [lia|discriminate].
    + apply Z.eqb_neq in E2. split; [discriminate|].
      intros [H|[H _]]; [lia|contradiction].
Qed.

Lemma Less_irrefl (a : Package) : Less a a = false.
Proof.
  destruct (Less a a) eqn:E; [|reflexivity].
  apply Less_spec in E. destruct E as [E|[_ E]]; [lia|].
  now rewrite StringOrder.ltb_irrefl in E.
Qed.

Lemma Less_trans (a b c : Package) :
  Less a b = true -> Less b c = true -> Less a c = true.
Proof.
  rewrite !Less_spec. intros [H1|[H1 N1]] [H2|[H2 N2]]; try (left; lia).
  right. split; [lia|]. eapply StringOrder.ltb_trans; eassumption.
Qed.

Lemma Less_asym (a b : Package) : Less a b = true -> Less b a = false.
Proof.
  intros H. destruct (Less b a) eqn:E; [|reflexivity].
  pose proof (Less_trans _ _ _ H E) as C. now rewrite Less_irrefl in C.
Qed.

Lemma Less_total (a b : Package) :
  Less a b = true \/ sortKey a = sortKey b \/ Less b a = true.
Proof.
  rewrite !Less_spec. unfold sortKey.
  destruct (Z.lt_trichotomy (CategoryID a) (CategoryID b)) as [H|[H|H]];
    [tauto| |tauto].
  destruct (StringOrder.ltb_total (Name a) (Name b)) as [N|[N|N]].
  - tauto.
  - right; left. congruence.
  - right; right; right. split; [congruence|assumption].
Qed.

Lemma Less_key (a a' b b' : Package) :
  sortKey a = sortKey a' -> sortKey b = sortKey b' -> Less a b = Less a' b'.
Proof.
  unfold sortKey, Less. intros [= -> ->] [= -> ->]. reflexivity.
Qed.

Lemma Less_negtrans (a b c : Package) :
  Less a b = false -> Less b c = false -> Less a c = false.
Proof.
  intros Hab Hbc. destruct (Less a c) eqn:Hac; [|reflexivity].
  destruct (Less_total b c) as [H|[H|H]].
  - congruence.
  - rewrite (Less_key a a b c eq_refl H) in Hab. congruence.
  - pose proof (Less_trans _ _ _ Hac H). congruence.
Qed.

(** ** Sorted lists *)

Section SortedLists.

Context {A : Type}.
Variable R : A -> A -> Prop.

Lemma StronglySorted_nth (l : list A) :
  StronglySorted R l ->
  forall i j a b, (i < j)%nat ->
    nth_error l i = Some a -> nth_error l j = Some b -> R a b.
Proof.
  induction 1 as [|x l Hs IH Hall]; intros i j a b Hij Hi Hj.
  - destruct i; discriminate.
  - destruct j as [|j]; [lia|]. simpl in Hj. destruct i as [|i]; simpl in Hi.
    + injection Hi as <-. rewrite Forall_forall in Hall.
      apply Hall. eapply nth_error_In; eassumption.
    + eapply IH; [|eassumption|eassumption]. lia.
Qed.

End SortedLists.

Lemma filter_perm {A : Type} (f : A -> bool) (l l' : list A) :
  Permutation l l' -> Permutation (filter f l) (filter f l').
Proof.
  induction 1 as [|x l l' _ IH|x y l|l l' l'' _ IH1 _ IH2]; simpl.
  - constructor.
  - destruct (f x); auto.
  - destruct (f x), (f y); auto using Permutation_refl, perm_swap.
  - eapply perm_trans; eassumption.
Qed.

(** ** [Swap] on a slice *)

Section SwapFacts.

Context {St : Type}.

Lemma at_in_range (p : PackageList) (i : Z) (x : Package) (s : St) :
  nth_error p (Z.to_nat i) = Some x -> 0 <= i ->
  at_ p i s = ([], s, Returned x).
Proof.
  intros H Hi. unfold at_, Len.
  assert (Hlt : (Z.to_nat i < List.length p)%nat)
    by (apply nth_error_Some; congruence).
  replace (0 <=? i) with true by (symmetry; apply Z.leb_le; lia).
  replace (i <? Z.of_nat (List.length p)) with true
    by (symmetry; apply Z.ltb_lt; lia).
  simpl. now rewrite H.
Qed.

Lemma at_out_of_range (p : PackageList) (i : Z) (s : St) :
  i < 0 \/ Len p <= i ->
  at_ p i s = ([], s, Panicked (IndexOutOfRange i (Len p))).
Proof.
  intros H. unfold at_.
  destruct (0 <=? i) eqn:E1; [|reflexivity].
  destruct (i <? Len p) eqn:E2; [|reflexivity].
  apply Z.leb_le in E1. apply Z.ltb_lt in E2. lia.
Qed.

Lemma at_returns (p : PackageList) (i : Z) (s s' : St) (t : list event)
  (x : Package) :
  at_ p i s = (t, s', Returned x) ->
  0 <= i < Len p /\ nth_error p (Z.to_nat i) = Some x /\ t = [] /\ s' = s.
Proof.
  unfold at_.
  destruct (0 <=? i) eqn:E1; [|discriminate].
  destruct (i <? Len p) eqn:E2; [|discriminate]. simpl.
  apply Z.leb_le in E1. apply Z.ltb_lt in E2.
  destruct (nth_error p (Z.to_nat i)) as [y|]; [|discriminate].
  intros [= <- <- <-]. auto.
Qed.

Lemma store_length (p : PackageList) (i : nat) (x : Package) :
  List.length (store p i x) = List.length p.
Proof.
  revert i. induction p as [|y p IH]; intros [|i]; simpl; auto.
Qed.

Lemma store_nth_same (p : PackageList) (i : nat) (x : Package) :
  (i < List.length p)%nat -> nth_error (store p i x) i = Some x.
Proof.
  revert i. induction p as [|y p IH]; intros [|i] H; simpl in *; try lia; auto.
  apply IH. lia.
Qed.

Lemma store_nth_other (p : PackageList) (i k : nat) (x : Package) :
  i <> k -> nth_error (store p i x) k = nth_error p k.
Proof.
  revert i k. induction p as [|y p IH]; intros [|i] [|k] H; simpl; auto.
  congruence.
Qed.

Lemma store_perm (p : PackageList) (i : nat) (x y : Package) :
  nth_error p i = Some y -> Permutation (y :: store p i x) (x :: p).
Proof.
  revert i. induction p as [|z p IH]; intros [|i] H; simpl in *; try discriminate.
  - injection H as ->. apply perm_swap.
  - eapply perm_trans; [apply perm_swap|].
    eapply perm_trans; [apply perm_skip, IH, H|]. apply perm_swap.
Qed.

Lemma Swap_returns (p : PackageList) (i j : Z) (s : St) (a b : Package) :
  0 <= i -> 0 <= j ->
  nth_error p (Z.to_nat i) = Some a -> nth_error p (Z.to_nat j) = Some b ->
  Swap p i j s
  = ([], s, Returned (store (store p (Z.to_nat i) b) (Z.to_nat j) a)).
Proof.
  intros Hi Hj Ha Hb. unfold Swap, bind.
  rewrite (at_in_range p i a s Ha Hi), (at_in_range p j b s Hb Hj).
  reflexivity.
Qed.

Lemma Swap_inv (p p' : PackageList) (i j : Z) (s s' : St) (t : list event) :
  Swap p i j s = (t, s', Returned p') ->
  exists a b,
    0 <= i /\ 0 <= j /\
    nth_error p (Z.to_nat i) = Some a /\ nth_error p (Z.to_nat j) = Some b /\
    p' = store (store p (Z.to_nat i) b) (Z.to_nat j) a /\ t = [] /\ s' = s.
Proof.
  unfold Swap, bind.
  destruct (at_ p i s) as [[t1 s1] [a|v|c]] eqn:Ei; try discriminate.
  destruct (at_returns _ _ _ _ _ _ Ei) as (Hi & Ha & -> & ->).
  destruct (at_ p j s) as [[t2 s2] [b|v|c]] eqn:Ej; try discriminate.
  destruct (at_returns _ _ _ _ _ _ Ej) as (Hj & Hb & -> & ->).
  simpl. intros [= <- <- <-]. exists a, b. repeat split; auto; lia.
Qed.

Lemma swapped_perm (p : PackageList) (i j : nat) (a b : Package) :
  nth_error p i = Some a -> nth_error p j = Some b ->
  Permutation p (store (store p i b) j a).
Proof.
  intros Ha Hb.
  assert (Hi : (i < List.length p)%nat) by (apply nth_error_Some; congruence).
  assert (Hb' : nth_error (store p i b) j = Some b).
  { destruct (Nat.eq_dec i j) as [<-|Hne].
    - now apply store_nth_same.
    - now rewrite store_nth_other. }
  apply Permutation_cons_inv with (a := b). apply Permutation_sym.
  eapply perm_trans; [apply (store_perm _ j a b Hb')|].
  apply (store_perm p i b a Ha).
Qed.

End SwapFacts.

(** ** [sort.Sort] *)

Module SortFacts.

Import sort.
Local Open Scope nat_scope.

(** *** Loops *)

Lemma loop_rule {State : Type} (step : State -> control State)
  (Inv Post : State -> Prop) (m : State -> nat) :
  (forall s s', Inv s -> step s = next s' -> Inv s' /\ m s' < m s) ->
  (forall s s', Inv s -> step s = done s' -> Post s') ->
  forall fuel s, Inv s -> m s < fuel -> Post (loop fuel step s).
Proof.
  intros Hnext Hdone. induction fuel as [|fuel IH]; intros s Hi Hm; [lia|].
  simpl. destruct (step s) as [s'|s'] eqn:E.
  - destruct (Hnext _ _ Hi E) as [Hi' Hm']. apply IH; [assumption|lia].
  - eapply Hdone; eassumption.
Qed.

Lemma downFrom_rule {State : Type} (body : nat -> State -> State)
  (Inv : nat -> State -> Prop) (n : nat) :
  (forall i s, i < n -> Inv (S i) s -> Inv i (body i s)) ->
  forall s, Inv n s -> Inv 0 (downFrom n body s).
Proof.
  induction n as [|n IH]; intros Hbody s Hs; simpl; [assumption|].
  apply IH; [|apply Hbody; [lia|assumption]].
  intros i s' Hi. apply Hbody. lia.
Qed.

(** *** The order *)

(** *** [Swap] on elements *)

Lemma elem_nth_error (data : PackageList) (i : nat) :
  i < List.length data -> nth_error data i = Some (elem data i).
Proof. intros H. unfold elem. now apply nth_error_nth'. Qed.

Lemma elem_store (data : PackageList) (i k : nat) (x : Package) :
  i < List.length data ->
  elem (store data i x) k = if k =? i then x else elem data k.
Proof.
  unfold elem. revert i k.
  induction data as [|y data IH]; intros [|i] [|k] H; simpl in *; try lia;
    try reflexivity.
  apply IH. lia.
Qed.

Lemma data_Swap_in (data : PackageList) (i j : nat) :
  i < List.length data -> j < List.length data ->
  data_Swap data i j = store (store data i (elem data j)) j (elem data i).
Proof.
  intros Hi Hj. unfold data_Swap.
  rewrite (Swap_returns data (Z.of_nat i) (Z.of_nat j) tt
             (elem data i) (elem data j));
    rewrite ?Nat2Z.id; try lia; try (now apply elem_nth_error).
  reflexivity.
Qed.

Lemma length_data_Swap (data : PackageList) (i j : nat) :
  List.length (data_Swap data i j) = List.length data.
Proof.
  unfold data_Swap.
  destruct (Swap data (Z.of_nat i) (Z.of_nat j) tt) as [[t s'] [q|v|c]] eqn:E;
    unfold result; simpl; try reflexivity.
  destruct (Swap_inv _ _ _ _ _ _ _ E) as (x & y & _ & _ & _ & _ & -> & _).
  now rewrite !store_length.
Qed.

Lemma perm_data_Swap (data : PackageList) (i j : nat) :
  Permutation data (data_Swap data i j).
Proof.
  unfold data_Swap.
  destruct (Swap data (Z.of_nat i) (Z.of_nat j) tt) as [[t s'] [q|v|c]] eqn:E;
    unfold result; simpl; try apply Permutation_refl.
  destruct (Swap_inv _ _ _ _ _ _ _ E) as (x & y & _ & _ & Hx & Hy & -> & _).
  now apply swapped_perm.
Qed.

Lemma elem_data_Swap (data : PackageList) (i j k : nat) :
  i < List.length data -> j < List.length data ->
  elem (data_Swap data i j) k
  = if k =? j then elem data i else if k =? i then elem data j else elem data k.
Proof.
  intros Hi Hj. rewrite data_Swap_in by assumption.
  rewrite elem_store by now rewrite store_length.
  destruct (k =? j); [reflexivity|]. now apply elem_store.
Qed.

(** *** Runs of [Swap] calls within a range *)

Lemma Swaps_one (a b : nat) (data : PackageList) (i j : nat) :
  a <= i < b -> a <= j < b -> b <= List.length data ->
  Swaps a b data (data_Swap data i j).
Proof.
  intros Hi Hj Hb.
  apply (Swaps_step a b data _ i j Hi Hj Hb). apply Swaps_refl.
Qed.

Lemma Swaps_trans (a b : nat) (p q r : PackageList) :
  Swaps a b p q -> Swaps a b q r -> Swaps a b p r.
Proof.
  induction 1 as [|p q i j Hi Hj Hb _ IH]; [auto|].
  intros H. apply (Swaps_step a b p r i j Hi Hj Hb). now apply IH.
Qed.

Lemma Swaps_mono (a b a' b' : nat) (p q : PackageList) :
  a' <= a -> b <= b' -> b' <= List.length p ->
  Swaps a b p q -> Swaps a' b' p q.
Proof.
  intros Ha Hb Hl H. induction H as [|p q i j Hi Hj Hlen _ IH];
    [apply Swaps_refl|].
  apply (Swaps_step a' b' p q i j); [lia|lia|lia|].
  apply IH. now rewrite length_data_Swap.
Qed.

Lemma Swaps_length (a b : nat) (p q : PackageList) :
  Swaps a b p q -> List.length q = List.length p.
Proof.
  induction 1 as [|p q i j _ _ _ _ IH]; [reflexivity|].
  now rewrite IH, length_data_Swap.
Qed.

Lemma Swaps_perm (a b : nat) (p q : PackageList) :
  Swaps a b p q -> Permutation p q.
Proof.
  induction 1 as [|p q i j _ _ _ _ IH]; [apply Permutation_refl|].
  eapply perm_trans; [apply perm_data_Swap|exact IH].
Qed.

Lemma Swaps_outside (a b : nat) (p q : PackageList) (k : nat) :
  Swaps a b p q -> k < a \/ b <= k -> elem q k = elem p k.
Proof.
  induction 1 as [|p q i j Hi Hj Hb _ IH]; intros Hk; [reflexivity|].
  rewrite IH by assumption. rewrite elem_data_Swap by lia.
  destruct (Nat.eqb_spec k j); [lia|]. destruct (Nat.eqb_spec k i); [lia|].
  reflexivity.
Qed.

(** A property of every element of a range that encloses the calls holds
    of every element afterwards. *)
Lemma Swaps_all (P : Package -> Prop) (a b c d : nat) (p q : PackageList) :
  Swaps a b p q -> c <= a -> b <= d ->
  (forall k, c <= k < d -> P (elem p k)) ->
  (forall k, c <= k < d -> P (elem q k)).
Proof.
  induction 1 as [|p q i j Hi Hj Hb _ IH]; intros Hc Hd Hp; [assumption|].
  apply IH; try assumption. intros k Hk.
  rewrite elem_data_Swap by lia.
  destruct (Nat.eqb_spec k j); [apply Hp; lia|].
  destruct (Nat.eqb_spec k i); apply Hp; lia.
Qed.

Lemma Swaps_bounded (a b c d : nat) (p q : PackageList) :
  Swaps a b p q -> c <= a -> b <= d -> bounded p c d -> bounded q c d.
Proof.
  intros H Hc Hd Hb k Hpos Hk.
  rewrite (Swaps_outside a b p q (c - 1) H) by lia.
  revert k Hk.
  apply (Swaps_all (fun x => Less x (elem p (c - 1)) = false) a b c d p q H);
    try assumption.
  intros k Hk. now apply Hb.
Qed.

(** *** Sorted ranges *)

Lemma sortedRange_short (data : PackageList) (a b : nat) :
  b <= a + 1 -> sortedRange data a b.
Proof. intros H i j Hi Hij Hj. lia. Qed.

Lemma sortedRange_snoc (data : PackageList) (a i : nat) :
  sortedRange data a i ->
  (a < i -> Less (elem data i) (elem data (i - 1)) = false) ->
  sortedRange data a (i + 1).
Proof.
  intros Hs Hlast x y Hx Hxy Hy.
  destruct (Nat.eq_dec y i) as [->|Hne]; [|apply Hs; lia].
  destruct (Nat.eq_dec x (i - 1)) as [->|Hne]; [apply Hlast; lia|].
  eapply Less_negtrans; [apply Hlast; lia|]. apply Hs; lia.
Qed.

Lemma sortedRange_outside (a b : nat) (p q : PackageList) (c d : nat) :
  Swaps c d p q -> d <= a \/ b <= c -> sortedRange p a b -> sortedRange q a b.
Proof.
  intros H Hout Hs i j Hi Hij Hj.
  rewrite !(Swaps_outside c d p q) by (assumption || lia). now apply Hs.
Qed.

(** Two sorted ranges side by side, none of the first greater than one of
    the second. *)
Lemma sortedRange_join (data : PackageList) (a m b : nat) :
  sortedRange data a m -> sortedRange data m b ->
  (forall i j, a <= i < m -> m <= j < b ->
     Less (elem data j) (elem data i) = false) ->
  sortedRange data a b.
Proof.
  intros H1 H2 H12 i j Hi Hij Hj.
  destruct (Nat.lt_ge_cases j m); [apply H1; lia|].
  destruct (Nat.lt_ge_cases i m); [apply H12; lia|apply H2; lia].
Qed.

Lemma sortedRange_ascending (data : PackageList) :
  sortedRange data 0 (List.length data) <-> ascending data.
Proof.
  unfold sortedRange, ascending, elem. split.
  - induction data as [|x data IH]; intros H; constructor.
    + apply IH. intros i j Hi Hij Hj.
      apply (H (S i) (S j)); simpl; lia.
    + rewrite Forall_forall. intros y Hy.
      destruct (In_nth _ _ (pkg 0 "" 0 0) Hy) as (k & Hk & <-).
      apply (H 0 (S k)); simpl; lia.
  - intros H i j _ Hij Hj.
    apply (StronglySorted_nth _ _ H i j); [assumption| |];
      apply nth_error_nth'; lia.
Qed.

End SortFacts.

Module InsertionFacts.

Import sort SortFacts.
Local Open Scope nat_scope.

(** *** [insertionSort] *)

(** The inner loop sinks [data[j]] into the sorted range before it: if
    [data[a:top+1]] is in order but for the element at [j], which is not
    greater than those behind it, the loop leaves the range in order. *)
Lemma insertionSort_inner_sorts (a top : nat) (data0 : PackageList)
  (j0 fuel : nat) :
  j0 < fuel -> a <= j0 <= top -> top < List.length data0 ->
  (forall x y, a <= x -> x < y -> y <= top -> x <> j0 -> y <> j0 ->
     Less (elem data0 y) (elem data0 x) = false) ->
  (forall y, j0 < y <= top -> Less (elem data0 y) (elem data0 j0) = false) ->
  let data := fst (loop fuel (insertionSort_inner a) (data0, j0)) in
  Swaps a (top + 1) data0 data /\ sortedRange data a (top + 1).
Proof.
  intros Hfuel Hj Htop H1 H2.
  apply (loop_rule (insertionSort_inner a)
    (fun s => let '(data, j) := s in
       a <= j <= top /\ Swaps a (top + 1) data0 data /\
       (forall x y, a <= x -> x < y -> y <= top -> x <> j -> y <> j ->
          Less (elem data y) (elem data x) = false) /\
       (forall y, j < y <= top -> Less (elem data y) (elem data j) = false))
    (fun s => Swaps a (top + 1) data0 (fst s) /\ sortedRange (fst s) a (top + 1))
    (fun s => snd s)).
  - intros [data j] [data' j'] (Hr & Hsw & E1 & E2). unfold insertionSort_inner.
    destruct (Nat.ltb_spec a j) as [Haj|Haj]; simpl; [|discriminate].
    unfold data_Less.
    destruct (Less (elem data j) (elem data (j - 1))) eqn:Hless; [|discriminate].
    intros [= <- <-]. simpl.
    assert (Hlen : List.length data = List.length data0)
      by (eapply Swaps_length; eassumption).
    split; [|lia]. split; [lia|]. split.
    { eapply Swaps_trans; [eassumption|]. apply Swaps_one; lia. }
    split.
    + intros x y Hx Hxy Hy Hxj Hyj.
      rewrite !elem_data_Swap by lia.
      destruct (Nat.eqb_spec y (j - 1)); [lia|].
      destruct (Nat.eqb_spec x (j - 1)); [lia|].
      destruct (Nat.eqb_spec y j) as [->|Hyne];
        destruct (Nat.eqb_spec x j) as [->|Hxne]; try lia.
      * apply E1; lia.
      * apply E1; lia.
      * apply E1; lia.
    + intros y Hy. rewrite !elem_data_Swap by lia.
      destruct (Nat.eqb_spec y (j - 1)); [lia|].
      destruct (Nat.eqb_spec (j - 1) (j - 1)); [|lia].
      destruct (Nat.eqb_spec y j) as [->|Hyne].
      * now apply Less_asym.
      * apply E2. lia.
  - intros [data j] [data' j'] (Hr & Hsw & E1 & E2). unfold insertionSort_inner.
    intros Hdone.
    assert (Hstop : a < j -> Less (elem data j) (elem data (j - 1)) = false).
    { intros Haj. revert Hdone. unfold data_Less.
      destruct (Nat.ltb_spec a j); [|lia]. simpl.
      destruct (Less (elem data j) (elem data (j - 1))); [discriminate|auto]. }
    assert (data' = data) as ->.
    { destruct ((a <? j) && data_Less data j (j - 1)); congruence. }
    simpl. split; [assumption|].
    intros x y Hx Hxy Hy.
    destruct (Nat.eq_dec x j) as [->|Hxj]; [apply E2; lia|].
    destruct (Nat.eq_dec y j) as [->|Hyj]; [|apply E1; lia].
    destruct (Nat.eq_dec x (j - 1)) as [->|Hxp]; [apply Hstop; lia|].
    eapply Less_negtrans; [apply Hstop; lia|]. apply E1; lia.
  - simpl. auto using Swaps_refl.
  - simpl. lia.
Qed.

(** On a range in order up to and including [data[j]] the inner loop does
    nothing. *)
Lemma insertionSort_inner_sorted (a : nat) (data : PackageList) (j fuel : nat) :
  sortedRange data a (j + 1) ->
  loop (S fuel) (insertionSort_inner a) (data, j) = (data, j).
Proof.
  intros Hs. simpl. unfold data_Less.
  destruct (Nat.ltb_spec a j) as [Haj|Haj]; simpl; [|reflexivity].
  rewrite Hs by lia. reflexivity.
Qed.

Lemma insertionSort_sorts (data0 : PackageList) (a b : nat) :
  a <= b <= List.length data0 ->
  Swaps a b data0 (insertionSort data0 a b) /\
  sortedRange (insertionSort data0 a b) a b.
Proof.
  intros Hab. unfold insertionSort.
  destruct (Nat.eq_dec a b) as [->|Hne].
  { simpl. destruct (Nat.ltb_spec (b + 1) b); [lia|]. simpl.
    split; [apply Swaps_refl|apply sortedRange_short; lia]. }
  apply (loop_rule (insertionSort_outer a b)
    (fun s => let '(data, i) := s in
       a < i <= b /\ Swaps a b data0 data /\ sortedRange data a i)
    (fun s => Swaps a b data0 (fst s) /\ sortedRange (fst s) a b)
    (fun s => b - snd s)).
  - intros [data i] [data' i'] (Hi & Hsw & Hs). unfold insertionSort_outer.
    destruct (Nat.ltb_spec i b) as [Hib|Hib]; [|discriminate].
    intros [= <- <-]. simpl.
    assert (Hlen : List.length data = List.length data0)
      by (eapply Swaps_length; eassumption).
    destruct (insertionSort_inner_sorts a i data i (S i))
      as [Hsw' Hs']; try lia.
    { intros x y Hx Hxy Hy Hxi Hyi. apply Hs; lia. }
    split; [|lia]. split; [lia|]. split; [|assumption].
    eapply Swaps_trans; [eassumption|].
    eapply Swaps_mono; [| | |eassumption]; lia.
  - intros [data i] [data' i'] (Hi & Hsw & Hs). unfold insertionSort_outer.
    destruct (Nat.ltb_spec i b) as [Hib|Hib]; [discriminate|].
    intros [= <- <-]. simpl. split; [assumption|].
    replace b with i by lia. assumption.
  - split; [lia|]. split; [apply Swaps_refl|]. apply sortedRange_short. lia.
  - simpl. lia.
Qed.

(** A range already in order is left as it is. *)
Lemma insertionSort_sorted (data : PackageList) (a b : nat) :
  sortedRange data a b -> insertionSort data a b = data.
Proof.
  intros Hs. unfold insertionSort.
  apply (loop_rule (insertionSort_outer a b)
    (fun s => fst s = data)
    (fun s => fst s = data)
    (fun s => S b - snd s)).
  - intros [d i] [d' i'] Hd. simpl in Hd. subst d. unfold insertionSort_outer.
    destruct (Nat.ltb_spec i b) as [Hib|Hib]; [|discriminate].
    rewrite insertionSort_inner_sorted
      by (intros x y Hx Hxy Hy; apply Hs; lia).
    intros [= <- <-]. cbn [fst snd]. split; [reflexivity|lia].
  - intros [d i] [d' i']. simpl. intros ->. unfold insertionSort_outer.
    destruct (i <? b); intros [= <- <-]; reflexivity.
  - reflexivity.
  - cbn [snd]. lia.
Qed.

End InsertionFacts.

Module HeapFacts.

Import sort SortFacts.
Local Open Scope nat_scope.

#[local] Arguments Nat.mul : simpl never.
#[local] Arguments Nat.add : simpl never.
#[local] Arguments Nat.sub : simpl never.
#[local] Arguments Nat.div : simpl never.

(** *** [heapSort] *)

Lemma siftDown_step_next (hi first : nat) (data : PackageList) (root : nat)
  (s' : PackageList * nat) :
  siftDown_step hi first (data, root) = next s' ->
  exists c,
    s' = (data_Swap data (first + root) (first + c), c) /\
    (c = 2 * root + 1 \/ c = 2 * root + 2) /\ c < hi /\
    Less (elem data (first + root)) (elem data (first + c)) = true /\
    (forall c', c' = 2 * root + 1 \/ c' = 2 * root + 2 -> c' < hi ->
       Less (elem data (first + c)) (elem data (first + c')) = false).
Proof.
  unfold siftDown_step, data_Less.
  destruct (Nat.leb_spec hi (2 * root + 1)) as [Hc|Hc]; [discriminate|].
  replace (first + (2 * root + 1) + 1) with (first + (2 * root + 2)) by lia.
  destruct (Nat.ltb_spec (2 * root + 1 + 1) hi) as [Hc2|Hc2]; simpl.
  - destruct (Less (elem data (first + (2 * root + 1)))
                   (elem data (first + (2 * root + 2)))) eqn:E.
    + replace (first + (2 * root + 1 + 1)) with (first + (2 * root + 2)) by lia.
      destruct (Less (elem data (first + root))
                     (elem data (first + (2 * root + 2)))) eqn:E2;
        [|discriminate].
      simpl. intros [= <-]. exists (2 * root + 2).
      replace (2 * root + 1 + 1) with (2 * root + 2) by lia.
      repeat split; auto; try lia.
      intros c' [->| ->] _; [now apply Less_asym|apply Less_irrefl].
    + destruct (Less (elem data (first + root))
                     (elem data (first + (2 * root + 1)))) eqn:E2;
        [|discriminate].
      simpl. intros [= <-]. exists (2 * root + 1).
      repeat split; auto.
      intros c' [->| ->] _; [apply Less_irrefl|assumption].
  - destruct (Less (elem data (first + root))
                   (elem data (first + (2 * root + 1)))) eqn:E2;
      [|discriminate].
    simpl. intros [= <-]. exists (2 * root + 1).
    repeat split; auto.
    intros c' [->| ->] Hc'; [apply Less_irrefl|lia].
Qed.

Lemma siftDown_step_done (hi first : nat) (data : PackageList) (root : nat)
  (s' : PackageList * nat) :
  siftDown_step hi first (data, root) = done s' ->
  s' = (data, root) /\
  (forall c', c' = 2 * root + 1 \/ c' = 2 * root + 2 -> c' < hi ->
     Less (elem data (first + root)) (elem data (first + c')) = false).
Proof.
  unfold siftDown_step, data_Less.
  destruct (Nat.leb_spec hi (2 * root + 1)) as [Hc|Hc].
  { intros [= <-]. split; [reflexivity|]. intros c' Hc' Hlt. lia. }
  replace (first + (2 * root + 1) + 1) with (first + (2 * root + 2)) by lia.
  destruct (Nat.ltb_spec (2 * root + 1 + 1) hi) as [Hc2|Hc2]; simpl.
  - destruct (Less (elem data (first + (2 * root + 1)))
                   (elem data (first + (2 * root + 2)))) eqn:E.
    + replace (first + (2 * root + 1 + 1)) with (first + (2 * root + 2)) by lia.
      destruct (Less (elem data (first + root))
                     (elem data (first + (2 * root + 2)))) eqn:E2;
        [discriminate|].
      simpl. intros [= <-]. split; [reflexivity|].
      intros c' [->| ->] _; [|assumption].
      eapply Less_negtrans; [exact E2|]. now apply Less_asym.
    + destruct (Less (elem data (first + root))
                     (elem data (first + (2 * root + 1)))) eqn:E2;
        [discriminate|].
      simpl. intros [= <-]. split; [reflexivity|].
      intros c' [->| ->] _; [assumption|].
      eapply Less_negtrans; [exact E2|exact E].
  - destruct (Less (elem data (first + root))
                   (elem data (first + (2 * root + 1)))) eqn:E2;
      [discriminate|].
    simpl. intros [= <-]. split; [reflexivity|].
    intros c' [->| ->] Hc'; [assumption|lia].
Qed.

(** [siftDown] makes [lo] a node of the heap when the nodes behind it are. *)
Lemma siftDown_heap (data0 : PackageList) (lo hi first : nat) :
  first + hi <= List.length data0 ->
  heapFrom data0 first (lo + 1) hi ->
  Swaps (first + lo) (first + hi) data0 (siftDown data0 lo hi first) /\
  heapFrom (siftDown data0 lo hi first) first lo hi.
Proof.
  intros Hlen Hheap. unfold siftDown.
  apply (loop_rule (siftDown_step hi first)
    (fun s => let '(data, root) := s in
       lo <= root /\ Swaps (first + lo) (first + hi) data0 data /\
       (forall r c, lo <= r -> c < hi -> c = 2 * r + 1 \/ c = 2 * r + 2 ->
          r <> root ->
          Less (elem data (first + r)) (elem data (first + c)) = false) /\
       (forall r c, lo <= r -> c < hi ->
          root = 2 * r + 1 \/ root = 2 * r + 2 ->
          c = 2 * root + 1 \/ c = 2 * root + 2 ->
          Less (elem data (first + r)) (elem data (first + c)) = false))
    (fun s => Swaps (first + lo) (first + hi) data0 (fst s) /\
              heapFrom (fst s) first lo hi)
    (fun s => hi - snd s)).
  - intros [data root] s' (Hroot & Hsw & HA & HB) Hstep.
    destruct (siftDown_step_next _ _ _ _ _ Hstep)
      as (c & -> & Hc & Hchi & Hless & Hmax).
    assert (Hl : List.length data = List.length data0)
      by (eapply Swaps_length; eassumption).
    cbn [snd]. split; [|lia]. split; [lia|]. split.
    { eapply Swaps_trans; [eassumption|]. apply Swaps_one; lia. }
    split.
    + intros r c' Hr Hc' Hchild Hne.
      rewrite !elem_data_Swap by lia.
      destruct (Nat.eqb_spec (first + c') (first + c)) as [Ecc|Ecc].
      { (* the child is the node that went up: its parent is the old root *)
        assert (c' = c) as -> by lia. assert (r = root) as -> by lia.
        destruct (Nat.eqb_spec (first + root) (first + c)); [lia|].
        destruct (Nat.eqb_spec (first + root) (first + root)); [|lia].
        now apply Less_asym. }
      destruct (Nat.eqb_spec (first + r) (first + c)); [lia|].
      destruct (Nat.eqb_spec (first + r) (first + root)) as [Err|Err].
      * assert (r = root) as -> by lia.
        destruct (Nat.eqb_spec (first + c') (first + root)); [lia|].
        apply Hmax; [assumption|lia].
      * destruct (Nat.eqb_spec (first + c') (first + root)) as [Ecr|Ecr].
        -- assert (c' = root) as -> by lia. apply HB; auto.
        -- apply HA; auto; lia.
    + intros r c' Hr Hc' Hparent Hchild.
      assert (r = root) as -> by lia.
      rewrite !elem_data_Swap by lia.
      destruct (Nat.eqb_spec (first + root) (first + c)); [lia|].
      destruct (Nat.eqb_spec (first + root) (first + root)); [|lia].
      destruct (Nat.eqb_spec (first + c') (first + c)); [lia|].
      destruct (Nat.eqb_spec (first + c') (first + root)); [lia|].
      apply HA; auto; lia.
  - intros [data root] s' (Hroot & Hsw & HA & HB) Hstep.
    destruct (siftDown_step_done _ _ _ _ _ Hstep) as (-> & Hmax).
    cbn [fst]. split; [assumption|].
    intros r c Hr Hc Hchild.
    destruct (Nat.eq_dec r root) as [->|Hne]; [now apply Hmax|now apply HA].
  - split; [lia|]. split; [apply Swaps_refl|]. split.
    + intros r c Hr Hc Hchild Hne. apply Hheap; auto. lia.
    + intros r c Hr Hc Hparent Hchild. lia.
  - cbn [snd]. lia.
Qed.

(** The root of a heap is not less than any node. *)
Lemma heap_root_max (data : PackageList) (first hi : nat) :
  heapFrom data first 0 hi ->
  forall x, x < hi ->
    Less (elem data (first + 0)) (elem data (first + x)) = false.
Proof.
  intros Hheap x. induction x as [x IH] using lt_wf_ind. intros Hx.
  destruct x as [|x]; [apply Less_irrefl|].
  assert (Hpar : S x = 2 * (x / 2) + 1 \/
                 S x = 2 * (x / 2) + 2).
  { pose proof (Nat.div_mod_eq x 2) as Hd.
    pose proof (Nat.mod_upper_bound x 2) as Hm. lia. }
  assert (Hlt : x / 2 < S x).
  { pose proof (Nat.div_mod_eq x 2) as Hd. lia. }
  eapply Less_negtrans; [apply (IH (x / 2)); lia|].
  apply Hheap; auto. lia.
Qed.

Lemma heapSort_sorts (data0 : PackageList) (a b : nat) :
  a <= b <= List.length data0 ->
  Swaps a b data0 (heapSort data0 a b) /\
  sortedRange (heapSort data0 a b) a b.
Proof.
  intros Hab. unfold heapSort.
  set (hi := b - a).
  assert (Hb : b = a + hi) by (unfold hi; lia).
  (* building the heap *)
  assert (Hbuild :
    Swaps a b data0
      (downFrom ((hi - 1) / 2 + 1) (fun i data => siftDown data i hi a) data0) /\
    heapFrom
      (downFrom ((hi - 1) / 2 + 1) (fun i data => siftDown data i hi a) data0)
      a 0 hi).
  { apply (downFrom_rule (fun i data => siftDown data i hi a)
      (fun n data => Swaps a b data0 data /\ heapFrom data a n hi)).
    - intros i data _ [Hsw Hheap].
      assert (Hl : List.length data = List.length data0)
        by (eapply Swaps_length; eassumption).
      destruct (siftDown_heap data i hi a) as [Hsw' Hheap']; [lia| |].
      { replace (i + 1) with (S i) by lia. assumption. }
      split; [|assumption].
      eapply Swaps_trans; [eassumption|].
      eapply Swaps_mono; [| | |eassumption]; lia.
    - split; [apply Swaps_refl|].
      intros r c Hr Hc Hchild.
      pose proof (Nat.div_mod_eq (hi - 1) 2) as Hd.
      pose proof (Nat.mod_upper_bound (hi - 1) 2) as Hm. lia. }
  destruct Hbuild as [Hsw1 Hheap1].
  set (data1 := downFrom ((hi - 1) / 2 + 1)
                  (fun i data => siftDown data i hi a) data0) in *.
  (* popping the elements *)
  assert (Hpop :
    let data := downFrom hi
      (fun i data => siftDown (data_Swap data a (a + i)) 0 i a) data1 in
    Swaps a b data0 data /\ heapFrom data a 0 0 /\
    sortedRange data (a + 0) b /\
    (forall x y, x < 0 -> 0 <= y < hi ->
       Less (elem data (a + y)) (elem data (a + x)) = false)).
  { apply (downFrom_rule
      (fun i data => siftDown (data_Swap data a (a + i)) 0 i a)
      (fun n data =>
         Swaps a b data0 data /\ heapFrom data a 0 n /\
         sortedRange data (a + n) b /\
         (forall x y, x < n -> n <= y < hi ->
            Less (elem data (a + y)) (elem data (a + x)) = false))).
    - intros i data Hi (Hsw & Hheap & Hsorted & Hparts).
      assert (Hl : List.length data = List.length data0)
        by (eapply Swaps_length; eassumption).
      set (data' := data_Swap data a (a + i)).
      assert (Hl' : List.length data' = List.length data)
        by apply length_data_Swap.
      assert (Hsw' : Swaps a b data data') by (apply Swaps_one; lia).
      assert (Helem : forall k, elem data' k
                = if k =? a + i then elem data a
                  else if k =? a then elem data (a + i) else elem data k).
      { intros k. unfold data'. apply elem_data_Swap; lia. }
      destruct (siftDown_heap data' 0 i a) as [Hsw2 Hheap2]; [lia| |].
      { intros r c Hr Hc Hchild. rewrite !Helem.
        destruct (Nat.eqb_spec (a + r) (a + i)); [lia|].
        destruct (Nat.eqb_spec (a + r) a); [lia|].
        destruct (Nat.eqb_spec (a + c) (a + i)); [lia|].
        destruct (Nat.eqb_spec (a + c) a); [lia|].
        apply Hheap; auto; lia. }
      set (data2 := siftDown data' 0 i a) in *.
      assert (Hsw2' : Swaps a (a + i) data' data2).
      { replace (a + 0) with a in Hsw2 by lia. assumption. }
      assert (Hmax : forall x, x < S i ->
                Less (elem data a) (elem data (a + x)) = false).
      { intros x Hx. replace a with (a + 0) at 1 by lia.
        now apply heap_root_max with (hi := S i). }
      (* the elements before [i] are elements of the old heap *)
      assert (Hfront : forall P : Package -> Prop,
                (forall x, x < S i -> P (elem data (a + x))) ->
                forall x, x < i -> P (elem data2 (a + x))).
      { intros P HP x Hx.
        apply (Swaps_all P a (a + i) a (a + i) data' data2 Hsw2');
          try lia.
        intros k Hk. rewrite Helem.
        destruct (Nat.eqb_spec k (a + i)); [lia|].
        destruct (Nat.eqb_spec k a).
        - apply (HP i). lia.
        - replace k with (a + (k - a)) by lia. apply HP. lia. }
      assert (Hback : forall y, i <= y -> elem data2 (a + y) = elem data' (a + y)).
      { intros y Hy. apply (Swaps_outside a (a + i) data' data2); [assumption|].
        lia. }
      split.
      { eapply Swaps_trans; [exact Hsw|].
        eapply Swaps_trans; [exact Hsw'|].
        eapply Swaps_mono; [| | |exact Hsw2']; lia. }
      split; [assumption|]. split.
      + intros x y Hx Hxy Hy.
        replace x with (a + (x - a)) by lia. replace y with (a + (y - a)) by lia.
        rewrite !Hback by lia. rewrite !Helem.
        destruct (Nat.eqb_spec (a + (y - a)) (a + i)); [lia|].
        destruct (Nat.eqb_spec (a + (y - a)) a); [lia|].
        destruct (Nat.eqb_spec (a + (x - a)) (a + i)) as [Exi|Exi].
        * replace (elem data a) with (elem data (a + 0)) by (f_equal; lia).
          apply Hparts; lia.
        * destruct (Nat.eqb_spec (a + (x - a)) a); [lia|].
          replace (a + (x - a)) with x by lia.
          replace (a + (y - a)) with y by lia.
          apply Hsorted; lia.
      + intros x y Hx Hy. rewrite Hback by lia. rewrite Helem.
        destruct (Nat.eqb_spec (a + y) (a + i)) as [Eyi|Eyi].
        * apply (Hfront (fun e => Less (elem data a) e = false)); [|lia].
          intros z Hz. apply Hmax. lia.
        * destruct (Nat.eqb_spec (a + y) a); [lia|].
          apply (Hfront (fun e => Less (elem data (a + y)) e = false)); [|lia].
          intros z Hz. apply Hparts; lia.
    - split; [assumption|]. split; [assumption|]. split.
      + apply sortedRange_short. lia.
      + intros x y Hx Hy. lia. }
  cbv zeta in Hpop. destruct Hpop as (Hsw & _ & Hsorted & _).
  replace (a + 0) with a in Hsorted by lia.
  split; assumption.
Qed.

End HeapFacts.

Module PivotFacts.

Import sort SortFacts.
Local Open Scope nat_scope.

#[local] Arguments Nat.mul : simpl never.
#[local] Arguments Nat.add : simpl never.
#[local] Arguments Nat.sub : simpl never.
#[local] Arguments Nat.div : simpl never.

(** *** [reverseRange] *)

Lemma reverseRange_Swaps (data0 : PackageList) (a b : nat) :
  a < b <= List.length data0 -> Swaps a b data0 (reverseRange data0 a b).
Proof.
  intros Hb. unfold reverseRange.
  apply (loop_rule reverseRange_step
    (fun s => let '(data, i, j) := s in
       a <= i /\ j < b /\ Swaps a b data0 data)
    (fun s => Swaps a b data0 (fst (fst s)))
    (fun s => snd s - snd (fst s))).
  - intros [[data i] j] s' (Hi & Hj & Hsw). unfold reverseRange_step.
    destruct (Nat.ltb_spec i j) as [Hij|Hij]; [|discriminate].
    intros [= <-]. cbn [fst snd].
    assert (Hl : List.length data = List.length data0)
      by (eapply Swaps_length; eassumption).
    split; [|lia]. split; [lia|]. split; [lia|].
    eapply Swaps_trans; [eassumption|]. apply Swaps_one; lia.
  - intros [[data i] j] s' (Hi & Hj & Hsw). unfold reverseRange_step.
    destruct (i <? j); [discriminate|]. intros [= <-]. assumption.
  - split; [lia|]. split; [lia|]. apply Swaps_refl.
  - cbn [fst snd]. lia.
Qed.

(** *** [breakPatterns] *)

Lemma nextPowerOfTwo_bounds (length : nat) :
  0 < length ->
  (Z.of_nat length < nextPowerOfTwo length <= 2 * Z.of_nat length)%Z.
Proof.
  intros Hpos. unfold nextPowerOfTwo, bits_Len.
  destruct (Nat.eqb_spec length 0) as [|_]; [lia|].
  rewrite Z.shiftl_1_l.
  destruct (Nat.log2_spec length Hpos) as [Hlo Hhi].
  replace (2 ^ Z.of_nat (Nat.log2 length + 1))%Z
    with (Z.of_nat (2 ^ (Nat.log2 length + 1)))
    by (rewrite Nat2Z.inj_pow; reflexivity).
  replace (Nat.log2 length + 1) with (S (Nat.log2 length)) by lia.
  rewrite Nat.pow_succ_r'. rewrite Nat.pow_succ_r' in Hhi. lia.
Qed.

Lemma breakPatterns_other (length : nat) (random : Z) :
  0 < length ->
  let other :=
    Z.to_nat (Z.land random (nextPowerOfTwo length - 1)) in
  (if length <=? other then other - length else other) < length.
Proof.
  intros Hpos.
  pose proof (nextPowerOfTwo_bounds length Hpos) as Hm.
  assert (Hland : (0 <= Z.land random (nextPowerOfTwo length - 1)
                   < nextPowerOfTwo length)%Z).
  { unfold nextPowerOfTwo in *. rewrite Z.shiftl_1_l in *.
    replace (2 ^ Z.of_nat (bits_Len length) - 1)%Z
      with (Z.ones (Z.of_nat (bits_Len length)))
      by (rewrite Z.ones_equiv; lia).
    rewrite Z.land_ones by lia. apply Z.mod_pos_bound. lia. }
  cbv zeta.
  destruct (Nat.leb_spec length
              (Z.to_nat (Z.land random (nextPowerOfTwo length - 1)))); lia.
Qed.

Lemma breakPatterns_step_Swaps (random_Next : Z -> Z) (data0 : PackageList)
  (a b : nat) (s : PackageList * Z) (i : nat) :
  8 <= b - a -> b <= List.length data0 -> i <= 2 ->
  Swaps a b data0 (fst s) ->
  Swaps a b data0
    (fst (breakPatterns_step random_Next a (b - a) (nextPowerOfTwo (b - a))
            (a + (b - a) / 4 * 2 - 1) s i)).
Proof.
  intros Hlen Hb Hi Hsw. destruct s as [data random].
  unfold breakPatterns_step. cbn [fst] in *.
  pose proof (breakPatterns_other (b - a) (random_Next random)) as Hother.
  cbv zeta in Hother.
  pose proof (Nat.div_mod_eq (b - a) 4) as Hd.
  pose proof (Nat.mod_upper_bound (b - a) 4) as Hm.
  assert (Hl : List.length data = List.length data0)
    by (eapply Swaps_length; eassumption).
  eapply Swaps_trans; [eassumption|]. apply Swaps_one; lia.
Qed.

Lemma breakPatterns_Swaps (random_Next : Z -> Z) (data0 : PackageList)
  (a b : nat) :
  b <= List.length data0 ->
  Swaps a b data0 (breakPatterns random_Next data0 a b).
Proof.
  intros Hb. unfold breakPatterns.
  destruct (Nat.leb_spec 8 (b - a)) as [Hlen|Hlen]; [|apply Swaps_refl].
  cbn [fold_left].
  repeat (apply breakPatterns_step_Swaps; [assumption|assumption|lia|]).
  apply Swaps_refl.
Qed.

(** *** [choosePivot] *)

Lemma order2_cases (data : PackageList) (x y swaps : nat) :
  order2 data x y swaps = (x, y, swaps) \/
  order2 data x y swaps = (y, x, swaps + 1).
Proof. unfold order2. destruct (data_Less data y x); auto. Qed.

Lemma median_in (data : PackageList) (x y z swaps : nat) :
  let r := fst (median data x y z swaps) in r = x \/ r = y \/ r = z.
Proof.
  unfold median.
  destruct (order2_cases data x y swaps) as [E|E]; rewrite E;
    match goal with
    | |- context [order2 data ?u z ?s] =>
        destruct (order2_cases data u z s) as [E2|E2]; rewrite E2
    end;
    match goal with
    | |- context [order2 data ?u ?v ?s] =>
        destruct (order2_cases data u v s) as [E3|E3]; rewrite E3
    end; cbn [fst]; auto.
Qed.

Lemma choosePivot_pivot (data : PackageList) (a b : nat) :
  b - a < 8 \/
  exists x y z sx sy sz s,
    fst (choosePivot data a b) = fst (median data x y z s) /\
    ((x = a + (b - a) / 4 * 1 /\ y = a + (b - a) / 4 * 2 /\
      z = a + (b - a) / 4 * 3) \/
     (50 <= b - a /\
      x = fst (medianAdjacent data (a + (b - a) / 4 * 1) sx) /\
      y = fst (medianAdjacent data (a + (b - a) / 4 * 2) sy) /\
      z = fst (medianAdjacent data (a + (b - a) / 4 * 3) sz))).
Proof.
  unfold choosePivot.
  destruct (Nat.leb_spec 8 (b - a)) as [H8|H8]; [right|left; assumption].
  destruct (Nat.leb_spec 50 (b - a)) as [H50|H50].
  - destruct (medianAdjacent data (a + (b - a) / 4 * 1) 0) as [i s1] eqn:E1.
    destruct (medianAdjacent data (a + (b - a) / 4 * 2) s1) as [j s2] eqn:E2.
    destruct (medianAdjacent data (a + (b - a) / 4 * 3) s2) as [k s3] eqn:E3.
    exists i, j, k, 0, s1, s2, s3. rewrite E1, E2, E3. cbn [fst].
    split; [|right; auto].
    destruct (median data i j k s3) as [m s4]. cbn [fst].
    destruct (s4 =? 0); [reflexivity|]. destruct (s4 =? 4 * 3); reflexivity.
  - exists (a + (b - a) / 4 * 1), (a + (b - a) / 4 * 2), (a + (b - a) / 4 * 3),
      0, 0, 0, 0.
    split; [|left; auto].
    destruct (median data _ _ _ 0) as [m s4]. cbn [fst].
    destruct (s4 =? 0); [reflexivity|]. destruct (s4 =? 4 * 3); reflexivity.
Qed.

(** The pivot lies in the range. *)
Lemma choosePivot_range (data : PackageList) (a b : nat) :
  8 <= b - a -> a <= fst (choosePivot data a b) < b.
Proof.
  intros H8.
  pose proof (Nat.div_mod_eq (b - a) 4) as Hd.
  pose proof (Nat.mod_upper_bound (b - a) 4) as Hm.
  destruct (choosePivot_pivot data a b)
    as [Hshort|(x & y & z & sx & sy & sz & s & -> & Hxyz)]; [lia|].
  pose proof (median_in data x y z s) as Hin. cbv zeta in Hin.
  destruct Hxyz as [(-> & -> & ->)|(H50 & -> & -> & ->)].
  - lia.
  - unfold medianAdjacent in *.
    pose proof (median_in data (a + (b - a) / 4 * 1 - 1) (a + (b - a) / 4 * 1)
                  (a + (b - a) / 4 * 1 + 1) sx) as H1.
    pose proof (median_in data (a + (b - a) / 4 * 2 - 1) (a + (b - a) / 4 * 2)
                  (a + (b - a) / 4 * 2 + 1) sy) as H2.
    pose proof (median_in data (a + (b - a) / 4 * 3 - 1) (a + (b - a) / 4 * 3)
                  (a + (b - a) / 4 * 3 + 1) sz) as H3.
    cbv zeta in H1, H2, H3. lia.
Qed.

(** On a range in order no comparison of [choosePivot] finds two elements
    out of order. *)
Lemma order2_sorted (data : PackageList) (a b x y swaps : nat) :
  sortedRange data a b -> a <= x -> x < y -> y < b ->
  order2 data x y swaps = (x, y, swaps).
Proof.
  intros Hs Hx Hxy Hy. unfold order2, data_Less. now rewrite Hs.
Qed.

Lemma median_sorted (data : PackageList) (a b x y z swaps : nat) :
  sortedRange data a b -> a <= x -> x < y -> y < z -> z < b ->
  median data x y z swaps = (y, swaps).
Proof.
  intros Hs Hx Hxy Hyz Hz. unfold median.
  rewrite (order2_sorted data a b x y) by (assumption || lia).
  rewrite (order2_sorted data a b y z) by (assumption || lia).
  rewrite (order2_sorted data a b x y) by (assumption || lia).
  reflexivity.
Qed.

Lemma choosePivot_sorted (data : PackageList) (a b : nat) :
  sortedRange data a b -> 8 <= b - a ->
  snd (choosePivot data a b) = increasingHint.
Proof.
  intros Hs H8.
  pose proof (Nat.div_mod_eq (b - a) 4) as Hd.
  pose proof (Nat.mod_upper_bound (b - a) 4) as Hm.
  unfold choosePivot, medianAdjacent.
  destruct (Nat.leb_spec 8 (b - a)) as [_|]; [|lia].
  destruct (Nat.leb_spec 50 (b - a)) as [H50|H50].
  - rewrite !(median_sorted data a b) by (assumption || lia). reflexivity.
  - rewrite !(median_sorted data a b) by (assumption || lia). reflexivity.
Qed.

End PivotFacts.

Module PartialInsertionFacts.

Import sort SortFacts InsertionFacts.
Local Open Scope nat_scope.

#[local] Arguments Nat.mul : simpl never.
#[local] Arguments Nat.add : simpl never.
#[local] Arguments Nat.sub : simpl never.
#[local] Arguments Nat.div : simpl never.

(** *** [partialInsertionSort] *)

(** The scan runs over a range in order and stops at its end or in front of
    the first element that is less than the one before it. *)
Lemma partialInsertionSort_scan_stops (data : PackageList) (a b i fuel : nat) :
  sortedRange data a i -> a < i <= b -> b - i < fuel ->
  let i' := loop fuel (partialInsertionSort_scan data b) i in
  i <= i' <= b /\ sortedRange data a i' /\
  (i' < b -> Less (elem data i') (elem data (i' - 1)) = true).
Proof.
  intros Hs Hi Hfuel.
  apply (loop_rule (partialInsertionSort_scan data b)
    (fun k => i <= k <= b /\ sortedRange data a k)
    (fun k => i <= k <= b /\ sortedRange data a k /\
              (k < b -> Less (elem data k) (elem data (k - 1)) = true))
    (fun k => b - k)).
  - intros k k' [Hk Hsk]. unfold partialInsertionSort_scan, data_Less.
    destruct (Nat.ltb_spec k b) as [Hkb|Hkb]; [|discriminate].
    destruct (Less (elem data k) (elem data (k - 1))) eqn:E; [discriminate|].
    intros [= <-]. split; [|lia]. split; [lia|].
    apply sortedRange_snoc; auto.
  - intros k k' [Hk Hsk]. unfold partialInsertionSort_scan, data_Less.
    destruct (Nat.ltb_spec k b) as [Hkb|Hkb].
    + destruct (Less (elem data k) (elem data (k - 1))) eqn:E; [|discriminate].
      intros [= <-]. auto.
    + intros [= <-]. split; [lia|]. split; [assumption|lia].
  - split; [lia|assumption].
  - assumption.
Qed.

(** The loop that shifts the smaller element to the left runs down to
    index 1, not to [a]; in front of a range that nothing before it
    exceeds it does what the inner loop of [insertionSort] does. *)
Lemma partialInsertionSort_left_inner (a fuel : nat) :
  forall (data : PackageList) (j : nat),
    a <= j -> j < List.length data ->
    (0 < a -> Less (elem data j) (elem data (a - 1)) = false) ->
    fst (loop fuel partialInsertionSort_left (data, j))
    = fst (loop fuel (insertionSort_inner a) (data, j)).
Proof.
  induction fuel as [|fuel IH]; intros data j Haj Hj Hbound; [reflexivity|].
  cbn [loop]. unfold partialInsertionSort_left, insertionSort_inner, data_Less.
  destruct (Nat.ltb_spec a j) as [Hlt|Hge].
  - destruct (Nat.leb_spec 1 j) as [_|]; [|lia].
    destruct (Less (elem data j) (elem data (j - 1))) eqn:E; cbn [negb andb];
      [|reflexivity].
    apply IH; [lia|rewrite length_data_Swap; lia|].
    intros Ha. rewrite !elem_data_Swap by lia.
    destruct (Nat.eqb_spec (j - 1) (j - 1)); [|lia].
    destruct (Nat.eqb_spec (a - 1) (j - 1)); [lia|].
    destruct (Nat.eqb_spec (a - 1) j); [lia|]. auto.
  - assert (j = a) as -> by lia. cbn [andb].
    destruct (Nat.leb_spec 1 a) as [Hpos|]; [|reflexivity].
    rewrite Hbound by lia. reflexivity.
Qed.

Lemma partialInsertionSort_right_Swaps (data0 : PackageList) (b i fuel : nat) :
  b <= List.length data0 -> b - i <= fuel ->
  Swaps i b data0
    (fst (loop fuel (partialInsertionSort_right b) (data0, i + 1))).
Proof.
  intros Hb Hfuel.
  destruct (Nat.le_gt_cases b (i + 1)) as [Hshort|Hlong].
  { destruct fuel as [|fuel]; [apply Swaps_refl|]. cbn [loop].
    unfold partialInsertionSort_right.
    destruct (Nat.ltb_spec (i + 1) b); [lia|]. apply Swaps_refl. }
  apply (loop_rule (partialInsertionSort_right b)
    (fun s => let '(data, j) := s in i < j /\ Swaps i b data0 data)
    (fun s => Swaps i b data0 (fst s))
    (fun s => b - snd s)).
  - intros [data j] s' [Hj Hsw]. unfold partialInsertionSort_right.
    destruct (Nat.ltb_spec j b) as [Hjb|Hjb]; [|discriminate].
    destruct (data_Less data j (j - 1)); [|discriminate].
    cbn [negb]. intros [= <-]. cbn [snd].
    assert (Hl : List.length data = List.length data0)
      by (eapply Swaps_length; eassumption).
    split; [|lia]. split; [lia|].
    eapply Swaps_trans; [eassumption|]. apply Swaps_one; lia.
  - intros [data j] s' [Hj Hsw]. unfold partialInsertionSort_right.
    destruct (j <? b); [|intros [= <-]; assumption].
    destruct (data_Less data j (j - 1)); [discriminate|].
    intros [= <-]. assumption.
  - split; [lia|apply Swaps_refl].
  - cbn [snd]. lia.
Qed.

Lemma partialInsertionSort_shift_sorts (data : PackageList) (a b i : nat) :
  a < i < b -> b <= List.length data ->
  sortedRange data a i -> bounded data a b ->
  Swaps a b data (partialInsertionSort_shift data a b i) /\
  sortedRange (partialInsertionSort_shift data a b i) a i.
Proof.
  intros Hi Hb Hs Hbd. unfold partialInsertionSort_shift.
  set (data1 := data_Swap data i (i - 1)).
  assert (Hsw1 : Swaps a b data data1) by (apply Swaps_one; lia).
  assert (Hl1 : List.length data1 = List.length data)
    by apply length_data_Swap.
  assert (Hbd1 : bounded data1 a b)
    by (eapply Swaps_bounded; [exact Hsw1| | |exact Hbd]; lia).
  assert (Helem : forall k, elem data1 k
            = if k =? i - 1 then elem data i
              else if k =? i then elem data (i - 1) else elem data k).
  { intros k. unfold data1. apply elem_data_Swap; lia. }
  (* the smaller element goes to the left *)
  set (data2 :=
         if 2 <=? i - a
         then fst (loop (S i) partialInsertionSort_left
                     (data1, i - 1))
         else data1).
  assert (Hleft : Swaps a i data1 data2 /\ sortedRange data2 a i).
  { unfold data2. destruct (Nat.leb_spec 2 (i - a)) as [H2|H2].
    - rewrite (partialInsertionSort_left_inner a);
        [|lia|lia|intros Ha; apply Hbd1; lia].
      destruct (insertionSort_inner_sorts a (i - 1) data1 (i - 1)
                  (S i)) as [A B]; try lia.
      { intros x y Hx Hxy Hy Hxn Hyn. rewrite !Helem.
        destruct (Nat.eqb_spec y (i - 1)); [lia|].
        destruct (Nat.eqb_spec x (i - 1)); [lia|].
        destruct (Nat.eqb_spec y i); [lia|].
        destruct (Nat.eqb_spec x i); [lia|].
        apply Hs; lia. }
      replace (i - 1 + 1) with i in A, B by lia. split; assumption.
    - split; [apply Swaps_refl|apply sortedRange_short; lia]. }
  destruct Hleft as [Hsw2 Hs2].
  assert (Hl2 : List.length data2 = List.length data1)
    by (eapply Swaps_length; eassumption).
  (* the greater one to the right *)
  set (data3 :=
         if 2 <=? b - i
         then fst (loop (S b) (partialInsertionSort_right b)
                     (data2, i + 1))
         else data2).
  assert (Hsw3 : Swaps i b data2 data3).
  { unfold data3. destruct (2 <=? b - i); [|apply Swaps_refl].
    apply partialInsertionSort_right_Swaps; lia. }
  split.
  - eapply Swaps_trans; [exact Hsw1|].
    eapply Swaps_trans.
    + eapply Swaps_mono; [| | |exact Hsw2]; lia.
    + eapply Swaps_mono; [| | |exact Hsw3]; lia.
  - eapply sortedRange_outside; [exact Hsw3| |exact Hs2]. lia.
Qed.

Lemma partialInsertionSort_steps_sorts (data0 : PackageList) (a b steps : nat) :
  forall (data : PackageList) (i : nat),
    a < i <= b -> b <= List.length data0 ->
    Swaps a b data0 data -> sortedRange data a i -> bounded data a b ->
    Swaps a b data0 (fst (partialInsertionSort_steps steps data a b i)) /\
    (snd (partialInsertionSort_steps steps data a b i) = true ->
     sortedRange (fst (partialInsertionSort_steps steps data a b i)) a b).
Proof.
  induction steps as [|steps IH]; intros data i Hi Hb Hsw Hs Hbd.
  { cbn. split; [assumption|discriminate]. }
  cbn [partialInsertionSort_steps].
  destruct (partialInsertionSort_scan_stops data a b i (S b) Hs Hi)
    as (Hi' & Hs' & Hstop); [lia|].
  set (i' := loop (S b) (partialInsertionSort_scan data b) i) in *.
  destruct (Nat.eqb_spec i' b) as [Heq|Hne].
  { cbn [fst snd]. split; [assumption|]. intros _. now rewrite <- Heq. }
  destruct (Nat.ltb_spec (b - a) 50) as [Hshort|Hlong].
  { cbn [fst snd]. split; [assumption|discriminate]. }
  assert (Hl : List.length data = List.length data0)
    by (eapply Swaps_length; eassumption).
  destruct (partialInsertionSort_shift_sorts data a b i') as [Hsw' Hs''];
    try assumption; try lia.
  apply IH; try assumption; try lia.
  - eapply Swaps_trans; eassumption.
  - eapply Swaps_bounded; [exact Hsw'| | |exact Hbd]; lia.
Qed.

(** [partialInsertionSort] rearranges the range, and when it reports the
    range sorted the range is in order. *)
Lemma partialInsertionSort_sorts (data0 : PackageList) (a b : nat) :
  a < b <= List.length data0 -> bounded data0 a b ->
  Swaps a b data0 (fst (partialInsertionSort data0 a b)) /\
  (snd (partialInsertionSort data0 a b) = true ->
   sortedRange (fst (partialInsertionSort data0 a b)) a b).
Proof.
  intros Hab Hbd. unfold partialInsertionSort.
  apply partialInsertionSort_steps_sorts; try assumption; try lia.
  - apply Swaps_refl.
  - apply sortedRange_short. lia.
Qed.

(** A range in order is reported sorted and left as it is. *)
Lemma partialInsertionSort_sorted (data : PackageList) (a b : nat) :
  sortedRange data a b -> a < b ->
  partialInsertionSort data a b = (data, true).
Proof.
  intros Hs Hab. unfold partialInsertionSort.
  cbn [partialInsertionSort_steps].
  destruct (partialInsertionSort_scan_stops data a b (a + 1) (S b))
    as (Hi' & Hs' & Hstop); [apply sortedRange_short; lia|lia|lia|].
  set (i' := loop (S b) (partialInsertionSort_scan data b) (a + 1))
    in *.
  destruct (Nat.eqb_spec i' b) as [Heq|Hne]; [reflexivity|].
  rewrite Hs in Hstop by lia. discriminate Hstop. lia.
Qed.

End PartialInsertionFacts.

Module PartitionFacts.

Import sort SortFacts.
Local Open Scope nat_scope.

#[local] Arguments Nat.mul : simpl never.
#[local] Arguments Nat.add : simpl never.
#[local] Arguments Nat.sub : simpl never.
#[local] Arguments Nat.div : simpl never.

(** *** The scans of [partition] and [partitionEqual] *)

Lemma scan_up (test : nat -> bool) (j fuel i : nat) :
  i <= j + 1 -> j + 1 - i < fuel ->
  let i' :=
    loop fuel
      (fun i => if (i <=? j) && test i then next (i + 1) else done i) i in
  i <= i' <= j + 1 /\
  (forall k, i <= k < i' -> test k = true) /\
  (i' <= j -> test i' = false).
Proof.
  intros Hi Hfuel.
  apply (loop_rule
    (fun i => if (i <=? j) && test i then next (i + 1) else done i)
    (fun x => i <= x <= j + 1 /\ (forall k, i <= k < x -> test k = true))
    (fun x => i <= x <= j + 1 /\ (forall k, i <= k < x -> test k = true) /\
              (x <= j -> test x = false))
    (fun x => j + 1 - x)).
  - intros x x' [Hx Hall].
    destruct (Nat.leb_spec x j) as [Hxj|Hxj]; [|discriminate].
    destruct (test x) eqn:E; [|discriminate].
    intros [= <-]. split; [|lia]. split; [lia|].
    intros k Hk. destruct (Nat.eq_dec k x) as [->|]; [assumption|].
    apply Hall. lia.
  - intros x x' [Hx Hall].
    destruct (Nat.leb_spec x j) as [Hxj|Hxj].
    + destruct (test x) eqn:E; [discriminate|]. intros [= <-]. auto.
    + intros [= <-]. split; [assumption|]. split; [assumption|]. lia.
  - split; [lia|]. intros k Hk. lia.
  - assumption.
Qed.

Lemma scan_down (test : nat -> bool) (i fuel j : nat) :
  0 < i -> i <= j + 1 -> j + 1 - i < fuel ->
  let j' :=
    loop fuel
      (fun j => if (i <=? j) && test j then next (j - 1) else done j) j in
  j' <= j /\ i <= j' + 1 /\
  (forall k, j' < k <= j -> test k = true) /\
  (i <= j' -> test j' = false).
Proof.
  intros Hpos Hi Hfuel.
  apply (loop_rule
    (fun j => if (i <=? j) && test j then next (j - 1) else done j)
    (fun x => x <= j /\ i <= x + 1 /\ (forall k, x < k <= j -> test k = true))
    (fun x => x <= j /\ i <= x + 1 /\
              (forall k, x < k <= j -> test k = true) /\
              (i <= x -> test x = false))
    (fun x => x + 1 - i)).
  - intros x x' (Hx & Hix & Hall).
    destruct (Nat.leb_spec i x) as [Hxj|Hxj]; [|discriminate].
    destruct (test x) eqn:E; [|discriminate].
    intros [= <-]. split; [|lia]. split; [lia|]. split; [lia|].
    intros k Hk. destruct (Nat.eq_dec k x) as [->|]; [assumption|].
    apply Hall. lia.
  - intros x x' (Hx & Hix & Hall).
    destruct (Nat.leb_spec i x) as [Hxj|Hxj].
    + destruct (test x) eqn:E; [discriminate|]. intros [= <-]. auto.
    + intros [= <-]. repeat split; auto. lia.
  - split; [lia|]. split; [lia|]. intros k Hk. lia.
  - assumption.
Qed.

(** *** [partition] *)

Lemma partition_scans (data : PackageList) (a b i j : nat) :
  partitioning data a b i j ->
  let i' := loop (S b) (partition_i data a j) i in
  let j' := loop (S b) (partition_j data a i') j in
  partitioning data a b i' j' /\ i <= i' /\ j' <= j /\
  (i' <= j' ->
   Less (elem data i') (elem data a) = false /\
   Less (elem data j') (elem data a) = true).
Proof.
  intros (Hai & Hij & Hjb & Hlow & Hhigh).
  destruct (scan_up (fun i => data_Less data i a) j (S b) i)
    as (Hi' & Hup & Hstop); [lia|lia|].
  change (fun i => if (i <=? j) && data_Less data i a
                   then next (i + 1) else done i)
    with (partition_i data a j) in *.
  set (i' := loop (S b) (partition_i data a j) i) in *.
  destruct (scan_down (fun j => negb (data_Less data j a)) i'
              (S b) j)
    as (Hj' & Hij' & Hdown & Hstop'); [lia|lia|lia|].
  change (fun j => if (i' <=? j) && negb (data_Less data j a)
                   then next (j - 1) else done j)
    with (partition_j data a i') in *.
  set (j' := loop (S b) (partition_j data a i') j) in *.
  cbv zeta. unfold data_Less in *.
  split; [|split; [lia|split; [lia|]]].
  - split; [lia|]. split; [lia|]. split; [lia|]. split.
    + intros k Hk. destruct (Nat.lt_ge_cases k i); [apply Hlow; lia|].
      apply Hup. lia.
    + intros k Hk. destruct (Nat.lt_ge_cases j k); [apply Hhigh; lia|].
      specialize (Hdown k). rewrite negb_true_iff in Hdown. apply Hdown. lia.
  - intros Hle. split; [apply Hstop; lia|].
    specialize (Hstop' Hle). now rewrite negb_false_iff in Hstop'.
Qed.

Lemma partition_exchange (data : PackageList) (a b i j : nat) :
  partitioning data a b i j -> b <= List.length data -> i <= j ->
  Less (elem data i) (elem data a) = false ->
  Less (elem data j) (elem data a) = true ->
  i < j /\ partitioning (data_Swap data i j) a b (i + 1) (j - 1).
Proof.
  intros (Hai & Hij & Hjb & Hlow & Hhigh) Hb Hle Hi Hj.
  assert (Hlt : i < j).
  { destruct (Nat.eq_dec i j) as [->|]; [congruence|lia]. }
  split; [assumption|].
  assert (Helem : forall k, elem (data_Swap data i j) k
            = if k =? j then elem data i
              else if k =? i then elem data j else elem data k).
  { intros k. apply elem_data_Swap; lia. }
  split; [lia|]. split; [lia|]. split; [lia|].
  rewrite (Helem a).
  destruct (Nat.eqb_spec a j); [lia|]. destruct (Nat.eqb_spec a i); [lia|].
  split; intros k Hk; rewrite Helem.
  - destruct (Nat.eqb_spec k j); [lia|].
    destruct (Nat.eqb_spec k i); [assumption|]. apply Hlow. lia.
  - destruct (Nat.eqb_spec k j); [assumption|].
    destruct (Nat.eqb_spec k i); [lia|]. apply Hhigh. lia.
Qed.

Lemma partition_finish (data : PackageList) (a b i j : nat) :
  partitioning data a b i j -> b <= List.length data -> j < i ->
  a <= j < b /\
  (forall k, a <= k < j ->
     Less (elem (data_Swap data j a) k) (elem (data_Swap data j a) j) = true) /\
  (forall k, j < k < b ->
     Less (elem (data_Swap data j a) k) (elem (data_Swap data j a) j) = false).
Proof.
  intros (Hai & Hij & Hjb & Hlow & Hhigh) Hb Hji.
  assert (Helem : forall k, elem (data_Swap data j a) k
            = if k =? a then elem data j
              else if k =? j then elem data a else elem data k).
  { intros k. apply elem_data_Swap; lia. }
  split; [lia|].
  assert (Hj : elem (data_Swap data j a) j = elem data a).
  { rewrite Helem. destruct (Nat.eqb_spec j a) as [->|]; [reflexivity|].
    destruct (Nat.eqb_spec j j); [reflexivity|lia]. }
  rewrite Hj. split; intros k Hk; rewrite Helem.
  - destruct (Nat.eqb_spec k a) as [->|]; [apply Hlow; lia|].
    destruct (Nat.eqb_spec k j); [lia|]. apply Hlow. lia.
  - destruct (Nat.eqb_spec k a); [lia|].
    destruct (Nat.eqb_spec k j); [lia|]. apply Hhigh. lia.
Qed.

Lemma partition_step_loop (data0 data1 : PackageList) (a b i1 j1 : nat) :
  Swaps a b data0 data1 -> b <= List.length data0 ->
  partitioning data1 a b i1 j1 ->
  let s := loop (S b) (partition_step a b) (data1, i1, j1) in
  Swaps a b data0 (fst (fst s)) /\
  partitioning (fst (fst s)) a b (snd (fst s)) (snd s) /\
  snd s < snd (fst s).
Proof.
  intros Hsw Hb Hpart.
  apply (loop_rule (partition_step a b)
    (fun s => let '(data, i, j) := s in
       Swaps a b data0 data /\ partitioning data a b i j)
    (fun s => Swaps a b data0 (fst (fst s)) /\
              partitioning (fst (fst s)) a b (snd (fst s)) (snd s) /\
              snd s < snd (fst s))
    (fun s => snd s + 1 - snd (fst s))).
  - intros [[data i] j] s' [Hsw' Hp]. unfold partition_step.
    destruct (partition_scans data a b i j Hp) as (Hp' & Hi' & Hj' & Hstop).
    set (i' := loop (S b) (partition_i data a j) i) in *.
    set (j' := loop (S b) (partition_j data a i') j) in *.
    destruct (Nat.ltb_spec j' i') as [Hlt|Hge]; [discriminate|].
    intros [= <-]. cbn [fst snd].
    assert (Hl : List.length data = List.length data0)
      by (eapply Swaps_length; eassumption).
    destruct (Hstop Hge) as [Hsi Hsj].
    destruct (partition_exchange data a b i' j' Hp') as [Hlt Hp'']; try lia;
      try assumption.
    destruct Hp' as (? & ? & ? & _).
    split; [|lia]. split; [|assumption].
    eapply Swaps_trans; [eassumption|]. apply Swaps_one; lia.
  - intros [[data i] j] s' [Hsw' Hp]. unfold partition_step.
    destruct (partition_scans data a b i j Hp) as (Hp' & Hi' & Hj' & Hstop).
    set (i' := loop (S b) (partition_i data a j) i) in *.
    set (j' := loop (S b) (partition_j data a i') j) in *.
    destruct (Nat.ltb_spec j' i') as [Hlt|Hge]; [|discriminate].
    intros [= <-]. cbn [fst snd]. auto.
  - auto.
  - cbn [fst snd]. destruct Hpart as (? & ? & ? & _). lia.
Qed.

(** [partition] leaves the pivot at [mid], only smaller elements before it
    and no smaller element behind it. *)
Lemma partition_parts (data0 : PackageList) (a b pivot : nat) :
  a <= pivot < b -> b <= List.length data0 ->
  let data := fst (fst (partition data0 a b pivot)) in
  let mid := snd (fst (partition data0 a b pivot)) in
  Swaps a b data0 data /\ a <= mid < b /\
  (forall k, a <= k < mid -> Less (elem data k) (elem data mid) = true) /\
  (forall k, mid < k < b -> Less (elem data k) (elem data mid) = false).
Proof.
  intros Hpivot Hb. unfold partition.
  set (data1 := data_Swap data0 a pivot).
  assert (Hsw1 : Swaps a b data0 data1) by (apply Swaps_one; lia).
  assert (Hl1 : List.length data1 = List.length data0)
    by apply length_data_Swap.
  assert (Hp1 : partitioning data1 a b (a + 1) (b - 1)).
  { split; [lia|]. split; [lia|]. split; [lia|]. split; intros k Hk; lia. }
  destruct (partition_scans data1 a b (a + 1) (b - 1) Hp1)
    as (Hp' & Hi' & Hj' & Hstop).
  set (i' := loop (S b) (partition_i data1 a (b - 1)) (a + 1)) in *.
  set (j' := loop (S b) (partition_j data1 a i') (b - 1)) in *.
  destruct (Nat.ltb_spec j' i') as [Hlt|Hge].
  - cbn [fst snd].
    destruct (partition_finish data1 a b i' j' Hp') as (Hm & Hlow & Hhigh);
      try lia.
    split; [|auto].
    eapply Swaps_trans; [eassumption|]. apply Swaps_one; lia.
  - destruct (Hstop Hge) as [Hsi Hsj].
    destruct (partition_exchange data1 a b i' j' Hp') as [Hlt Hp2]; try lia;
      try assumption.
    set (data2 := data_Swap data1 i' j') in *.
    assert (Hsw2 : Swaps a b data0 data2).
    { destruct Hp' as (? & ? & ? & _).
      eapply Swaps_trans; [eassumption|]. apply Swaps_one; lia. }
    destruct (partition_step_loop data0 data2 a b (i' + 1) (j' - 1) Hsw2 Hb Hp2)
      as (Hsw3 & Hp3 & Hlt3).
    destruct (loop (S b) (partition_step a b)
                (data2, i' + 1, j' - 1)) as [[data3 i3] j3].
    cbn [fst snd] in *.
    assert (Hl3 : List.length data3 = List.length data0)
      by (eapply Swaps_length; eassumption).
    destruct (partition_finish data3 a b i3 j3 Hp3) as (Hm & Hlow & Hhigh);
      try lia.
    split; [|auto].
    eapply Swaps_trans; [eassumption|]. apply Swaps_one; lia.
Qed.

(** *** [partitionEqual] *)

Lemma partitionEqual_scans (data : PackageList) (a b i j : nat) :
  partitioningEqual data a b i j ->
  let i' := loop (S b) (partitionEqual_i data a j) i in
  let j' := loop (S b) (partitionEqual_j data a i') j in
  partitioningEqual data a b i' j' /\ i <= i' /\ j' <= j /\
  (i' <= j' ->
   Less (elem data a) (elem data i') = true /\
   Less (elem data a) (elem data j') = false).
Proof.
  intros (Hai & Hij & Hjb & Hlow).
  destruct (scan_up (fun i => negb (data_Less data a i)) j (S b) i)
    as (Hi' & Hup & Hstop); [lia|lia|].
  change (fun i => if (i <=? j) && negb (data_Less data a i)
                   then next (i + 1) else done i)
    with (partitionEqual_i data a j) in *.
  set (i' := loop (S b) (partitionEqual_i data a j) i) in *.
  destruct (scan_down (fun j => data_Less data a j) i' (S b) j)
    as (Hj' & Hij' & Hdown & Hstop'); [lia|lia|lia|].
  change (fun j => if (i' <=? j) && data_Less data a j
                   then next (j - 1) else done j)
    with (partitionEqual_j data a i') in *.
  set (j' := loop (S b) (partitionEqual_j data a i') j) in *.
  cbv zeta. unfold data_Less in *.
  split; [|split; [lia|split; [lia|]]].
  - split; [lia|]. split; [lia|]. split; [lia|].
    intros k Hk. destruct (Nat.lt_ge_cases k i); [apply Hlow; lia|].
    specialize (Hup k). rewrite negb_true_iff in Hup. apply Hup. lia.
  - intros Hle. split; [|apply Hstop'; lia].
    assert (Hle' : i' <= j) by lia.
    specialize (Hstop Hle'). now rewrite negb_false_iff in Hstop.
Qed.

Lemma partitionEqual_exchange (data : PackageList) (a b i j : nat) :
  partitioningEqual data a b i j -> b <= List.length data -> i <= j ->
  Less (elem data a) (elem data i) = true ->
  Less (elem data a) (elem data j) = false ->
  i < j /\ elem (data_Swap data i j) a = elem data a /\
  partitioningEqual (data_Swap data i j) a b (i + 1) (j - 1).
Proof.
  intros (Hai & Hij & Hjb & Hlow) Hb Hle Hi Hj.
  assert (Hlt : i < j).
  { destruct (Nat.eq_dec i j) as [->|]; [congruence|lia]. }
  split; [assumption|].
  assert (Helem : forall k, elem (data_Swap data i j) k
            = if k =? j then elem data i
              else if k =? i then elem data j else elem data k).
  { intros k. apply elem_data_Swap; lia. }
  assert (Ha : elem (data_Swap data i j) a = elem data a).
  { rewrite Helem.
    destruct (Nat.eqb_spec a j); [lia|]. destruct (Nat.eqb_spec a i); [lia|].
    reflexivity. }
  split; [assumption|].
  split; [lia|]. split; [lia|]. split; [lia|].
  rewrite Ha. intros k Hk. rewrite Helem.
  destruct (Nat.eqb_spec k j); [lia|].
  destruct (Nat.eqb_spec k i); [assumption|]. apply Hlow. lia.
Qed.

(** [partitionEqual] puts elements that the pivot is not less than in front
    of the rest. *)
Lemma partitionEqual_parts (data0 : PackageList) (a b pivot : nat) :
  a <= pivot < b -> b <= List.length data0 ->
  let data := fst (partitionEqual data0 a b pivot) in
  let mid := snd (partitionEqual data0 a b pivot) in
  Swaps a b data0 data /\ a < mid <= b /\
  (forall k, a <= k < mid ->
     Less (elem data0 pivot) (elem data k) = false).
Proof.
  intros Hpivot Hb. unfold partitionEqual.
  set (data1 := data_Swap data0 a pivot).
  assert (Hsw1 : Swaps a b data0 data1) by (apply Swaps_one; lia).
  assert (Ha1 : elem data1 a = elem data0 pivot).
  { unfold data1. rewrite elem_data_Swap by lia.
    destruct (Nat.eqb_spec a pivot) as [->|]; [reflexivity|].
    now rewrite Nat.eqb_refl. }
  assert (Hloop :
    let s := loop (S b) (partitionEqual_step a b)
               (data1, a + 1, b - 1) in
    Swaps a b data0 (fst (fst s)) /\
    elem (fst (fst s)) a = elem data0 pivot /\
    partitioningEqual (fst (fst s)) a b (snd (fst s)) (snd s)).
  { apply (loop_rule (partitionEqual_step a b)
      (fun s => let '(data, i, j) := s in
         Swaps a b data0 data /\ elem data a = elem data0 pivot /\
         partitioningEqual data a b i j)
      (fun s => Swaps a b data0 (fst (fst s)) /\
                elem (fst (fst s)) a = elem data0 pivot /\
                partitioningEqual (fst (fst s)) a b (snd (fst s)) (snd s))
      (fun s => snd s + 1 - snd (fst s))).
    - intros [[data i] j] s' (Hsw & Ha & Hp). unfold partitionEqual_step.
      destruct (partitionEqual_scans data a b i j Hp)
        as (Hp' & Hi' & Hj' & Hstop).
      set (i' := loop (S b) (partitionEqual_i data a j) i) in *.
      set (j' := loop (S b) (partitionEqual_j data a i') j) in *.
      destruct (Nat.ltb_spec j' i') as [Hlt|Hge]; [discriminate|].
      intros [= <-]. cbn [fst snd].
      assert (Hl : List.length data = List.length data0)
        by (eapply Swaps_length; eassumption).
      destruct (Hstop Hge) as [Hsi Hsj].
      destruct (partitionEqual_exchange data a b i' j' Hp')
        as (Hlt & Ha' & Hp''); try lia; try assumption.
      destruct Hp' as (? & ? & ? & _).
      split; [|lia]. split; [|split; [congruence|assumption]].
      eapply Swaps_trans; [eassumption|]. apply Swaps_one; lia.
    - intros [[data i] j] s' (Hsw & Ha & Hp). unfold partitionEqual_step.
      destruct (partitionEqual_scans data a b i j Hp)
        as (Hp' & Hi' & Hj' & Hstop).
      set (i' := loop (S b) (partitionEqual_i data a j) i) in *.
      set (j' := loop (S b) (partitionEqual_j data a i') j) in *.
      destruct (Nat.ltb_spec j' i') as [Hlt|Hge]; [|discriminate].
      intros [= <-]. cbn [fst snd]. auto.
    - split; [assumption|]. split; [assumption|].
      split; [lia|]. split; [lia|]. split; [lia|].
      intros k Hk. assert (k = a) as -> by lia. apply Less_irrefl.
    - cbn [fst snd]. lia. }
  cbv zeta in Hloop.
  destruct (loop (S b) (partitionEqual_step a b)
              (data1, a + 1, b - 1)) as [[data3 i3] j3].
  cbn [fst snd] in *.
  destruct Hloop as (Hsw3 & Ha3 & (Hai & Hij & Hjb & Hlow)).
  split; [assumption|]. split; [lia|].
  intros k Hk. rewrite <- Ha3. now apply Hlow.
Qed.

End PartitionFacts.

Module PdqsortFacts.

Import sort SortFacts InsertionFacts HeapFacts PivotFacts.
Import PartialInsertionFacts PartitionFacts.
Local Open Scope nat_scope.

#[local] Arguments Nat.mul : simpl never.
#[local] Arguments Nat.add : simpl never.
#[local] Arguments Nat.sub : simpl never.
#[local] Arguments Nat.div : simpl never.

(** *** Around the pivot *)

Lemma pivoted_Swaps_left (data data' : PackageList) (a mid b : nat) :
  pivoted data a mid b -> Swaps a mid data data' -> pivoted data' a mid b.
Proof.
  intros (Hm & Hlow & Hhigh) Hsw.
  assert (Hmid : elem data' mid = elem data mid)
    by (apply (Swaps_outside a mid); [assumption|lia]).
  split; [assumption|]. rewrite Hmid. split.
  - apply (Swaps_all (fun x => Less x (elem data mid) = true)
             a mid a mid data data' Hsw); auto.
  - intros k Hk. rewrite (Swaps_outside a mid data data') by (assumption || lia).
    now apply Hhigh.
Qed.

Lemma pivoted_Swaps_right (data data' : PackageList) (a mid b : nat) :
  pivoted data a mid b -> Swaps (mid + 1) b data data' -> pivoted data' a mid b.
Proof.
  intros (Hm & Hlow & Hhigh) Hsw.
  assert (Hmid : elem data' mid = elem data mid)
    by (apply (Swaps_outside (mid + 1) b); [assumption|lia]).
  split; [assumption|]. rewrite Hmid. split.
  - intros k Hk.
    rewrite (Swaps_outside (mid + 1) b data data') by (assumption || lia).
    now apply Hlow.
  - intros k Hk. revert k Hk.
    assert (H : forall k, mid + 1 <= k < b ->
              Less (elem data' k) (elem data mid) = false).
    { apply (Swaps_all (fun x => Less x (elem data mid) = false)
               (mid + 1) b (mid + 1) b data data' Hsw); auto.
      intros k Hk. apply Hhigh. lia. }
    intros k Hk. apply H. lia.
Qed.

Lemma pivoted_sorted (data : PackageList) (a mid b : nat) :
  pivoted data a mid b ->
  sortedRange data a mid -> sortedRange data (mid + 1) b ->
  sortedRange data a b.
Proof.
  intros (Hm & Hlow & Hhigh) H1 H2 i j Hi Hij Hj.
  destruct (Nat.lt_trichotomy j mid) as [Hjm|[->|Hjm]].
  - apply H1; lia.
  - apply Less_asym, Hlow. lia.
  - destruct (Nat.lt_trichotomy i mid) as [Him|[->|Him]].
    + destruct (Less (elem data j) (elem data i)) eqn:E; [|reflexivity].
      pose proof (Less_trans _ _ _ E (Hlow i (conj Hi Him))) as C.
      rewrite Hhigh in C by lia. discriminate.
    + apply Hhigh. lia.
    + apply H2; lia.
Qed.

Lemma pivoted_bounded (data : PackageList) (a mid b : nat) :
  pivoted data a mid b -> bounded data (mid + 1) b.
Proof.
  intros (Hm & Hlow & Hhigh) k _ Hk.
  replace (mid + 1 - 1) with mid by lia. apply Hhigh. lia.
Qed.

Lemma bounded_shorter (data : PackageList) (a b b' : nat) :
  bounded data a b -> b' <= b -> bounded data a b'.
Proof. intros H Hb k Ha Hk. apply H; lia. Qed.

Lemma bounded_outside (data data' : PackageList) (a b c d : nat) :
  Swaps c d data data' -> d < a \/ b <= c ->
  bounded data a b -> bounded data' a b.
Proof.
  intros Hsw Hout Hb k Ha Hk.
  rewrite !(Swaps_outside c d data data') by (assumption || lia).
  now apply Hb.
Qed.

(** *** [pdqsort] *)

Lemma pdqsort_loop_sorts (random_Next : Z -> Z) (fuel : nat) :
  forall (data : PackageList) (a b limit : nat)
         (wasBalanced wasPartitioned : bool),
    a <= b <= List.length data -> b - a <= fuel -> bounded data a b ->
    Swaps a b data
      (pdqsort_loop random_Next fuel data a b limit wasBalanced wasPartitioned) /\
    sortedRange
      (pdqsort_loop random_Next fuel data a b limit wasBalanced wasPartitioned) a b.
Proof.
  induction fuel as [|fuel IH];
    intros data a b limit wasBalanced wasPartitioned Hab Hfuel Hbd.
  { cbn. split; [apply Swaps_refl|apply sortedRange_short; lia]. }
  set (Post := fun q : PackageList => Swaps a b data q /\ sortedRange q a b).
  change (Post (pdqsort_loop random_Next (S fuel) data a b limit
                  wasBalanced wasPartitioned)).
  cbn [pdqsort_loop].
  destruct (Nat.leb_spec (b - a) 12) as [Hshort|Hlong].
  { apply insertionSort_sorts. assumption. }
  destruct (Nat.eqb_spec limit 0) as [Hlimit|Hlimit].
  { apply heapSort_sorts. assumption. }
  (* breakPatterns *)
  assert (H1 : exists data1 limit1,
            (if negb wasBalanced then (breakPatterns random_Next data a b, limit - 1)
             else (data, limit)) = (data1, limit1) /\
            Swaps a b data data1).
  { destruct wasBalanced; cbn [negb]; do 2 eexists; (split; [reflexivity|]).
    - apply Swaps_refl.
    - apply breakPatterns_Swaps. lia. }
  destruct H1 as (data1 & limit1 & -> & Hsw1).
  assert (Hl1 : List.length data1 = List.length data)
    by (eapply Swaps_length; eassumption).
  (* choosePivot *)
  pose proof (choosePivot_range data1 a b) as Hpivot.
  destruct (choosePivot data1 a b) as [pivot hint]. cbn [fst] in Hpivot.
  assert (H2 : exists data2 pivot2 hint2,
            match hint with
            | decreasingHint =>
                (reverseRange data1 a b, b - 1 - (pivot - a), increasingHint)
            | _ => (data1, pivot, hint)
            end = (data2, pivot2, hint2) /\
            Swaps a b data1 data2 /\ a <= pivot2 < b).
  { destruct hint; do 3 eexists; (split; [reflexivity|]);
      (split; [|lia]); try apply Swaps_refl.
    apply reverseRange_Swaps. lia. }
  destruct H2 as (data2 & pivot2 & hint2 & -> & Hsw2 & Hpivot2).
  assert (Hsw02 : Swaps a b data data2) by (eapply Swaps_trans; eassumption).
  assert (Hl2 : List.length data2 = List.length data)
    by (eapply Swaps_length; eassumption).
  assert (Hbd2 : bounded data2 a b)
    by (eapply Swaps_bounded; [exact Hsw02| | |exact Hbd]; lia).
  (* partialInsertionSort *)
  assert (H3 : exists data3 sorted,
            match hint2 with
            | increasingHint =>
                if wasBalanced && wasPartitioned
                then partialInsertionSort data2 a b
                else (data2, false)
            | _ => (data2, false)
            end = (data3, sorted) /\
            Swaps a b data2 data3 /\
            (sorted = true -> sortedRange data3 a b)).
  { destruct hint2; try (do 2 eexists; split; [reflexivity|];
                         split; [apply Swaps_refl|discriminate]).
    destruct (wasBalanced && wasPartitioned);
      [|do 2 eexists; split; [reflexivity|];
        split; [apply Swaps_refl|discriminate]].
    destruct (partialInsertionSort_sorts data2 a b) as [A B];
      [lia|assumption|].
    destruct (partialInsertionSort data2 a b) as [data3 sorted].
    exists data3, sorted. auto. }
  destruct H3 as (data3 & sorted & -> & Hsw3 & Hsorted).
  assert (Hsw03 : Swaps a b data data3) by (eapply Swaps_trans; eassumption).
  assert (Hl3 : List.length data3 = List.length data)
    by (eapply Swaps_length; eassumption).
  assert (Hbd3 : bounded data3 a b)
    by (eapply Swaps_bounded; [exact Hsw03| | |exact Hbd]; lia).
  destruct sorted; [split; auto|]. clear Hsorted.
  destruct ((0 <? a) && negb (data_Less data3 (a - 1) pivot2)) eqn:Hequal.
  - (* partitionEqual *)
    apply andb_true_iff in Hequal. destruct Hequal as [Ha Hle].
    apply Nat.ltb_lt in Ha. apply negb_true_iff in Hle. unfold data_Less in Hle.
    destruct (partitionEqual_parts data3 a b pivot2) as (Hsw4 & Hmid & Htie);
      [lia|lia|].
    destruct (partitionEqual data3 a b pivot2) as [data4 mid].
    cbn [fst snd] in Hsw4, Hmid, Htie.
    assert (Hl4 : List.length data4 = List.length data3)
      by (eapply Swaps_length; eassumption).
    assert (Hge : forall k, a <= k < b ->
              Less (elem data4 k) (elem data3 pivot2) = false).
    { apply (Swaps_all (fun x => Less x (elem data3 pivot2) = false)
               a b a b data3 data4 Hsw4); auto.
      intros k Hk. eapply Less_negtrans; [apply Hbd3; lia|exact Hle]. }
    destruct (IH data4 mid b limit1 wasBalanced wasPartitioned)
      as [Hsw5 Hs5]; [lia|lia| |].
    { intros k _ Hk. eapply Less_negtrans; [apply Hge; lia|apply Htie; lia]. }
    set (data5 := pdqsort_loop random_Next fuel data4 mid b limit1 wasBalanced
                    wasPartitioned) in *.
    split.
    + eapply Swaps_trans; [exact Hsw03|].
      eapply Swaps_trans; [exact Hsw4|].
      eapply Swaps_mono; [| | |exact Hsw5]; lia.
    + apply (sortedRange_join data5 a mid b).
      * intros i j Hi Hij Hj.
        rewrite !(Swaps_outside mid b data4 data5) by (assumption || lia).
        eapply Less_negtrans; [apply Hge; lia|apply Htie; lia].
      * assumption.
      * intros i j Hi Hj.
        rewrite (Swaps_outside mid b data4 data5 i) by (assumption || lia).
        eapply Less_negtrans; [|apply Htie; lia].
        revert j Hj.
        apply (Swaps_all (fun x => Less x (elem data3 pivot2) = false)
                 mid b mid b data4 data5 Hsw5); auto.
        intros k Hk. apply Hge. lia.
  - (* partition *)
    clear Hequal.
    destruct (partition_parts data3 a b pivot2) as (Hsw4 & Hparts);
      [lia|lia|].
    fold (pivoted (fst (fst (partition data3 a b pivot2))) a
            (snd (fst (partition data3 a b pivot2))) b) in Hparts.
    destruct (partition data3 a b pivot2) as [[data4 mid] alreadyPartitioned].
    cbn [fst snd] in Hsw4, Hparts.
    assert (Hmid : a <= mid < b) by apply Hparts.
    assert (Hl4 : List.length data4 = List.length data3)
      by (eapply Swaps_length; eassumption).
    assert (Hbd4 : bounded data4 a b)
      by (eapply Swaps_bounded; [exact Hsw4| | |exact Hbd3]; lia).
    assert (Hsw04 : Swaps a b data data4) by (eapply Swaps_trans; eassumption).
    destruct (mid - a <? b - mid).
    + (* the left part first *)
      destruct (IH data4 a mid limit1 true true) as [Hsw5 Hs5];
        [lia|lia|eapply bounded_shorter; [eassumption|lia]|].
      set (data5 := pdqsort_loop random_Next fuel data4 a mid limit1 true true) in *.
      assert (Hl5 : List.length data5 = List.length data4)
        by (eapply Swaps_length; eassumption).
      assert (Hp5 : pivoted data5 a mid b)
        by (eapply pivoted_Swaps_left; eassumption).
      match goal with
      | |- Post (pdqsort_loop random_Next fuel data5 (mid + 1) b limit1 ?wb ?wp) =>
          destruct (IH data5 (mid + 1) b limit1 wb wp) as [Hsw6 Hs6];
            [lia|lia|now apply pivoted_bounded with (a := a)|];
          set (data6 := pdqsort_loop random_Next fuel data5 (mid + 1) b limit1 wb wp) in *
      end.
      split.
      * eapply Swaps_trans; [exact Hsw04|].
        eapply Swaps_trans; [eapply Swaps_mono; [| | |exact Hsw5]; lia|].
        eapply Swaps_mono; [| | |exact Hsw6]; lia.
      * apply (pivoted_sorted data6 a mid b).
        -- eapply pivoted_Swaps_right; eassumption.
        -- eapply sortedRange_outside; [exact Hsw6| |exact Hs5]. lia.
        -- assumption.
    + (* the right part first *)
      destruct (IH data4 (mid + 1) b limit1 true true) as [Hsw5 Hs5];
        [lia|lia|now apply pivoted_bounded with (a := a)|].
      set (data5 := pdqsort_loop random_Next fuel data4 (mid + 1) b limit1 true true) in *.
      assert (Hl5 : List.length data5 = List.length data4)
        by (eapply Swaps_length; eassumption).
      assert (Hp5 : pivoted data5 a mid b)
        by (eapply pivoted_Swaps_right; eassumption).
      assert (Hbd5 : bounded data5 a mid).
      { destruct (Nat.eq_dec a 0) as [->|Hpos]; [intros k Hk; lia|].
        eapply bounded_outside with (a := a) (b := mid);
          [exact Hsw5|lia|]. eapply bounded_shorter; [eassumption|lia]. }
      match goal with
      | |- Post (pdqsort_loop random_Next fuel data5 a mid limit1 ?wb ?wp) =>
          destruct (IH data5 a mid limit1 wb wp) as [Hsw6 Hs6];
            [lia|lia|assumption|];
          set (data6 := pdqsort_loop random_Next fuel data5 a mid limit1 wb wp) in *
      end.
      split.
      * eapply Swaps_trans; [exact Hsw04|].
        eapply Swaps_trans; [eapply Swaps_mono; [| | |exact Hsw5]; lia|].
        eapply Swaps_mono; [| | |exact Hsw6]; lia.
      * apply (pivoted_sorted data6 a mid b).
        -- eapply pivoted_Swaps_left; eassumption.
        -- assumption.
        -- eapply sortedRange_outside; [exact Hsw6| |exact Hs5]. lia.
Qed.

End PdqsortFacts.

Module SortResults.

Import sort SortFacts InsertionFacts PivotFacts PartialInsertionFacts.
Import PdqsortFacts.
Local Open Scope nat_scope.

#[local] Arguments Nat.mul : simpl never.
#[local] Arguments Nat.add : simpl never.
#[local] Arguments Nat.sub : simpl never.
#[local] Arguments Nat.div : simpl never.

(** *** [Sort] *)

Lemma data_Len_length (data : PackageList) : data_Len data = List.length data.
Proof. unfold data_Len, Len. apply Nat2Z.id. Qed.

Lemma Sort_sorts (random_Next : Z -> Z) (data : PackageList) :
  Swaps 0 (List.length data) data (Sort random_Next data) /\
  sortedRange (Sort random_Next data) 0 (List.length data).
Proof.
  unfold Sort. rewrite data_Len_length.
  destruct (Nat.leb_spec (List.length data) 1) as [Hshort|Hlong].
  - split; [apply Swaps_refl|apply sortedRange_short; lia].
  - unfold pdqsort.
    apply (pdqsort_loop_sorts random_Next (List.length data) data 0
             (List.length data)); [lia|lia|].
    intros k Hk. lia.
Qed.

(** What [sort.Sort] leaves is what a run of calls of [Swap] leaves, each
    with both indices within the slice: none of them panics. *)
Lemma Swaps_run (a b : nat) (data data' : PackageList) :
  Swaps a b data data' ->
  exists calls : list (Z * Z),
    (forall c, In c calls -> (0 <= fst c < Len data /\ 0 <= snd c < Len data)%Z) /\
    forall (St : Type) (s : St), swaps data calls s = ([], s, Returned data').
Proof.
  induction 1 as [data|data data' i j Hi Hj Hb _ (calls & Hin & Hrun)].
  - exists []. split; [intros c []|reflexivity].
  - exists ((Z.of_nat i, Z.of_nat j) :: calls). split.
    + intros c [<-|Hc]; [unfold Len; simpl; lia|].
      specialize (Hin c Hc). unfold Len in *.
      now rewrite length_data_Swap in Hin.
    + intros St s. cbn [swaps]. unfold bind.
      rewrite (Swap_returns data (Z.of_nat i) (Z.of_nat j) s
                 (elem data i) (elem data j));
        rewrite ?Nat2Z.id; try lia; try (apply elem_nth_error; lia).
      rewrite <- data_Swap_in by lia. rewrite Hrun. reflexivity.
Qed.

Lemma Sort_runs_Swap (random_Next : Z -> Z) (data : PackageList) :
  exists calls : list (Z * Z),
    (forall c, In c calls -> (0 <= fst c < Len data /\ 0 <= snd c < Len data)%Z) /\
    forall (St : Type) (s : St),
      swaps data calls s = ([], s, Returned (Sort random_Next data)).
Proof. eapply Swaps_run, Sort_sorts. Qed.

(** [sort.Sort] keeps its promise: the records of the slice, in ascending
    order. *)
Lemma Sort_contract (random_Next : Z -> Z) : SortContract (Sort random_Next).
Proof.
  intros data. destruct (Sort_sorts random_Next data) as [Hsw Hs]. split.
  - eapply Swaps_perm; eassumption.
  - apply sortedRange_ascending.
    now rewrite (Swaps_length _ _ _ _ Hsw).
Qed.

Lemma pdqsort_loop_short (random_Next : Z -> Z) (fuel : nat)
  (data : PackageList) (a b limit : nat) (wasBalanced wasPartitioned : bool) :
  0 < fuel -> b - a <= 12 ->
  pdqsort_loop random_Next fuel data a b limit wasBalanced wasPartitioned
  = insertionSort data a b.
Proof.
  intros Hfuel Hshort. destruct fuel as [|fuel]; [lia|].
  cbn [pdqsort_loop].
  destruct (Nat.leb_spec (b - a) 12); [reflexivity|lia].
Qed.

(** On a range in order a call of [pdqsort] finds the range sorted in its
    first turn and returns. *)
Lemma pdqsort_loop_sorted (random_Next : Z -> Z) (fuel : nat)
  (data : PackageList) (a b limit : nat) :
  0 < fuel -> a < b -> limit <> 0 -> sortedRange data a b ->
  pdqsort_loop random_Next fuel data a b limit true true = data.
Proof.
  intros Hfuel Hab Hlimit Hs. destruct fuel as [|fuel]; [lia|].
  cbn [pdqsort_loop].
  destruct (Nat.leb_spec (b - a) 12) as [H12|H12].
  { now apply insertionSort_sorted. }
  destruct (Nat.eqb_spec limit 0) as [|_]; [contradiction|].
  cbn [negb].
  pose proof (choosePivot_sorted data a b Hs) as Hhint.
  destruct (choosePivot data a b) as [pivot hint]. cbn [snd] in Hhint.
  rewrite Hhint by lia. cbn [andb].
  rewrite partialInsertionSort_sorted by (assumption || lia).
  reflexivity.
Qed.

(** A slice in ascending order is left as it is: [sort.Sort] makes no call
    of [Swap] on it. *)
Lemma Sort_sorted (random_Next : Z -> Z) (data : PackageList) :
  ascending data -> Sort random_Next data = data.
Proof.
  intros Hasc. apply sortedRange_ascending in Hasc.
  unfold Sort, pdqsort. rewrite data_Len_length.
  destruct (Nat.leb_spec (List.length data) 1) as [Hshort|Hlong];
    [reflexivity|].
  apply pdqsort_loop_sorted; try assumption; try lia.
  unfold bits_Len. destruct (Nat.eqb_spec (List.length data) 0); lia.
Qed.

Lemma Sort_idempotent (random_Next : Z -> Z) (data : PackageList) :
  Sort random_Next (Sort random_Next data) = Sort random_Next data.
Proof. apply Sort_sorted, Sort_contract. Qed.

(** *** Slices of up to twelve records *)

Lemma hasKey_tie (key : Z * string) (x y : Package) :
  hasKey key x = true -> hasKey key y = true -> Less y x = false.
Proof.
  unfold hasKey. rewrite !andb_true_iff, !Z.eqb_eq, !String.eqb_eq.
  intros [Hx1 Hx2] [Hy1 Hy2].
  rewrite (Less_key y x x x); [apply Less_irrefl| |reflexivity].
  unfold sortKey. congruence.
Qed.

(** Exchanging two neighbours of which the second is less than the first
    does not change the order among the records of any one key. *)
Lemma filter_store_adjacent (key : Z * string) (data : PackageList) :
  forall j, S j < List.length data ->
    Less (elem data (S j)) (elem data j) = true ->
    filter (hasKey key)
      (store (store data (S j) (elem data j)) j
         (elem data (S j)))
    = filter (hasKey key) data.
Proof.
  unfold elem.
  induction data as [|x data IH]; intros j Hj Hless; [simpl in Hj; lia|].
  destruct j as [|j].
  - destruct data as [|y data]; [simpl in Hj; lia|].
    cbn in Hless |- *.
    destruct (hasKey key x) eqn:Ex; destruct (hasKey key y) eqn:Ey;
      try reflexivity.
    rewrite (hasKey_tie key x y Ex Ey) in Hless. discriminate.
  - cbn [store nth]. cbn [nth] in Hless. cbn [filter].
    rewrite IH; [reflexivity|simpl in Hj; lia|exact Hless].
Qed.

Lemma filter_data_Swap_adjacent (key : Z * string) (data : PackageList)
  (j : nat) :
  0 < j < List.length data ->
  Less (elem data j) (elem data (j - 1)) = true ->
  filter (hasKey key) (data_Swap data j (j - 1)) = filter (hasKey key) data.
Proof.
  intros Hj Hless. rewrite data_Swap_in by lia.
  destruct j as [|j]; [lia|].
  replace (S j - 1) with j in * by lia.
  now apply filter_store_adjacent.
Qed.

Lemma insertionSort_inner_cases (a : nat) (data : PackageList) (j : nat) :
  (a < j /\ Less (elem data j) (elem data (j - 1)) = true /\
   insertionSort_inner a (data, j) = next (data_Swap data j (j - 1), j - 1)) \/
  insertionSort_inner a (data, j) = done (data, j).
Proof.
  unfold insertionSort_inner, data_Less.
  destruct (Nat.ltb_spec a j) as [Haj|Haj]; cbn [andb]; [|now right].
  destruct (Less (elem data j) (elem data (j - 1))); [left; auto|now right].
Qed.

Lemma insertionSort_inner_stable (key : Z * string) (a fuel : nat) :
  forall (data : PackageList) (j : nat),
    j < List.length data ->
    let data' := fst (loop fuel (insertionSort_inner a) (data, j)) in
    List.length data' = List.length data /\
    filter (hasKey key) data' = filter (hasKey key) data.
Proof.
  induction fuel as [|fuel IH]; intros data j Hj; [split; reflexivity|].
  cbn [loop].
  destruct (insertionSort_inner_cases a data j) as [(Haj & Hless & E)|E];
    rewrite E; [|split; reflexivity].
  destruct (IH (data_Swap data j (j - 1)) (j - 1)) as [Hl Hf].
  { rewrite length_data_Swap. lia. }
  cbv zeta in Hl, Hf. cbv zeta. rewrite Hl, Hf, length_data_Swap.
  split; [reflexivity|]. apply filter_data_Swap_adjacent; [lia|assumption].
Qed.

Lemma insertionSort_outer_stable (key : Z * string) (a b fuel : nat) :
  forall (data : PackageList) (i : nat),
    b <= List.length data ->
    filter (hasKey key) (fst (loop fuel (insertionSort_outer a b) (data, i)))
    = filter (hasKey key) data.
Proof.
  induction fuel as [|fuel IH]; intros data i Hb; [reflexivity|].
  cbn [loop].
  assert (E : (i < b /\
               insertionSort_outer a b (data, i)
               = next (fst (loop (S i) (insertionSort_inner a)
                              (data, i)), i + 1)) \/
              insertionSort_outer a b (data, i) = done (data, i)).
  { unfold insertionSort_outer.
    destruct (Nat.ltb_spec i b); [left; auto|now right]. }
  destruct E as [[Hib E]|E]; rewrite E; [|reflexivity].
  destruct (insertionSort_inner_stable key a (S i) data i)
    as [Hl Hf]; [lia|].
  cbv zeta in Hl, Hf. rewrite IH by lia. exact Hf.
Qed.

(** [insertionSort] is stable. *)
Lemma insertionSort_stable (key : Z * string) (data : PackageList) (a b : nat) :
  b <= List.length data ->
  filter (hasKey key) (insertionSort data a b) = filter (hasKey key) data.
Proof. intros Hb. now apply insertionSort_outer_stable. Qed.

(** On a slice of at most twelve records [sort.Sort] is [insertionSort]. *)
Lemma Sort_short (random_Next : Z -> Z) (data : PackageList) :
  List.length data <= 12 ->
  Sort random_Next data = data \/
  Sort random_Next data = insertionSort data 0 (List.length data).
Proof.
  intros Hshort. unfold Sort, pdqsort. rewrite data_Len_length.
  destruct (Nat.leb_spec (List.length data) 1) as [H1|H1]; [now left|right].
  apply pdqsort_loop_short; lia.
Qed.

Lemma Sort_stable_short (random_Next : Z -> Z) (data : PackageList) :
  List.length data <= 12 -> stableOn (Sort random_Next) data.
Proof.
  intros Hshort key.
  destruct (Sort_short random_Next data Hshort) as [->| ->]; [reflexivity|].
  now apply insertionSort_stable.
Qed.

End SortResults.

(** ** The ordering of search results *)

(** C4, as stated, fails on its first clause: [Less] is not a total order
    on records.  Two different records with the same category and the same
    name are not ordered by it, and [sort.Sort] leaves them as they come,
    whichever comes first. *)
Lemma Less_does_not_order_equal_keys :
  let a := pkg 1 "jq" 4 0 in
  let b := pkg 2 "jq" 4 0 in
  a <> b /\ Less a b = false /\ Less b a = false /\
  sort.Sort sort.xorshift_Next [a; b] = [a; b] /\
  sort.Sort sort.xorshift_Next [b; a] = [b; a].
Proof.
  cbv zeta. split; [discriminate|]. repeat split.
Qed.

(** C4, amended.  [Less] is a strict order on records that is total on the
    pair (category, name): it is irreflexive and transitive, and of two
    records one is [Less] than the other unless both fields agree, in which
    case neither is.  In the slice that [sort.Sort] leaves, a record with
    the smaller category stands before one with the larger category
    regardless of the names, and among records of one category the one
    with the byte-wise smaller name stands first. *)
Theorem sort_places_by_category_then_name (random_Next : Z -> Z) :
  (forall x, Less x x = false) /\
  (forall x y z, Less x y = true -> Less y z = true -> Less x z = true) /\
  (forall x y, (Less x y = false /\ Less y x = false) <-> sortKey x = sortKey y) /\
  (forall l a b, In a l -> In b l ->
     CategoryID a < CategoryID b ->
     placedBefore (sort.Sort random_Next l) a b) /\
  (forall l a b, In a l -> In b l ->
     CategoryID a = CategoryID b -> (Name a <? Name b)%string = true ->
     placedBefore (sort.Sort random_Next l) a b).
Proof.
  assert (Hplace : forall l a b, In a l -> In b l -> Less a b = true ->
            placedBefore (sort.Sort random_Next l) a b).
  { intros l a b Ha Hb Hab.
    destruct (SortResults.Sort_contract random_Next l) as [Hp Hs].
    repeat split.
    - eapply Permutation_in; eassumption.
    - eapply Permutation_in; eassumption.
    - intros i j Hi Hj.
      destruct (Nat.lt_trichotomy i j) as [Hlt|[Heq|Hgt]]; [assumption| |].
      + subst j. rewrite Hi in Hj. injection Hj as ->.
        now rewrite Less_irrefl in Hab.
      + pose proof (StronglySorted_nth _ _ Hs j i b a Hgt Hj Hi) as C.
        simpl in C. congruence. }
  split; [exact Less_irrefl|].
  split; [exact Less_trans|].
  split.
  { intros x y. split.
    - intros [H1 H2]. destruct (Less_total x y) as [H|[H|H]]; congruence.
    - intros H. rewrite (Less_key x y y y H eq_refl), (Less_key y y x y eq_refl H).
      split; apply Less_irrefl. }
  split.
  - intros l a b Ha Hb H. apply Hplace; auto. apply Less_spec. now left.
  - intros l a b Ha Hb H1 H2. apply Hplace; auto. apply Less_spec. now right.
Qed.

(** An instance: three records as [sort.Sort] leaves them. *)
Lemma sort_places_by_category_then_name_witness :
  let l := [pkg 1 "zsh" 16 0; pkg 2 "chruby" 16 0; pkg 3 "zzz" 3 0] in
  sort.Sort sort.xorshift_Next l
  = [pkg 3 "zzz" 3 0; pkg 2 "chruby" 16 0; pkg 1 "zsh" 16 0] /\
  placedBefore (sort.Sort sort.xorshift_Next l)
    (pkg 3 "zzz" 3 0) (pkg 2 "chruby" 16 0) /\
  placedBefore (sort.Sort sort.xorshift_Next l)
    (pkg 2 "chruby" 16 0) (pkg 1 "zsh" 16 0).
Proof.
  intros l. split; [reflexivity|]. split.
  - refine (proj1 (proj2 (proj2 (proj2
      (sort_places_by_category_then_name sort.xorshift_Next))))
      l (pkg 3 "zzz" 3 0) (pkg 2 "chruby" 16 0) _ _ _);
      simpl; [tauto|tauto|lia].
  - refine (proj2 (proj2 (proj2 (proj2
      (sort_places_by_category_then_name sort.xorshift_Next))))
      l (pkg 2 "chruby" 16 0) (pkg 1 "zsh" 16 0) _ _ _ _);
      simpl; [tauto|tauto|reflexivity|reflexivity].
Defined.

(** C5, as stated, fails: [sort.Sort] is not stable.  Of the [thirteen]
    records the twelve named [jq] tie; the routine takes the seventh record
    of the slice for its pivot and exchanges it with the first, and in the
    slice it leaves the sixth [jq] stands before the first five. *)
Lemma sort_not_stable_on_ties :
  sort.Sort sort.xorshift_Next thirteen
  = [ pkg 6 "jq" 4 0; pkg 1 "jq" 4 0; pkg 2 "jq" 4 0; pkg 3 "jq" 4 0;
      pkg 4 "jq" 4 0; pkg 5 "jq" 4 0; pkg 7 "jq" 4 0; pkg 8 "jq" 4 0;
      pkg 9 "jq" 4 0; pkg 10 "jq" 4 0; pkg 11 "jq" 4 0; pkg 12 "jq" 4 0;
      pkg 0 "zsh" 16 0 ] /\
  filter (hasKey (4, "jq"%string)) (sort.Sort sort.xorshift_Next thirteen)
  <> filter (hasKey (4, "jq"%string)) thirteen /\
  ~ stableOn (sort.Sort sort.xorshift_Next) thirteen.
Proof.
  assert (Hrun : sort.Sort sort.xorshift_Next thirteen
                 = [ pkg 6 "jq" 4 0; pkg 1 "jq" 4 0; pkg 2 "jq" 4 0;
                     pkg 3 "jq" 4 0; pkg 4 "jq" 4 0; pkg 5 "jq" 4 0;
                     pkg 7 "jq" 4 0; pkg 8 "jq" 4 0; pkg 9 "jq" 4 0;
                     pkg 10 "jq" 4 0; pkg 11 "jq" 4 0; pkg 12 "jq" 4 0;
                     pkg 0 "zsh" 16 0 ])
    by (vm_compute; reflexivity).
  assert (Hties : filter (hasKey (4, "jq"%string))
                    (sort.Sort sort.xorshift_Next thirteen)
                  <> filter (hasKey (4, "jq"%string)) thirteen).
  { rewrite Hrun. vm_compute. discriminate. }
  split; [exact Hrun|]. split; [exact Hties|].
  intros Hstable. apply Hties, Hstable.
Qed.

(** C5, amended.  A slice of at most twelve records is sorted by insertion,
    which is stable: records with identical category and name leave in the
    order in which they came.  On a longer slice the order among such
    records can change; what stays is which records there are for each
    (category, name) pair.  The slice left is a function of the slice
    given: the routine reads nothing else (the generator of
    [breakPatterns] starts from the length of the range), so a run on an
    identical input leaves an identical output. *)
Theorem sort_stable_up_to_twelve_records
  (random_Next : Z -> Z) (l : PackageList) :
  ((List.length l <= 12)%nat -> stableOn (sort.Sort random_Next) l) /\
  (forall k, Permutation (filter (hasKey k) l)
                         (filter (hasKey k) (sort.Sort random_Next l))) /\
  (forall l', l' = l -> sort.Sort random_Next l' = sort.Sort random_Next l).
Proof.
  split; [apply SortResults.Sort_stable_short|]. split.
  - intros k. apply filter_perm, SortResults.Sort_contract.
  - intros l' ->. reflexivity.
Qed.

(** An instance: the first twelve of the [thirteen] records; the eleven
    that tie leave in the order in which they came. *)
Lemma sort_stable_up_to_twelve_records_witness :
  let l := pkg 0 "zsh" 16 0
           :: map (fun id => pkg id "jq" 4 0) [1; 2; 3; 4; 5; 6; 7; 8; 9; 10; 11] in
  (List.length l <= 12)%nat /\
  stableOn (sort.Sort sort.xorshift_Next) l /\
  sort.Sort sort.xorshift_Next l
  = map (fun id => pkg id "jq" 4 0) [1; 2; 3; 4; 5; 6; 7; 8; 9; 10; 11]
    ++ [pkg 0 "zsh" 16 0].
Proof.
  intros l.
  assert (Hl : (List.length l <= 12)%nat) by (simpl; lia).
  split; [exact Hl|]. split.
  - exact (proj1 (sort_stable_up_to_twelve_records sort.xorshift_Next l) Hl).
  - vm_compute. reflexivity.
Defined.

(** C6.  [sort.Sort] is idempotent: on every slice, sorting the sorted
    slice again leaves it unchanged.  On a slice in ascending order the
    routine makes no call of [Swap] at all, whether or not records tie. *)
Theorem sort_idempotent (random_Next : Z -> Z) (l : PackageList) :
  sort.Sort random_Next (sort.Sort random_Next l) = sort.Sort random_Next l /\
  (ascending l -> sort.Sort random_Next l = l).
Proof.
  split; [apply SortResults.Sort_idempotent|apply SortResults.Sort_sorted].
Qed.

(** An instance: the [thirteen] records, sorted once and again. *)
Lemma sort_idempotent_witness :
  sort.Sort sort.xorshift_Next (sort.Sort sort.xorshift_Next thirteen)
  = sort.Sort sort.xorshift_Next thirteen.
Proof.
  exact (proj1 (sort_idempotent sort.xorshift_Next thirteen)).
Defined.

(** ** The timestamp decoder *)

Lemma isDigit_value (c : ascii) : isDigit c = true -> 0 <= digitValue c <= 9.
Proof.
  unfold isDigit, digitValue. rewrite andb_true_iff, !Nat.leb_le. lia.
Qed.

Lemma digitsValue_ge (s : string) :
  forall n, allDigits s = true -> 0 <= n -> n <= digitsValue s n.
Proof.
  unfold allDigits.
  induction s as [|c r IH]; intros n Hd Hn; simpl in *; [lia|].
  apply andb_true_iff in Hd. destruct Hd as [Hc Hr].
  apply isDigit_value in Hc.
  specialize (IH (n * 10 + digitValue c) Hr). lia.
Qed.

Lemma parseDigits_spec (maxVal : Z) (s : string) :
  forall n v, 0 <= n <= maxVal ->
    (parseDigits maxVal s n = inl v <->
     allDigits s = true /\ v = digitsValue s n /\ v <= maxVal).
Proof.
  induction s as [|c r IH]; intros n v Hn; simpl.
  - split; [intros [= <-]; repeat split; lia|intros (_ & -> & _); reflexivity].
  - unfold allDigits; simpl. fold (allDigits r).
    destruct (isDigit c) eqn:Hc; simpl.
    + pose proof (isDigit_value c Hc) as Hv.
      destruct (n * 10 + digitValue c >? maxVal) eqn:Hgt.
      * apply Z.gtb_lt in Hgt. split; [discriminate|].
        intros (Hr & -> & Hle).
        pose proof (digitsValue_ge r (n * 10 + digitValue c) Hr). lia.
      * apply IH. rewrite Z.gtb_ltb in Hgt. apply Z.ltb_ge in Hgt. lia.
    + split; [discriminate|]. intros (C & _). discriminate.
Qed.

Lemma Atoi_unfold (intSize : Z) (c : ascii) (rest : string) :
  Atoi intSize (String c rest)
  = atoiDigits intSize (String c rest) (Ascii.eqb c "-")
      (if Ascii.eqb c "-" || Ascii.eqb c "+" then rest else String c rest).
Proof. reflexivity. Qed.

Lemma atoiDigits_spec (intSize : Z) (s0 : string) (neg : bool) (digits : string)
  (v : Z) :
  0 < intSize ->
  (atoiDigits intSize s0 neg digits = inl v <->
   negb (digits =? "")%string && allDigits digits = true /\
   v = (if neg then - digitsValue digits 0 else digitsValue digits 0) /\
   - 2 ^ (intSize - 1) <= v < 2 ^ (intSize - 1)).
Proof.
  intros Hsize.
  assert (Hpow : 2 ^ intSize = 2 * 2 ^ (intSize - 1)).
  { rewrite <- Z.pow_succ_r by lia. f_equal. lia. }
  assert (Hpos : 0 < 2 ^ (intSize - 1)) by (apply Z.pow_pos_nonneg; lia).
  destruct digits as [|d ds].
  { simpl. split; [discriminate|]. intros (C & _). discriminate. }
  set (digits := String d ds).
  assert (Hne : (digits =? "")%string = false) by reflexivity.
  rewrite Hne. simpl negb. rewrite andb_true_l.
  change (atoiDigits intSize s0 neg digits) with
    (match parseDigits (2 ^ intSize - 1) digits 0 with
     | inr e => inr (NumError "Atoi" s0 e)
     | inl un =>
         if negb neg && (un >=? 2 ^ (intSize - 1))
         then inr (NumError "Atoi" s0 ErrRange)
         else if neg && (un >? 2 ^ (intSize - 1))
              then inr (NumError "Atoi" s0 ErrRange)
              else @inl Z error (if neg then - un else un)
     end).
  clearbody digits. clear Hne.
  pose proof (parseDigits_spec (2 ^ intSize - 1) digits 0) as Hp.
  destruct (parseDigits (2 ^ intSize - 1) digits 0) as [un|e] eqn:Hpd.
  - destruct (proj1 (Hp un ltac:(lia)) eq_refl) as (Hall & Hun & Hle).
    pose proof (digitsValue_ge digits 0 Hall ltac:(lia)) as Hge.
    rewrite <- Hun. rewrite Hall.
    destruct neg; simpl.
    + destruct (un >? 2 ^ (intSize - 1)) eqn:Hc.
      * apply Z.gtb_lt in Hc. split; [discriminate|]. intros (_ & -> & Hr). lia.
      * rewrite Z.gtb_ltb in Hc. apply Z.ltb_ge in Hc.
        split; [intros [= <-]; repeat split; lia|intros (_ & -> & _); reflexivity].
    + destruct (un >=? 2 ^ (intSize - 1)) eqn:Hc.
      * apply Z.geb_le in Hc. split; [discriminate|]. intros (_ & -> & Hr). lia.
      * rewrite Z.geb_leb in Hc. apply Z.leb_gt in Hc.
        split; [intros [= <-]; repeat split; lia|intros (_ & -> & _); reflexivity].
  - split; [discriminate|]. intros (Hall & -> & Hr). exfalso.
    set (w := digitsValue digits 0) in *.
    pose proof (digitsValue_ge digits 0 Hall ltac:(lia)) as Hge. fold w in Hge.
    assert (Hw : w <= 2 ^ intSize - 1) by (destruct neg; lia).
    pose proof (proj2 (Hp w ltac:(lia)) (conj Hall (conj eq_refl Hw))).
    discriminate.
Qed.

Lemma Atoi_spec (intSize : Z) (s : string) (v : Z) :
  0 < intSize ->
  (Atoi intSize s = inl v <->
   isIntegerToken s = true /\ v = tokenValue s /\
   - 2 ^ (intSize - 1) <= v < 2 ^ (intSize - 1)).
Proof.
  intros Hsize. destruct s as [|c rest].
  { simpl. split; [discriminate|]. intros (C & _). discriminate. }
  rewrite Atoi_unfold, atoiDigits_spec by assumption.
  unfold isIntegerToken, tokenValue.
  destruct (Ascii.eqb c "-"); simpl; [reflexivity|].
  destruct (Ascii.eqb c "+"); reflexivity.
Qed.

Lemma UnmarshalJSON_result (intSize : Z) (t : timeUnmarshaler) (str : string) :
  UnmarshalJSON intSize t str
  = match Atoi intSize str with
    | inl unix => (mkTimeUnmarshaler (Unix unix), None)
    | inr err => (t, Some err)
    end.
Proof. unfold UnmarshalJSON. destruct (Atoi intSize str); reflexivity. Qed.

(** C7, as stated, fails: a base-10 integer token whose value does not fit
    [int] is refused with a range error, on 64-bit and on 32-bit platforms
    (where the first refused timestamp lies in January 2038). *)
Lemma UnmarshalJSON_refuses_wide_integer_token :
  isIntegerToken "9223372036854775808" = true /\
  UnmarshalJSON 64 epoch "9223372036854775808"
  = (epoch, Some (NumError "Atoi" "9223372036854775808" ErrRange)) /\
  isIntegerToken "2147483648" = true /\
  UnmarshalJSON 32 epoch "2147483648"
  = (epoch, Some (NumError "Atoi" "2147483648" ErrRange)).
Proof. repeat split; vm_compute; reflexivity. Qed.

(** C7, amended.  The timestamp decoder succeeds exactly on the inputs that
    are base-10 integer tokens (an optional sign, then one or more decimal
    digits) whose value fits Go's [int] (32 or 64 bits wide); the timestamp
    it stores is that many seconds since the Unix epoch, and on failure the
    receiver is left as it was.  It therefore refuses ISO-8601 text, and
    decoding the scalar 1350939768 yields 2012-10-22T21:02:48Z. *)
Theorem UnmarshalJSON_accepts_int_tokens
  (intSize : Z) (Hsize : intSize = 32 \/ intSize = 64)
  (t : timeUnmarshaler) (str : string) :
  (snd (UnmarshalJSON intSize t str) = None <->
   isIntegerToken str = true /\
   - 2 ^ (intSize - 1) <= tokenValue str < 2 ^ (intSize - 1)) /\
  (snd (UnmarshalJSON intSize t str) = None ->
   fst (UnmarshalJSON intSize t str) = mkTimeUnmarshaler (Unix (tokenValue str))) /\
  (snd (UnmarshalJSON intSize t str) <> None ->
   fst (UnmarshalJSON intSize t str) = t) /\
  UnmarshalJSON intSize t "2012-10-22T21:02:48Z"
  = (t, Some (NumError "Atoi" "2012-10-22T21:02:48Z" ErrSyntax)) /\
  UnmarshalJSON intSize t "1350939768"
  = (mkTimeUnmarshaler (Unix 1350939768), None) /\
  utc (Unix 1350939768) = mkCivil 2012 10 22 21 2 48.
Proof.
  assert (H0 : 0 < intSize) by lia.
  assert (Hgen :
    (snd (UnmarshalJSON intSize t str) = None <->
     isIntegerToken str = true /\
     - 2 ^ (intSize - 1) <= tokenValue str < 2 ^ (intSize - 1)) /\
    (snd (UnmarshalJSON intSize t str) = None ->
     fst (UnmarshalJSON intSize t str) = mkTimeUnmarshaler (Unix (tokenValue str))) /\
    (snd (UnmarshalJSON intSize t str) <> None ->
     fst (UnmarshalJSON intSize t str) = t)).
  { rewrite UnmarshalJSON_result.
    pose proof (fun v => Atoi_spec intSize str v H0) as Hspec.
    destruct (Atoi intSize str) as [v|e]; simpl.
    - destruct (proj1 (Hspec v) eq_refl) as (Htok & Hv & Hr).
      repeat split; try congruence; lia.
    - split; [|split; [discriminate|reflexivity]].
      split; [discriminate|]. intros [Htok Hr].
      pose proof (proj2 (Hspec (tokenValue str)) (conj Htok (conj eq_refl Hr))).
      discriminate. }
  destruct Hgen as (G1 & G2 & G3).
  split; [exact G1|]. split; [exact G2|]. split; [exact G3|].
  destruct Hsize as [-> | ->]; repeat split; reflexivity.
Qed.

(** An instance on a 64-bit platform. *)
Lemma UnmarshalJSON_accepts_int_tokens_witness :
  snd (UnmarshalJSON 64 epoch "1382517527") = None /\
  fst (UnmarshalJSON 64 epoch "1382517527") = mkTimeUnmarshaler (Unix 1382517527).
Proof.
  pose proof (UnmarshalJSON_accepts_int_tokens 64 (or_intror eq_refl) epoch
                "1382517527") as (H1 & H2 & _).
  assert (Hnone : snd (UnmarshalJSON 64 epoch "1382517527") = None).
  { apply H1. split; [reflexivity|]. vm_compute. split; [discriminate|reflexivity]. }
  split; [exact Hnone|]. exact (H2 Hnone).
Defined.

(** ** The reconciler *)

Lemma firstNamed_some (arg : string) (results : list Package) (p : Package) :
  firstNamed arg results = Some p -> In p results /\ Name p = arg.
Proof.
  intros H. apply find_some in H. now rewrite String.eqb_eq in H.
Qed.

Lemma firstNamed_none (arg : string) (results : list Package) :
  firstNamed arg results = None <-> (forall p, In p results -> Name p <> arg).
Proof.
  split.
  - intros H p Hp. apply (find_none _ _ H) in Hp. now apply String.eqb_neq.
  - intros H. destruct (firstNamed arg results) as [p|] eqn:E; [|reflexivity].
    apply firstNamed_some in E. destruct E as [Hin Hn]. now apply H in Hin.
Qed.

Section Reconciler.

Context {St : Type}.
Variable QueryEscape : string -> string.
Variable aurRequest : string -> Response + error.
Variable f : Package -> M St (option error).

Lemma scanResults_unmatched (arg : string) (results : list Package) (s : St) :
  firstNamed arg results = None ->
  scanResults f arg results s = ([], s, Returned (inl false)).
Proof.
  unfold firstNamed. induction results as [|q rest IH]; simpl; [reflexivity|].
  destruct (Name q =? arg)%string; [discriminate|exact IH].
Qed.

Lemma scanResults_matched (arg : string) (results : list Package) (p : Package)
  (s : St) :
  firstNamed arg results = Some p ->
  scanResults f arg results s
  = let '(t, s', o) := f p s in
    (Invoke p :: t, s',
     match o with
     | Returned None => Returned (inl true)
     | Returned (Some e) => Returned (inr e)
     | Panicked v => Panicked v
     | Exited c => Exited c
     end).
Proof.
  unfold firstNamed. induction results as [|q rest IH]; simpl; [discriminate|].
  destruct (Name q =? arg)%string; [|exact IH].
  intros [= ->]. unfold bind, emit, ret.
  destruct (f p s) as [[t s'] [[e|]|v|c]]; simpl; rewrite ?app_nil_r; reflexivity.
Qed.

Lemma argLoop_unmatched (results : list Package) (a : string)
  (rest : list string) (s : St) :
  firstNamed a results = None ->
  argLoop f results (a :: rest) s
  = let '(t, s', o) := argLoop f results rest s in
    (Stdout (notFoundLine a) :: t, s', o).
Proof.
  intros H. simpl. unfold bind at 1. rewrite (scanResults_unmatched _ _ _ H).
  simpl. unfold bind, Print, emit.
  destruct (argLoop f results rest s) as [[t s'] o]. reflexivity.
Qed.

Lemma argLoop_matched (results : list Package) (a : string)
  (rest : list string) (p : Package) (s s1 : St) (t1 : list event) :
  firstNamed a results = Some p ->
  f p s = (t1, s1, Returned None) ->
  argLoop f results (a :: rest) s
  = let '(t, s', o) := argLoop f results rest s1 in
    (Invoke p :: t1 ++ t, s', o).
Proof.
  intros H Hf. simpl. unfold bind at 1.
  rewrite (scanResults_matched _ _ _ _ H), Hf.
  simpl. unfold bind, ret.
  destruct (argLoop f results rest s1) as [[t s'] o]. reflexivity.
Qed.

Lemma argLoop_failed (results : list Package) (a : string)
  (rest : list string) (p : Package) (s s1 : St) (t1 : list event) (e : error) :
  firstNamed a results = Some p ->
  f p s = (t1, s1, Returned (Some e)) ->
  argLoop f results (a :: rest) s = (Invoke p :: t1, s1, Returned (Some e)).
Proof.
  intros H Hf. simpl. unfold bind at 1.
  rewrite (scanResults_matched _ _ _ _ H), Hf.
  simpl. unfold ret. now rewrite app_nil_r.
Qed.

Lemma argLoop_app (results : list Package) (pre rest : list string) :
  forall (s s1 : St) (t1 : list event),
    argLoop f results pre s = (t1, s1, Returned None) ->
    argLoop f results (pre ++ rest) s
    = let '(t, s', o) := argLoop f results rest s1 in (t1 ++ t, s', o).
Proof.
  induction pre as [|b pre IH]; intros s s1 t1 Hpre.
  - simpl in Hpre. injection Hpre as <- <-.
    simpl. destruct (argLoop f results rest s) as [[t s'] o]. reflexivity.
  - change ((b :: pre) ++ rest) with (b :: (pre ++ rest)).
    destruct (firstNamed b results) as [p|] eqn:Hb.
    + destruct (f p s) as [[tf sf] [[e|]|v|c]] eqn:Hf.
      * rewrite (argLoop_failed _ _ _ _ _ _ _ _ Hb Hf) in Hpre. discriminate.
      * rewrite (argLoop_matched _ _ _ _ _ _ _ Hb Hf) in Hpre.
        rewrite (argLoop_matched _ _ _ _ _ _ _ Hb Hf).
        destruct (argLoop f results pre sf) as [[t2 s2] o2] eqn:Hrec.
        injection Hpre as <- <- ->.
        rewrite (IH _ _ _ Hrec).
        destruct (argLoop f results rest s2) as [[t s'] o].
        now rewrite app_comm_cons, app_assoc.
      * simpl in Hpre. unfold bind at 1 in Hpre.
        rewrite (scanResults_matched _ _ _ _ Hb), Hf in Hpre. discriminate.
      * simpl in Hpre. unfold bind at 1 in Hpre.
        rewrite (scanResults_matched _ _ _ _ Hb), Hf in Hpre. discriminate.
    + rewrite (argLoop_unmatched _ _ _ _ Hb) in Hpre.
      rewrite (argLoop_unmatched _ _ _ _ Hb).
      destruct (argLoop f results pre s) as [[t2 s2] o2] eqn:Hrec.
      injection Hpre as <- <- ->.
      rewrite (IH _ _ _ Hrec).
      destruct (argLoop f results rest s2) as [[t s'] o]. reflexivity.
Qed.

(** When the callback returns [nil] on every record of the response, the
    outer loop runs to its end. *)
Lemma argLoop_completes (results : list Package) :
  (forall p s, In p results -> snd (f p s) = Returned None) ->
  forall args s, snd (argLoop f results args s) = Returned None.
Proof.
  intros Hf. induction args as [|a rest IH]; intros s; [reflexivity|].
  destruct (firstNamed a results) as [p|] eqn:Ha.
  - destruct (f p s) as [[t1 s1] o] eqn:Hp.
    pose proof (Hf p s (proj1 (firstNamed_some _ _ _ Ha))) as Ho.
    rewrite Hp in Ho. simpl in Ho. subst o.
    rewrite (argLoop_matched _ _ _ _ _ _ _ Ha Hp).
    specialize (IH s1). destruct (argLoop f results rest s1) as [[t s'] o].
    exact IH.
  - rewrite (argLoop_unmatched _ _ _ _ Ha).
    specialize (IH s). destruct (argLoop f results rest s) as [[t s'] o].
    exact IH.
Qed.

Lemma multiInfo_count (args : list string) (resp : Response) (s : St) :
  aurRequest (multiInfoRequest QueryEscape args) = inl resp ->
  (forall p s', In p (Results resp) -> snd (f p s') = Returned None) ->
  snd (multiInfo QueryEscape aurRequest args f s)
  = Returned (if (List.length (Results resp) <? List.length args)%nat
              then Some someNotFound else None).
Proof.
  intros Hresp Hf. unfold multiInfo. rewrite Hresp. unfold bind.
  pose proof (argLoop_completes _ Hf args s) as Hloop.
  destruct (argLoop f (Results resp) args s) as [[t s'] o].
  simpl in Hloop. subst o.
  destruct (List.length (Results resp) <? List.length args)%nat; reflexivity.
Qed.

End Reconciler.

(** C2, as stated, fails: the server answers a request for [x] with one
    record, named [y]; [x] has no record and its diagnostic is printed, but
    the response is not shorter than the argument list and [multiInfo]
    returns [nil]. *)
Lemma multiInfo_success_despite_unmatched :
  NoDup ["x"%string] /\
  firstNamed "x" [pkg 1 "y" 1 0] = None /\
  multiInfo noEscape (answering [pkg 1 "y" 1 0]) ["x"%string] quietCallback tt
  = ([Stdout (notFoundLine "x")], tt, Returned None).
Proof.
  split; [repeat constructor; simpl; tauto|]. split; reflexivity.
Qed.

(** C2, amended.  For every sequence of distinct identifiers, every decoded
    response envelope whose records carry pairwise distinct names, each of
    them one of the requested identifiers, and every callback that returns
    [nil] on these records, [multiInfo] returns the error "Some packages
    were not found" if and only if one or more of the requested identifiers
    has no record of exactly that name in the response; when every
    identifier has one, it returns [nil]. *)
Theorem multiInfo_not_found_iff_unmatched
  {St : Type} (QueryEscape : string -> string)
  (aurRequest : string -> Response + error)
  (f : Package -> M St (option error))
  (args : list string) (resp : Response) (s : St)
  (Hargs : NoDup args)
  (Hresp : aurRequest (multiInfoRequest QueryEscape args) = inl resp)
  (Hnames : NoDup (map Name (Results resp)))
  (Hasked : forall p, In p (Results resp) -> In (Name p) args)
  (Hf : forall p s', In p (Results resp) -> snd (f p s') = Returned None) :
  (snd (multiInfo QueryEscape aurRequest args f s) = Returned (Some someNotFound)
   <-> exists a, In a args /\ forall p, In p (Results resp) -> Name p <> a) /\
  ((forall a, In a args -> exists p, In p (Results resp) /\ Name p = a) ->
   snd (multiInfo QueryEscape aurRequest args f s) = Returned None).
Proof.
  rewrite (multiInfo_count QueryEscape aurRequest f args resp s Hresp Hf).
  set (names := map Name (Results resp)).
  assert (Hlen : List.length names = List.length (Results resp))
    by apply length_map.
  assert (Hall : (forall a, In a args -> In a names) ->
                 (List.length args <= List.length (Results resp))%nat).
  { intros Hincl. rewrite <- Hlen. now apply NoDup_incl_length. }
  assert (Hmiss : forall a, In a args ->
                    (forall p, In p (Results resp) -> Name p <> a) ->
                    (List.length (Results resp) < List.length args)%nat).
  { intros a Ha Hno. rewrite <- Hlen.
    apply Nat.le_lt_trans with (List.length (remove string_dec a args)).
    - apply NoDup_incl_length; [exact Hnames|].
      intros n Hn. apply in_map_iff in Hn. destruct Hn as (p & <- & Hp).
      apply in_in_remove; [now apply Hno|now apply Hasked].
    - now apply remove_length_lt. }
  destruct (List.length (Results resp) <? List.length args)%nat eqn:Hlt.
  - apply Nat.ltb_lt in Hlt. split.
    + split; [intros _|reflexivity].
      destruct (Forall_Exists_dec (fun a => In a names)
                  (fun a => in_dec string_dec a names) args) as [Hfa|Hex].
      * rewrite Forall_forall in Hfa. specialize (Hall Hfa). lia.
      * apply Exists_exists in Hex. destruct Hex as (a & Ha & Hnot).
        exists a. split; [assumption|].
        intros p Hp Heq. apply Hnot. subst a. now apply in_map.
    + intros Hevery. exfalso.
      assert (Hle : (List.length args <= List.length (Results resp))%nat); [|lia].
      apply Hall. intros a Ha. destruct (Hevery a Ha) as (p & Hp & <-).
      now apply in_map.
  - apply Nat.ltb_ge in Hlt. split; [|reflexivity].
    split; [discriminate|]. intros (a & Ha & Hno).
    specialize (Hmiss a Ha Hno). lia.
Qed.

(** An instance: three identifiers requested, two records returned. *)
Lemma multiInfo_not_found_iff_unmatched_witness :
  snd (multiInfo noEscape (answering [pkg 2 "yaourt" 16 0; pkg 1 "jq" 4 0])
         ["jq"; "nope"; "yaourt"]%string quietCallback tt)
  = Returned (Some someNotFound)
  <-> exists a, In a ["jq"; "nope"; "yaourt"]%string /\
        forall p, In p [pkg 2 "yaourt" 16 0; pkg 1 "jq" 4 0] -> Name p <> a.
Proof.
  refine (proj1 (multiInfo_not_found_iff_unmatched noEscape
            (answering [pkg 2 "yaourt" 16 0; pkg 1 "jq" 4 0]) quietCallback
            ["jq"; "nope"; "yaourt"]%string _ tt _ eq_refl _ _ _)).
  - repeat constructor; simpl; intuition discriminate.
  - repeat constructor; simpl; intuition discriminate.
  - simpl. intros p [<-|[<-|[]]]; simpl; tauto.
  - reflexivity.
Defined.

(** C3.  Two scenarios, each under its own assumptions.  First: with three
    distinct identifiers X, Y, Z requested and a response holding only the
    records of Z and Y, in that order, [multiInfo] prints the not-found line
    of X, then invokes the callback on the record of Y, then on the record
    of Z, and on no other, and returns the error "Some packages were not
    found"; the callback is one that returns [nil] on these two records.
    Second: with a single identifier W requested and a response that holds a
    record of W, it invokes the callback once, on that record, and returns
    [nil]; the callback is one that returns [nil] on that record. *)
Theorem multiInfo_reconciles_in_argument_order
  {St : Type} (QueryEscape : string -> string)
  (aurRequest : string -> Response + error)
  (f : Package -> M St (option error)) (s : St) :
  (forall (X Y Z : string) (py pz : Package) (resp : Response),
     X <> Y -> X <> Z -> Y <> Z ->
     Name py = Y -> Name pz = Z ->
     aurRequest (multiInfoRequest QueryEscape [X; Y; Z]) = inl resp ->
     Results resp = [pz; py] ->
     (forall s', snd (f py s') = Returned None) ->
     (forall s', snd (f pz s') = Returned None) ->
     let '(ty, s1, _) := f py s in
     let '(tz, s2, _) := f pz s1 in
     multiInfo QueryEscape aurRequest [X; Y; Z] f s
     = (Stdout (notFoundLine X) :: Invoke py :: ty ++ Invoke pz :: tz, s2,
        Returned (Some someNotFound))) /\
  (forall (W : string) (pw : Package) (resp1 : Response),
     aurRequest (multiInfoRequest QueryEscape [W]) = inl resp1 ->
     firstNamed W (Results resp1) = Some pw ->
     (forall s', snd (f pw s') = Returned None) ->
     let '(tw, s1, _) := f pw s in
     multiInfo QueryEscape aurRequest [W] f s
     = (Invoke pw :: tw, s1, Returned None)).
Proof.
  split.
  - intros X Y Z py pz resp HXY HXZ HYZ Hpy Hpz Hresp Hresults Hfy Hfz.
    assert (HX : firstNamed X [pz; py] = None).
    { apply firstNamed_none. intros p [<-|[<-|[]]]; congruence. }
    assert (HY : firstNamed Y [pz; py] = Some py).
    { unfold firstNamed. simpl.
      destruct (String.eqb_spec (Name pz) Y) as [E|_]; [congruence|].
      now rewrite (proj2 (String.eqb_eq _ _) Hpy). }
    assert (HZ : firstNamed Z [pz; py] = Some pz).
    { unfold firstNamed. simpl. now rewrite (proj2 (String.eqb_eq _ _) Hpz). }
    destruct (f py s) as [[ty s1] oy] eqn:Ey.
    pose proof (Hfy s) as Hoy. rewrite Ey in Hoy. simpl in Hoy. subst oy.
    destruct (f pz s1) as [[tz s2] oz] eqn:Ez.
    pose proof (Hfz s1) as Hoz. rewrite Ez in Hoz. simpl in Hoz. subst oz.
    unfold multiInfo. rewrite Hresp, Hresults. unfold bind.
    rewrite (argLoop_unmatched f _ _ _ _ HX).
    rewrite (argLoop_matched f _ _ _ _ _ _ _ HY Ey).
    rewrite (argLoop_matched f _ _ _ _ _ _ _ HZ Ez).
    simpl. rewrite !app_nil_r. reflexivity.
  - intros W pw resp1 Hresp1 Hpw Hfw.
    destruct (f pw s) as [[tw s1] ow] eqn:Ew.
    pose proof (Hfw s) as How. rewrite Ew in How. simpl in How. subst ow.
    unfold multiInfo. rewrite Hresp1. unfold bind.
    rewrite (argLoop_matched f _ _ _ _ _ _ _ Hpw Ew).
    destruct (firstNamed_some _ _ _ Hpw) as [Hin _].
    destruct (Results resp1) as [|q qs]; [destruct Hin|].
    simpl. rewrite !app_nil_r. reflexivity.
Qed.

(** Both scenarios with a callback that does nothing: the first on a
    response without the first of three identifiers, the second on a
    response of one record. *)
Lemma multiInfo_reconciles_in_argument_order_witness :
  let jq := pkg 1 "jq" 4 0 in
  let yaourt := pkg 2 "yaourt" 16 0 in
  multiInfo noEscape (answering [yaourt; jq]) ["nope"; "jq"; "yaourt"]%string
    quietCallback tt
  = ([Stdout (notFoundLine "nope"); Invoke jq; Invoke yaourt], tt,
     Returned (Some someNotFound)) /\
  multiInfo noEscape (answering [jq]) ["jq"%string] quietCallback tt
  = ([Invoke jq], tt, Returned None).
Proof.
  intros jq yaourt. split.
  - refine (proj1 (multiInfo_reconciles_in_argument_order noEscape
                     (answering [yaourt; jq]) quietCallback tt)
              "nope" "jq" "yaourt" jq yaourt _ _ _ _ eq_refl eq_refl
              eq_refl eq_refl (fun _ => eq_refl) (fun _ => eq_refl))%string;
      discriminate.
  - exact (proj2 (multiInfo_reconciles_in_argument_order noEscape
                    (answering [jq]) quietCallback tt)
             "jq"%string jq _ eq_refl eq_refl (fun _ => eq_refl)).
Defined.

(** C9.  Let the identifiers before [a] have been processed without a
    callback failure, and let the callback fail with [e] on the record
    matched for [a].  Then [multiInfo] returns [e], and what the run did ends
    with that call: whatever identifiers follow [a], there is no further
    callback invocation, no not-found line and no "Some packages were not
    found". *)
Theorem multiInfo_stops_at_callback_error
  {St : Type} (QueryEscape : string -> string)
  (aurRequest : string -> Response + error)
  (f : Package -> M St (option error))
  (pre post : list string) (a : string) (p : Package) (e : error)
  (resp : Response) (s s1 s2 : St) (t1 t2 : list event)
  (Hresp : aurRequest (multiInfoRequest QueryEscape (pre ++ a :: post)) = inl resp)
  (Hpre : argLoop f (Results resp) pre s = (t1, s1, Returned None))
  (Hmatch : firstNamed a (Results resp) = Some p)
  (Hfail : f p s1 = (t2, s2, Returned (Some e))) :
  multiInfo QueryEscape aurRequest (pre ++ a :: post) f s
  = (t1 ++ Invoke p :: t2, s2, Returned (Some e)).
Proof.
  unfold multiInfo. rewrite Hresp. unfold bind.
  rewrite (argLoop_app f _ _ _ _ _ _ Hpre).
  rewrite (argLoop_failed f _ _ _ _ _ _ _ _ Hmatch Hfail).
  simpl. now rewrite app_nil_r.
Qed.

(** An instance: the callback fails on [jq], the second of four identifiers. *)
Lemma multiInfo_stops_at_callback_error_witness :
  let jq := pkg 1 "jq" 4 0 in
  let yaourt := pkg 2 "yaourt" 16 0 in
  multiInfo noEscape (answering [yaourt; jq])
    (["nope"%string] ++ "jq"%string :: ["yaourt"%string; "gone"%string])
    (failingOn "jq") tt
  = ([Stdout (notFoundLine "nope")] ++ [Invoke jq], tt,
     Returned (Some (ErrorString "callback failed"))).
Proof.
  intros jq yaourt.
  exact (multiInfo_stops_at_callback_error noEscape (answering [yaourt; jq])
           (failingOn "jq") ["nope"%string] ["yaourt"; "gone"]%string "jq" jq
           (ErrorString "callback failed") _ tt tt tt
           [Stdout (notFoundLine "nope")] [] eq_refl eq_refl eq_refl eq_refl).
Defined.

(** ** The category table and the two renderings *)

Section Rendering.

Context {St : Type}.
Variable Format : Time -> string -> string.

Lemma index_in_range (l : list string) (i : Z) (s : St) :
  0 <= i < Z.of_nat (List.length l) ->
  index l i s = ([], s, Returned (nth (Z.to_nat i) l ""%string)).
Proof.
  intros H. unfold index.
  replace (0 <=? i) with true by (symmetry; apply Z.leb_le; lia).
  replace (i <? Z.of_nat (List.length l)) with true
    by (symmetry; apply Z.ltb_lt; lia).
  reflexivity.
Qed.

Lemma index_out_of_range (l : list string) (i : Z) (s : St) :
  i < 0 \/ Z.of_nat (List.length l) <= i ->
  index l i s = ([], s, Panicked (IndexOutOfRange i (Z.of_nat (List.length l)))).
Proof.
  intros H. unfold index.
  destruct (0 <=? i) eqn:E1; [|reflexivity].
  destruct (i <? Z.of_nat (List.length l)) eqn:E2; [|reflexivity].
  apply Z.leb_le in E1. apply Z.ltb_lt in E2. lia.
Qed.

Lemma searchLine_in_range (p : Package) (s : St) :
  0 <= CategoryID p <= 20 ->
  searchLine p s
  = ([ Stdout (ESC ++ "[1;35m" ++ "aur/" ++ categoryOf p ++ "/" ++ ESC ++ "[1;37m"
               ++ Name p ++ " ");
       Stdout (if OutOfDate p =? 0 then green else red);
       Stdout (Version p ++ LF);
       Stdout ("    " ++ ESC ++ "[0m" ++ Description p ++ LF) ],
     s, Returned tt).
Proof.
  intros H. unfold searchLine. unfold bind at 1.
  rewrite index_in_range by (simpl; lia).
  destruct (OutOfDate p =? 0); reflexivity.
Qed.

Lemma infoCallback_in_range (p : Package) (s : St) :
  0 <= CategoryID p <= 20 ->
  infoCallback Format p s
  = (infoBefore p
     ++ Stdout (ESC ++ "[1mVersion         : " ++ ESC ++ "[0m" ++ Version p)
     :: (if OutOfDate p =? 0 then [] else [Stdout " [out of date]"])
     ++ Stdout LF :: infoAfter Format p,
     s, Returned None).
Proof.
  intros H. unfold infoCallback. unfold bind at 1.
  rewrite index_in_range by (simpl; lia).
  destruct (OutOfDate p =? 0); reflexivity.
Qed.

Lemma rendering_out_of_range (p : Package) (s : St) :
  CategoryID p < 0 \/ 20 < CategoryID p ->
  searchLine p s = ([], s, Panicked (IndexOutOfRange (CategoryID p) 21)) /\
  infoCallback Format p s = ([], s, Panicked (IndexOutOfRange (CategoryID p) 21)).
Proof.
  intros H. split; [unfold searchLine|unfold infoCallback];
    unfold bind at 1; rewrite index_out_of_range by (simpl; lia); reflexivity.
Qed.

End Rendering.

(** C8, as stated, fails: a record with a nonzero staleness flag whose
    category identifier is outside the table is not rendered at all; both
    renderings panic on the table lookup before anything is written. *)
Lemma stale_record_outside_table_not_rendered :
  OutOfDate (pkg 1 "jq" 21 1) = 1 /\
  infoCallback blankFormat (pkg 1 "jq" 21 1) tt
  = ([], tt, Panicked (IndexOutOfRange 21 21)) /\
  searchLine (pkg 1 "jq" 21 1) tt = ([], tt, Panicked (IndexOutOfRange 21 21)).
Proof. repeat split. Qed.

(** C8, amended.  For every record whose category identifier lies within the
    category table (0 to 20): when the staleness flag is nonzero, the verbose
    rendering writes the version followed by the literal [ [out of date]]
    and the end of the line, and the compact rendering writes the red escape
    and then the version directly followed by the end of the line; when the
    flag is 0, the verbose rendering ends the line right after the version
    and the compact rendering uses the green escape. *)
Theorem staleness_rendering
  {St : Type} (Format : Time -> string -> string) (p : Package) (s : St)
  (Hcat : 0 <= CategoryID p <= 20) :
  let versionField :=
    Stdout (ESC ++ "[1mVersion         : " ++ ESC ++ "[0m" ++ Version p) in
  let compactHead :=
    Stdout (ESC ++ "[1;35m" ++ "aur/" ++ categoryOf p ++ "/" ++ ESC ++ "[1;37m"
            ++ Name p ++ " ") in
  let compactTail := Stdout ("    " ++ ESC ++ "[0m" ++ Description p ++ LF) in
  (OutOfDate p <> 0 ->
   infoCallback Format p s
   = (infoBefore p ++ [versionField; Stdout " [out of date]"; Stdout LF]
      ++ infoAfter Format p, s, Returned None) /\
   searchLine p s
   = ([compactHead; Stdout red; Stdout (Version p ++ LF); compactTail],
      s, Returned tt)) /\
  (OutOfDate p = 0 ->
   infoCallback Format p s
   = (infoBefore p ++ [versionField; Stdout LF] ++ infoAfter Format p,
      s, Returned None) /\
   searchLine p s
   = ([compactHead; Stdout green; Stdout (Version p ++ LF); compactTail],
      s, Returned tt)).
Proof.
  cbv zeta.
  rewrite (infoCallback_in_range Format p s Hcat), (searchLine_in_range p s Hcat).
  split; intros H.
  - apply Z.eqb_neq in H. rewrite H. split; reflexivity.
  - apply Z.eqb_eq in H. rewrite H. split; reflexivity.
Qed.

(** An instance: an out-of-date record of category 4. *)
Lemma staleness_rendering_witness :
  stdoutText (fst (fst (searchLine (pkg 1 "jq" 4 1) tt)))
  = (ESC ++ "[1;35maur/editors/" ++ ESC ++ "[1;37mjq " ++ ESC ++ "[1;31m1.0-1" ++ LF
     ++ "    " ++ ESC ++ "[0ma package" ++ LF)%string /\
  fst (fst (infoCallback blankFormat (pkg 1 "jq" 4 1) tt))
  = infoBefore (pkg 1 "jq" 4 1)
    ++ [ Stdout (ESC ++ "[1mVersion         : " ++ ESC ++ "[0m1.0-1");
         Stdout " [out of date]"; Stdout LF ]
    ++ infoAfter blankFormat (pkg 1 "jq" 4 1).
Proof.
  assert (Hcat : 0 <= CategoryID (pkg 1 "jq" 4 1) <= 20) by (simpl; lia).
  assert (Hstale : OutOfDate (pkg 1 "jq" 4 1) <> 0) by discriminate.
  destruct (proj1 (staleness_rendering blankFormat (pkg 1 "jq" 4 1) tt Hcat) Hstale)
    as [Hinfo Hsearch].
  rewrite Hinfo, Hsearch. split; reflexivity.
Defined.

(** C10.  Both renderings index the category table with the record's
    category identifier and no bounds check.  For an identifier from 0 to 20
    the lookup returns: the empty name for 0, the fixed names for 1 to 20,
    and both renderings return normally.  For a negative identifier or one
    above 20 both renderings panic with an index-out-of-range failure before
    writing anything; no error is returned. *)
Theorem category_lookup_unchecked
  {St : Type} (Format : Time -> string -> string) (p : Package) (s : St) :
  (forall c name,
     In (c, name)
        [ (0, ""); (1, "none"); (2, "daemons"); (3, "devel"); (4, "editors");
          (5, "emulators"); (6, "games"); (7, "gnome"); (8, "18n"); (9, "kde");
          (10, "lib"); (11, "modules"); (12, "multimedia"); (13, "network");
          (14, "office"); (15, "science"); (16, "system"); (17, "x11");
          (18, "xfce"); (19, "kernels"); (20, "fonts") ]%string ->
     index categories c s = ([], s, Returned name)) /\
  (0 <= CategoryID p <= 20 ->
   index categories (CategoryID p) s = ([], s, Returned (categoryOf p)) /\
   snd (searchLine p s) = Returned tt /\
   snd (infoCallback Format p s) = Returned None) /\
  (CategoryID p < 0 \/ 20 < CategoryID p ->
   searchLine p s = ([], s, Panicked (IndexOutOfRange (CategoryID p) 21)) /\
   infoCallback Format p s = ([], s, Panicked (IndexOutOfRange (CategoryID p) 21))).
Proof.
  split; [|split].
  - intros c name Hin. simpl in Hin.
    repeat (destruct Hin as [[= <- <-]|Hin]; [reflexivity|]). destruct Hin.
  - intros H. split; [apply index_in_range; simpl; lia|].
    now rewrite (infoCallback_in_range Format p s H), (searchLine_in_range p s H).
  - apply rendering_out_of_range.
Qed.

(** Instances at the last index of the table and on either side of it. *)
Lemma category_lookup_unchecked_witness :
  snd (searchLine (pkg 1 "jq" 20 0) tt) = Returned tt /\
  searchLine (pkg 1 "jq" 21 0) tt = ([], tt, Panicked (IndexOutOfRange 21 21)) /\
  infoCallback blankFormat (pkg 1 "jq" (-1) 0) tt
  = ([], tt, Panicked (IndexOutOfRange (-1) 21)).
Proof.
  split; [|split].
  - refine (proj1 (proj2 (proj1 (proj2
      (category_lookup_unchecked blankFormat (pkg 1 "jq" 20 0) tt)) _))).
    simpl; lia.
  - refine (proj1 (proj2 (proj2
      (category_lookup_unchecked blankFormat (pkg 1 "jq" 21 0) tt)) _)).
    simpl; lia.
  - refine (proj2 (proj2 (proj2
      (category_lookup_unchecked blankFormat (pkg 1 "jq" (-1) 0) tt)) _)).
    simpl; lia.
Defined.

(** ** The URL templates of [tarball] and [pkgbuild] *)

Lemma short_identifier_panics {St : Type} (httpGetBody : string -> string + error)
  (id : string) (s : St) :
  len id < 2 ->
  tarball [id] s = ([], s, Panicked (SliceBoundsOutOfRange 2 (len id))) /\
  pkgbuild httpGetBody [id] s = ([], s, Panicked (SliceBoundsOutOfRange 2 (len id))).
Proof.
  intros H. unfold tarball, pkgbuild, forRange, tarballLine, pkgbuildStep, slice.
  replace (2 <=? len id) with false by (symmetry; apply Z.leb_gt; lia).
  split; reflexivity.
Qed.

(** C1.  On the identifier [foo] the path built by both commands holds
    [fo/foo/]; on the one-byte identifier [a] the slice expression [s[0:2]]
    is out of bounds, and both commands panic without writing anything. *)
Theorem url_templates_on_foo_and_a :
  tarball ["foo"%string] tt
  = ([Stdout ("https://aur.archlinux.org/packages/fo/foo/foo.tar.gz" ++ LF)],
     tt, Returned tt) /\
  pkgbuild echoServer ["foo"%string] tt
  = ([Stdout ("https://aur.archlinux.org/packages/fo/foo/PKGBUILD" ++ LF)],
     tt, Returned tt) /\
  tarball ["a"%string] tt = ([], tt, Panicked (SliceBoundsOutOfRange 2 1)) /\
  pkgbuild echoServer ["a"%string] tt
  = ([], tt, Panicked (SliceBoundsOutOfRange 2 1)).
Proof. repeat split. Qed.

(** * Further properties of the code *)

(** ** Ties of [Less] *)

(** [Less] looks at the category and the name only, and two records tie
    (neither is [Less] than the other) exactly when they agree on both. *)
Theorem Less_ties_are_equal_keys (a b : Package) :
  (Less a b = false /\ Less b a = false <-> sortKey a = sortKey b) /\
  (forall a' b', sortKey a = sortKey a' -> sortKey b = sortKey b' ->
                 Less a b = Less a' b').
Proof.
  split; [split|].
  - intros [H1 H2]. destruct (Less_total a b) as [H|[H|H]]; congruence.
  - intros H. rewrite (Less_key a b b b H eq_refl), (Less_key b b a b eq_refl H).
    split; apply Less_irrefl.
  - intros a' b'. apply Less_key.
Qed.

(** ** [Swap] *)

(** [Swap] on two indices within the slice exchanges the two records and
    leaves every other position, the length and the records themselves as
    they were; doing it again restores the slice.  With an index outside the
    slice it panics with an index-out-of-range failure on such an index and
    leaves the slice untouched. *)
Theorem Swap_exchanges_two_records
  {St : Type} (p : PackageList) (i j : Z) (s : St) :
  (0 <= i < Len p -> 0 <= j < Len p ->
   exists p',
     Swap p i j s = ([], s, Returned p') /\
     Len p' = Len p /\ Permutation p p' /\
     nth_error p' (Z.to_nat i) = nth_error p (Z.to_nat j) /\
     nth_error p' (Z.to_nat j) = nth_error p (Z.to_nat i) /\
     (forall k, k <> Z.to_nat i -> k <> Z.to_nat j ->
                nth_error p' k = nth_error p k) /\
     Swap p' i j s = ([], s, Returned p)) /\
  ((i < 0 \/ Len p <= i) \/ (j < 0 \/ Len p <= j) ->
   exists k, (k = i \/ k = j) /\ (k < 0 \/ Len p <= k) /\
             Swap p i j s = ([], s, Panicked (IndexOutOfRange k (Len p)))).
Proof.
  split.
  - intros Hi Hj. unfold Len in Hi, Hj.
    destruct (nth_error p (Z.to_nat i)) as [a|] eqn:Ha;
      [|apply nth_error_None in Ha; lia].
    destruct (nth_error p (Z.to_nat j)) as [b|] eqn:Hb;
      [|apply nth_error_None in Hb; lia].
    set (ni := Z.to_nat i) in *. set (nj := Z.to_nat j) in *.
    assert (Li : (ni < List.length p)%nat) by (apply nth_error_Some; congruence).
    assert (Lj : (nj < List.length p)%nat) by (apply nth_error_Some; congruence).
    set (p' := store (store p ni b) nj a).
    assert (Hnj : nth_error p' nj = Some a).
    { apply store_nth_same. now rewrite store_length. }
    assert (Hni : nth_error p' ni = Some b).
    { unfold p'. destruct (Nat.eq_dec nj ni) as [E|Hne].
      - rewrite E in *. rewrite store_nth_same by now rewrite store_length.
        congruence.
      - rewrite store_nth_other by assumption. now apply store_nth_same. }
    exists p'. split; [apply Swap_returns; auto; lia|].
    split; [unfold Len, p'; now rewrite !store_length|].
    split; [now apply swapped_perm|].
    split; [assumption|]. split; [assumption|].
    split.
    + intros k Hk1 Hk2. unfold p'.
      now rewrite !store_nth_other by congruence.
    + rewrite (Swap_returns p' i j s b a) by (auto; lia). fold ni nj.
      do 2 f_equal.
      apply nth_error_ext. intros k.
      destruct (Nat.eq_dec k nj) as [->|Hkj].
      * rewrite store_nth_same by (unfold p'; now rewrite !store_length).
        now symmetry.
      * rewrite store_nth_other by congruence.
        destruct (Nat.eq_dec k ni) as [->|Hki].
        -- rewrite store_nth_same by (unfold p'; now rewrite !store_length).
           now symmetry.
        -- rewrite store_nth_other by congruence. unfold p'.
           now rewrite !store_nth_other by congruence.
  - intros Hout.
    destruct (Z_lt_dec i 0) as [Hi|Hi];
      [exists i; unfold Swap, bind; rewrite at_out_of_range by lia; auto|].
    destruct (Z_le_dec (Len p) i) as [Hi'|Hi'];
      [exists i; unfold Swap, bind; rewrite at_out_of_range by lia; auto|].
    exists j. split; [now right|]. split; [lia|].
    unfold Swap, bind.
    destruct (nth_error p (Z.to_nat i)) as [a|] eqn:Ha;
      [|apply nth_error_None in Ha; unfold Len in Hi'; lia].
    rewrite (at_in_range p i a s Ha) by lia.
    rewrite at_out_of_range by lia. reflexivity.
Qed.

(** Whatever [Swap] calls a sorting routine makes on the slice, as long as
    none panics the slice keeps its length and holds the records it held,
    each as often as before; the calls write nothing and leave the state of
    the run alone. *)
Theorem swaps_keep_the_records
  {St : Type} (calls : list (Z * Z)) (p p' : PackageList) (s s' : St)
  (t : list event)
  (Hrun : swaps p calls s = (t, s', Returned p')) :
  Permutation p p' /\ Len p' = Len p /\ t = [] /\ s' = s.
Proof.
  revert p s s' t Hrun.
  induction calls as [|[i j] rest IH]; intros p s s' t Hrun; simpl in Hrun.
  - injection Hrun as <- <- <-. auto using Permutation_refl.
  - unfold bind in Hrun.
    destruct (Swap p i j s) as [[t1 s1] [q|v|c]] eqn:Esw; try discriminate.
    destruct (Swap_inv _ _ _ _ _ _ _ Esw) as (a & b & _ & _ & Ha & Hb & -> & -> & ->).
    destruct (swaps _ rest s) as [[t2 s2] o2] eqn:Erest.
    injection Hrun as <- <- ->.
    destruct (IH _ _ _ _ Erest) as (Hp & Hl & -> & ->).
    repeat split; auto.
    + eapply perm_trans; [apply (swapped_perm p _ _ a b Ha Hb)|exact Hp].
    + rewrite Hl. unfold Len. now rewrite !store_length.
Qed.

(** An instance: two exchanges on three records. *)
Lemma swaps_keep_the_records_witness :
  let p := [pkg 1 "a" 1 0; pkg 2 "b" 2 0; pkg 3 "c" 3 0] in
  let p' := [pkg 2 "b" 2 0; pkg 3 "c" 3 0; pkg 1 "a" 1 0] in
  Permutation p p' /\ Len p' = Len p.
Proof.
  intros p p'.
  destruct (swaps_keep_the_records [(0, 1); (1, 2)] p p' tt tt [] eq_refl)
    as (H1 & H2 & _).
  split; assumption.
Defined.

(** ** The request of [multiInfo] *)

Lemma append_assoc (s1 s2 s3 : string) :
  ((s1 ++ s2) ++ s3 = s1 ++ (s2 ++ s3))%string.
Proof. induction s1 as [|c s1 IH]; simpl; [reflexivity|now rewrite IH]. Qed.

Lemma append_empty_r (s : string) : (s ++ "" = s)%string.
Proof. induction s as [|c s IH]; simpl; [reflexivity|now rewrite IH]. Qed.

Lemma multiInfoRequest_from (QueryEscape : string -> string) (args : list string) :
  forall request,
    fold_left (fun request str => ((request ++ "&arg[]=") ++ QueryEscape str)%string)
              args request
    = (request ++ requestParameters QueryEscape args)%string.
Proof.
  induction args as [|a rest IH]; intros request; simpl.
  - now rewrite append_empty_r.
  - rewrite IH, !append_assoc. reflexivity.
Qed.

(** The request [multiInfo] sends is the fixed path and query
    [/rpc.php?type=multiinfo] followed by one [&arg[]=<escaped identifier>]
    per argument, in the order of the arguments and with repetitions kept;
    requesting further identifiers only appends to it. *)
Theorem multiInfoRequest_lists_every_argument
  (QueryEscape : string -> string) (args more : list string) :
  multiInfoRequest QueryEscape args
  = ("/rpc.php?type=multiinfo" ++ requestParameters QueryEscape args)%string /\
  multiInfoRequest QueryEscape (args ++ more)
  = (multiInfoRequest QueryEscape args ++ requestParameters QueryEscape more)%string.
Proof.
  unfold multiInfoRequest. split.
  - apply multiInfoRequest_from.
  - rewrite fold_left_app. apply multiInfoRequest_from.
Qed.

(** ** What [multiInfo] does with the response *)

Lemma invocations_app (t1 t2 : list event) :
  invocations (t1 ++ t2) = invocations t1 ++ invocations t2.
Proof.
  induction t1 as [|[s|s|p] t1 IH]; simpl; [reflexivity|assumption|assumption|].
  now rewrite IH.
Qed.

Lemma written_app (t1 t2 : list event) :
  written (t1 ++ t2) = written t1 ++ written t2.
Proof.
  induction t1 as [|[s|s|p] t1 IH]; simpl; [reflexivity| |assumption|assumption].
  now rewrite IH.
Qed.

Section ReconcilerRuns.

Context {St : Type}.
Variable QueryEscape : string -> string.
Variable aurRequest : string -> Response + error.
Variable f : Package -> M St (option error).

Lemma argLoop_aborted (results : list Package) (a : string)
  (rest : list string) (p : Package) (s s1 : St) (t1 : list event)
  (o : outcome (option error)) :
  firstNamed a results = Some p ->
  f p s = (t1, s1, o) ->
  o <> Returned None ->
  argLoop f results (a :: rest) s = (Invoke p :: t1, s1, o).
Proof.
  intros H Hf Ho. simpl. unfold bind at 1.
  rewrite (scanResults_matched f _ _ _ _ H), Hf.
  destruct o as [[e|]|v|c]; simpl; rewrite ?app_nil_r; try reflexivity.
  exfalso. now apply Ho.
Qed.

Lemma argLoop_invocations_prefix (results : list Package) :
  (forall p s, invocations (trace (f p s)) = []) ->
  forall args s,
    exists more,
      selected results args
      = invocations (trace (argLoop f results args s)) ++ more /\
      (result (argLoop f results args s) = Returned None -> more = []).
Proof.
  intros Hquiet. induction args as [|a rest IH]; intros s.
  - exists []. split; reflexivity.
  - unfold selected. simpl flat_map. fold (selected results rest).
    destruct (firstNamed a results) as [p|] eqn:Ha.
    + destruct (f p s) as [[t1 s1] o] eqn:Hf.
      pose proof (Hquiet p s) as Hq. rewrite Hf in Hq. unfold trace in Hq. simpl in Hq.
      destruct o as [[e|]|v|c].
      * rewrite (argLoop_aborted results a rest p s s1 t1 _ Ha Hf
                   ltac:(discriminate)).
        unfold trace, result. simpl. rewrite Hq.
        exists (selected results rest). split; [reflexivity|discriminate].
      * rewrite (argLoop_matched f _ _ _ _ _ _ _ Ha Hf).
        destruct (IH s1) as (more & Hsel & Hdone).
        destruct (argLoop f results rest s1) as [[t s'] o'].
        unfold trace, result in *. simpl in *.
        rewrite invocations_app, Hq. simpl.
        exists more. split; [now rewrite Hsel|exact Hdone].
      * rewrite (argLoop_aborted results a rest p s s1 t1 _ Ha Hf
                   ltac:(discriminate)).
        unfold trace, result. simpl. rewrite Hq.
        exists (selected results rest). split; [reflexivity|discriminate].
      * rewrite (argLoop_aborted results a rest p s s1 t1 _ Ha Hf
                   ltac:(discriminate)).
        unfold trace, result. simpl. rewrite Hq.
        exists (selected results rest). split; [reflexivity|discriminate].
    + rewrite (argLoop_unmatched f _ _ _ _ Ha).
      destruct (IH s) as (more & Hsel & Hdone).
      destruct (argLoop f results rest s) as [[t s'] o'].
      unfold trace, result in *. simpl in *.
      exists more. split; assumption.
Qed.

Lemma argLoop_written (results : list Package) :
  (forall p s, written (trace (f p s)) = []) ->
  forall args s,
    result (argLoop f results args s) = Returned None ->
    written (trace (argLoop f results args s))
    = map notFoundLine (unmatched results args).
Proof.
  intros Hsilent. induction args as [|a rest IH]; intros s Hdone.
  - reflexivity.
  - unfold unmatched. simpl filter. fold (unmatched results rest).
    destruct (firstNamed a results) as [p|] eqn:Ha.
    + destruct (f p s) as [[t1 s1] o] eqn:Hf.
      pose proof (Hsilent p s) as Hq. rewrite Hf in Hq. unfold trace in Hq. simpl in Hq.
      destruct o as [[e|]|v|c];
        try (rewrite (argLoop_aborted results a rest p s s1 t1 _ Ha Hf
                        ltac:(discriminate)) in Hdone; discriminate).
      rewrite (argLoop_matched f _ _ _ _ _ _ _ Ha Hf) in Hdone |- *.
      specialize (IH s1).
      destruct (argLoop f results rest s1) as [[t s'] o'].
      unfold trace, result in *. simpl in *.
      rewrite written_app, Hq. simpl. now apply IH.
    + rewrite (argLoop_unmatched f _ _ _ _ Ha) in Hdone |- *.
      specialize (IH s).
      destruct (argLoop f results rest s) as [[t s'] o'].
      unfold trace, result in *. simpl in *.
      f_equal. now apply IH.
Qed.

Lemma argLoop_returns (results : list Package) :
  (forall p s, In p results -> exists r, result (f p s) = Returned r) ->
  forall args s, exists r, result (argLoop f results args s) = Returned r.
Proof.
  intros Hret. induction args as [|a rest IH]; intros s.
  - exists None. reflexivity.
  - destruct (firstNamed a results) as [p|] eqn:Ha.
    + destruct (f p s) as [[t1 s1] o] eqn:Hf.
      destruct (Hret p s (proj1 (firstNamed_some _ _ _ Ha))) as [r Hr].
      rewrite Hf in Hr. unfold result in Hr. simpl in Hr. subst o.
      destruct r as [e|].
      * rewrite (argLoop_failed f _ _ _ _ _ _ _ _ Ha Hf). now exists (Some e).
      * rewrite (argLoop_matched f _ _ _ _ _ _ _ Ha Hf).
        destruct (IH s1) as [r Hr].
        destruct (argLoop f results rest s1) as [[t s'] o'].
        now exists r.
    + rewrite (argLoop_unmatched f _ _ _ _ Ha).
      destruct (IH s) as [r Hr].
      destruct (argLoop f results rest s) as [[t s'] o'].
      now exists r.
Qed.

Lemma multiInfo_trace (args : list string) (resp : Response) (s : St) :
  aurRequest (multiInfoRequest QueryEscape args) = inl resp ->
  trace (multiInfo QueryEscape aurRequest args f s)
  = trace (argLoop f (Results resp) args s).
Proof.
  intros Hresp. unfold multiInfo. rewrite Hresp. unfold bind.
  destruct (argLoop f (Results resp) args s) as [[t s'] [[e|]|v|c]];
    unfold trace; simpl; rewrite ?app_nil_r; try reflexivity.
  destruct (List.length (Results resp) <? List.length args)%nat; simpl;
    now rewrite app_nil_r.
Qed.

Lemma multiInfo_written (args : list string) (resp : Response) (s : St) :
  aurRequest (multiInfoRequest QueryEscape args) = inl resp ->
  (forall p s', In p (Results resp) -> result (f p s') = Returned None) ->
  (forall p s', written (trace (f p s')) = []) ->
  written (trace (multiInfo QueryEscape aurRequest args f s))
  = map notFoundLine (unmatched (Results resp) args).
Proof.
  intros Hresp Hnil Hsilent. rewrite (multiInfo_trace _ _ _ Hresp).
  apply argLoop_written; [exact Hsilent|].
  apply (argLoop_completes f (Results resp) (fun p s' H => Hnil p s' H)).
Qed.

Lemma unmatched_nil (results : list Package) (args : list string) :
  (forall a, In a args -> firstNamed a results <> None) ->
  unmatched results args = [].
Proof.
  unfold unmatched. induction args as [|a rest IH]; intros H; [reflexivity|].
  simpl. destruct (firstNamed a results) eqn:Ha.
  - apply IH. intros b Hb. apply H. now right.
  - exfalso. apply (H a); [now left|assumption].
Qed.

End ReconcilerRuns.

(** [multiInfo] hands the callback only records of the response that bear a
    requested name, in the order of the arguments and at most one per
    argument: the records it was invoked on are an initial part of the
    records the arguments select, and all of them when the callback returned
    [nil] every time.  (The callback is one that does not call [multiInfo]'s
    callback itself.) *)
Theorem multiInfo_invokes_selected_records
  {St : Type} (QueryEscape : string -> string)
  (aurRequest : string -> Response + error)
  (f : Package -> M St (option error))
  (args : list string) (resp : Response) (s : St)
  (Hresp : aurRequest (multiInfoRequest QueryEscape args) = inl resp)
  (Hquiet : forall p s', invocations (trace (f p s')) = []) :
  let invoked := invocations (trace (multiInfo QueryEscape aurRequest args f s)) in
  (exists more, selected (Results resp) args = invoked ++ more) /\
  (forall p, In p invoked -> In p (Results resp) /\ In (Name p) args) /\
  ((forall p s', In p (Results resp) -> result (f p s') = Returned None) ->
   invoked = selected (Results resp) args).
Proof.
  cbv zeta.
  rewrite (multiInfo_trace QueryEscape aurRequest f args resp s Hresp).
  destruct (argLoop_invocations_prefix f (Results resp) Hquiet args s)
    as (more & Hsel & Hdone).
  split; [now exists more|]. split.
  - intros p Hp.
    assert (Hin : In p (selected (Results resp) args))
      by (rewrite Hsel; apply in_or_app; now left).
    unfold selected in Hin. apply in_flat_map in Hin.
    destruct Hin as (a & Ha & Hpa).
    destruct (firstNamed a (Results resp)) as [q|] eqn:Hq; [|destruct Hpa].
    destruct Hpa as [<-|[]].
    destruct (firstNamed_some _ _ _ Hq) as [H1 H2]. rewrite H2. auto.
  - intros Hnil. rewrite Hsel, Hdone; [now rewrite app_nil_r|].
    apply (argLoop_completes f (Results resp) (fun p s' H => Hnil p s' H)).
Qed.

(** An instance: the response comes in another order than the arguments and
    holds a record nobody asked for. *)
Lemma multiInfo_invokes_selected_records_witness :
  let results := [pkg 9 "extra" 1 0; pkg 2 "yaourt" 16 0; pkg 1 "jq" 4 0] in
  invocations (trace (multiInfo noEscape (answering results)
                        ["jq"; "nope"; "yaourt"]%string quietCallback tt))
  = [pkg 1 "jq" 4 0; pkg 2 "yaourt" 16 0].
Proof.
  intros results.
  exact (proj2 (proj2 (multiInfo_invokes_selected_records noEscape
           (answering results) quietCallback ["jq"; "nope"; "yaourt"]%string
           _ tt eq_refl (fun _ _ => eq_refl))) (fun _ _ _ => eq_refl)).
Defined.

(** When the callback returns [nil] on the records of the response and
    writes nothing itself, what [multiInfo] writes to standard output is
    exactly one not-found line for each argument without a record of its
    name, in the order of the arguments. *)
Theorem multiInfo_writes_one_line_per_unmatched
  {St : Type} (QueryEscape : string -> string)
  (aurRequest : string -> Response + error)
  (f : Package -> M St (option error))
  (args : list string) (resp : Response) (s : St)
  (Hresp : aurRequest (multiInfoRequest QueryEscape args) = inl resp)
  (Hnil : forall p s', In p (Results resp) -> result (f p s') = Returned None)
  (Hsilent : forall p s', written (trace (f p s')) = []) :
  written (trace (multiInfo QueryEscape aurRequest args f s))
  = map notFoundLine (unmatched (Results resp) args).
Proof.
  exact (multiInfo_written QueryEscape aurRequest f args resp s Hresp Hnil Hsilent).
Qed.

(** An instance: two of four arguments have no record. *)
Lemma multiInfo_writes_one_line_per_unmatched_witness :
  written (trace (multiInfo noEscape (answering [pkg 1 "jq" 4 0])
                    ["nope"; "jq"; "gone"; "jq"]%string quietCallback tt))
  = [notFoundLine "nope"; notFoundLine "gone"].
Proof.
  exact (multiInfo_writes_one_line_per_unmatched noEscape
           (answering [pkg 1 "jq" 4 0]) quietCallback
           ["nope"; "jq"; "gone"; "jq"]%string _ tt eq_refl
           (fun _ _ _ => eq_refl) (fun _ _ => eq_refl)).
Defined.

(** [multiInfo] does not panic or exit on its own: when the request fails it
    returns the error of the request, having invoked and written nothing;
    when the callback returns (with [nil] or with an error) on every record
    of the response, [multiInfo] returns too. *)
Theorem multiInfo_returns_when_callback_does
  {St : Type} (QueryEscape : string -> string)
  (aurRequest : string -> Response + error)
  (f : Package -> M St (option error))
  (args : list string) (s : St) :
  (forall err, aurRequest (multiInfoRequest QueryEscape args) = inr err ->
     multiInfo QueryEscape aurRequest args f s = ([], s, Returned (Some err))) /\
  (forall resp, aurRequest (multiInfoRequest QueryEscape args) = inl resp ->
     (forall p s', In p (Results resp) -> exists r, result (f p s') = Returned r) ->
     exists r, result (multiInfo QueryEscape aurRequest args f s) = Returned r).
Proof.
  split.
  - intros err Herr. unfold multiInfo. now rewrite Herr.
  - intros resp Hresp Hret. unfold multiInfo. rewrite Hresp. unfold bind.
    destruct (argLoop_returns f (Results resp) Hret args s) as [r Hr].
    destruct (argLoop f (Results resp) args s) as [[t s'] o].
    unfold result in *. simpl in Hr. subst o.
    destruct r as [e|]; [now exists (Some e)|].
    destruct (List.length (Results resp) <? List.length args)%nat;
      [now exists (Some someNotFound)|now exists None].
Qed.

(** Let the callback return [nil] on every record of the response, write
    nothing to standard output and not run [multiInfo]'s callback itself.
    When some identifier is requested twice, so that every argument has a
    record but the response holds fewer records than there are arguments,
    the callback runs once for every argument, on the first record of that
    name, no not-found line is written, and still [multiInfo] returns "Some
    packages were not found": the test compares the number of records with
    the number of arguments. *)
Theorem multiInfo_counts_repeated_arguments
  {St : Type} (QueryEscape : string -> string)
  (aurRequest : string -> Response + error)
  (f : Package -> M St (option error))
  (args : list string) (resp : Response) (s : St)
  (Hresp : aurRequest (multiInfoRequest QueryEscape args) = inl resp)
  (Hnil : forall p s', In p (Results resp) -> result (f p s') = Returned None)
  (Hsilent : forall p s', written (trace (f p s')) = [])
  (Hquiet : forall p s', invocations (trace (f p s')) = [])
  (Hmatched : forall a, In a args -> firstNamed a (Results resp) <> None)
  (Hfewer : (List.length (Results resp) < List.length args)%nat) :
  let run := multiInfo QueryEscape aurRequest args f s in
  map Some (invocations (trace run))
  = map (fun a => firstNamed a (Results resp)) args /\
  List.length (invocations (trace run)) = List.length args /\
  written (trace run) = [] /\
  result run = Returned (Some someNotFound).
Proof.
  cbv zeta.
  assert (Hinv : map Some (invocations
                    (trace (multiInfo QueryEscape aurRequest args f s)))
                 = map (fun a => firstNamed a (Results resp)) args).
  { rewrite (multiInfo_trace QueryEscape aurRequest f args resp s Hresp).
    destruct (argLoop_invocations_prefix f (Results resp) Hquiet args s)
      as (more & Hsel & Hdone).
    rewrite (Hdone (argLoop_completes f (Results resp)
                      (fun p s' H => Hnil p s' H) args s)), app_nil_r in Hsel.
    rewrite <- Hsel. clear Hsel Hdone Hfewer Hresp.
    induction args as [|a rest IH]; [reflexivity|].
    unfold selected. simpl flat_map. fold (selected (Results resp) rest).
    pose proof (Hmatched a (or_introl eq_refl)) as Ha.
    destruct (firstNamed a (Results resp)) as [p|] eqn:E; [|congruence].
    simpl. rewrite E. f_equal. apply IH. intros b Hb. apply Hmatched. now right. }
  split; [exact Hinv|]. split.
  - apply (f_equal (@List.length _)) in Hinv. now rewrite !length_map in Hinv.
  - split.
    + rewrite (multiInfo_written QueryEscape aurRequest f args resp s Hresp Hnil
                 Hsilent).
      now rewrite (unmatched_nil _ _ Hmatched).
    + unfold result.
      rewrite (multiInfo_count QueryEscape aurRequest f args resp s Hresp
                 (fun p s' H => Hnil p s' H)).
      apply Nat.ltb_lt in Hfewer. now rewrite Hfewer.
Qed.

(** An instance: [jq] requested twice, one record returned. *)
Lemma multiInfo_counts_repeated_arguments_witness :
  let run := multiInfo noEscape (answering [pkg 1 "jq" 4 0]) ["jq"; "jq"]%string
               quietCallback tt in
  run = ([Invoke (pkg 1 "jq" 4 0); Invoke (pkg 1 "jq" 4 0)], tt,
         Returned (Some someNotFound)) /\
  map Some (invocations (trace run))
  = [Some (pkg 1 "jq" 4 0); Some (pkg 1 "jq" 4 0)] /\
  result run = Returned (Some someNotFound).
Proof.
  cbv zeta. split; [reflexivity|].
  assert (Hmatched : forall a, In a ["jq"; "jq"]%string ->
            firstNamed a (Results (mkResponse "multiinfo" 1 [pkg 1 "jq" 4 0]))
            <> None).
  { intros a [<-|[<-|[]]]; discriminate. }
  assert (Hfewer : (List.length (Results (mkResponse "multiinfo" 1
                                            [pkg 1 "jq" 4 0])) < 2)%nat).
  { simpl. lia. }
  destruct (multiInfo_counts_repeated_arguments noEscape
              (answering [pkg 1 "jq" 4 0]) quietCallback ["jq"; "jq"]%string
              _ tt eq_refl (fun _ _ _ => eq_refl) (fun _ _ => eq_refl)
              (fun _ _ => eq_refl) Hmatched Hfewer) as (H1 & _ & _ & H4).
  split; [exact H1|exact H4].
Defined.

(** Of several records of the response that bear the requested name, only
    the first is handed to the callback: the inner loop leaves at the first
    match, whether the callback then returns [nil], fails or panics. *)
Theorem multiInfo_first_record_wins
  {St : Type} (QueryEscape : string -> string)
  (aurRequest : string -> Response + error)
  (f : Package -> M St (option error))
  (a : string) (resp : Response) (before after : list Package) (p : Package)
  (s : St)
  (Hresp : aurRequest (multiInfoRequest QueryEscape [a]) = inl resp)
  (Hresults : Results resp = before ++ p :: after)
  (Hbefore : forall q, In q before -> Name q <> a)
  (Hname : Name p = a)
  (Hquiet : forall q s', invocations (trace (f q s')) = []) :
  invocations (trace (multiInfo QueryEscape aurRequest [a] f s)) = [p].
Proof.
  assert (Hfirst : firstNamed a (Results resp) = Some p).
  { rewrite Hresults. unfold firstNamed. clear Hresults.
    induction before as [|q before IH]; simpl.
    - now rewrite (proj2 (String.eqb_eq _ _) Hname).
    - rewrite (proj2 (String.eqb_neq _ _) (Hbefore q (or_introl eq_refl))).
      apply IH. intros r Hr. apply Hbefore. now right. }
  rewrite (multiInfo_trace QueryEscape aurRequest f [a] resp s Hresp).
  destruct (f p s) as [[t1 s1] o] eqn:Hf.
  pose proof (Hquiet p s) as Hq. rewrite Hf in Hq. unfold trace in Hq.
  simpl in Hq.
  assert (Hcases : o = Returned None \/ o <> Returned None).
  { destruct o as [[e|]|v|c]; auto; right; discriminate. }
  destruct Hcases as [->|Ho].
  - rewrite (argLoop_matched f _ _ _ _ _ _ _ Hfirst Hf). unfold trace. simpl.
    now rewrite app_nil_r, Hq.
  - rewrite (argLoop_aborted f _ _ _ _ _ _ _ _ Hfirst Hf Ho). unfold trace.
    simpl. now rewrite Hq.
Qed.

(** An instance: the response holds two records named [jq]. *)
Lemma multiInfo_first_record_wins_witness :
  invocations (trace (multiInfo noEscape
                        (answering [pkg 7 "yaourt" 16 0; pkg 1 "jq" 4 0;
                                    pkg 2 "jq" 5 1])
                        ["jq"%string] (failingOn "jq") tt))
  = [pkg 1 "jq" 4 0].
Proof.
  refine (multiInfo_first_record_wins noEscape
            (answering [pkg 7 "yaourt" 16 0; pkg 1 "jq" 4 0; pkg 2 "jq" 5 1])
            (failingOn "jq") "jq" _ [pkg 7 "yaourt" 16 0] [pkg 2 "jq" 5 1]
            (pkg 1 "jq" 4 0) tt eq_refl eq_refl _ eq_refl _).
  - intros q [<-|[]]. discriminate.
  - intros q s'. unfold failingOn. destruct (Name q =? "jq")%string; reflexivity.
Defined.

(** ** The commands *)

Section Loops.

Context {St A : Type}.
Variable body : A -> M St unit.
Variable events : A -> list event.

Lemma forRange_all (l : list A) (s : St) :
  (forall x, In x l -> body x s = (events x, s, Returned tt)) ->
  forRange l body s = (flat_map events l, s, Returned tt).
Proof.
  induction l as [|x l IH]; intros H; simpl; [reflexivity|].
  unfold bind. rewrite (H x (or_introl eq_refl)).
  rewrite IH by (intros y Hy; apply H; now right). reflexivity.
Qed.

Lemma forRange_stops (pre post : list A) (x : A) (s : St) (t : list event)
  (o : outcome unit) :
  (forall y, In y pre -> body y s = (events y, s, Returned tt)) ->
  body x s = (t, s, o) -> o <> Returned tt ->
  forRange (pre ++ x :: post) body s = (flat_map events pre ++ t, s, o).
Proof.
  intros Hpre Hx Ho. induction pre as [|y pre IH]; simpl.
  - unfold bind. rewrite Hx.
    destruct o as [[]|v|c]; [now exfalso|reflexivity|reflexivity].
  - unfold bind. rewrite (Hpre y (or_introl eq_refl)).
    rewrite IH by (intros z Hz; apply Hpre; now right).
    now rewrite app_assoc.
Qed.

End Loops.

Lemma flat_map_singleton {A B : Type} (g : A -> B) (l : list A) :
  flat_map (fun x => [g x]) l = map g l.
Proof. induction l as [|x l IH]; [reflexivity|simpl; now rewrite IH]. Qed.

Lemma slice_first_two {St : Type} (id : string) (s : St) :
  2 <= len id -> slice id 0 2 s = ([], s, Returned (substring 0 2 id)).
Proof.
  intros H. unfold slice.
  replace (2 <=? len id) with true by (symmetry; apply Z.leb_le; lia).
  reflexivity.
Qed.

Lemma slice_first_two_short {St : Type} (id : string) (s : St) :
  len id < 2 ->
  slice id 0 2 s = ([], s, Panicked (SliceBoundsOutOfRange 2 (len id))).
Proof.
  intros H. unfold slice.
  replace (2 <=? len id) with false by (symmetry; apply Z.leb_gt; lia).
  reflexivity.
Qed.

(** Called with the wrong number of arguments (none; for [search] any
    number but one), each command writes its usage line to standard error,
    nothing to standard output, and exits with status 1, whatever the
    server would have answered. *)
Theorem commands_reject_missing_arguments
  {St : Type} (QueryEscape : string -> string)
  (aurRequest : string -> Response + error)
  (sort_Sort : PackageList -> PackageList)
  (Format : Time -> string -> string)
  (httpGetBody : string -> string + error) (s : St) :
  (forall args, List.length args <> 1%nat ->
     search QueryEscape aurRequest sort_Sort args s
     = ([Stderr ("search must be invoked with exactly one argument" ++ LF)],
        s, Exited 1)) /\
  info QueryEscape aurRequest Format [] s
  = ([Stderr ("info requires at least one argument" ++ LF)], s, Exited 1) /\
  tarball [] s
  = ([Stderr ("tarball requires at least one argument" ++ LF)], s, Exited 1) /\
  pkgbuild httpGetBody [] s
  = ([Stderr ("pkgbuild requires at least one argument" ++ LF)], s, Exited 1).
Proof.
  split; [|repeat split].
  intros [|a [|b rest]] H; try reflexivity. now exfalso.
Qed.

(** [search] with one argument and an answer from the server: when every
    record's category lies within the table, it writes the four pieces of
    the compact form for each record of the response, once per record, in
    the ascending order [sort.Sort] left them in, and returns; an empty
    response writes nothing. *)
Theorem search_prints_each_record_in_order
  {St : Type} (QueryEscape : string -> string)
  (aurRequest : string -> Response + error)
  (sort_Sort : PackageList -> PackageList)
  (arg : string) (resp : Response) (s : St)
  (Hsort : SortContract sort_Sort)
  (Hresp : aurRequest ("/rpc.php?type=search&arg=" ++ QueryEscape arg)%string
           = inl resp)
  (Hcat : forall p, In p (Results resp) -> 0 <= CategoryID p <= 20) :
  search QueryEscape aurRequest sort_Sort [arg] s
  = (flat_map searchEvents (sort_Sort (Results resp)), s, Returned tt) /\
  Permutation (Results resp) (sort_Sort (Results resp)) /\
  ascending (sort_Sort (Results resp)) /\
  (Results resp = [] -> search QueryEscape aurRequest sort_Sort [arg] s
                        = ([], s, Returned tt)).
Proof.
  destruct (Hsort (Results resp)) as [Hp Ha].
  assert (Hrun : search QueryEscape aurRequest sort_Sort [arg] s
                 = (flat_map searchEvents (sort_Sort (Results resp)), s,
                    Returned tt)).
  { unfold search. rewrite Hresp. apply forRange_all.
    intros p Hin. apply searchLine_in_range, Hcat.
    eapply Permutation_in; [apply Permutation_sym|]; eassumption. }
  repeat split; try assumption.
  intros Hempty. rewrite Hrun. rewrite Hempty in Hp.
  apply Permutation_nil in Hp. now rewrite Hempty, Hp.
Qed.

(** An instance: two records, as [sort.Sort] leaves them. *)
Lemma search_prints_each_record_in_order_witness :
  let results := [pkg 1 "zsh" 16 0; pkg 2 "chruby" 3 1] in
  trace (search noEscape (answering results) (sort.Sort sort.xorshift_Next)
           ["ch"%string] tt)
  = searchEvents (pkg 2 "chruby" 3 1) ++ searchEvents (pkg 1 "zsh" 16 0).
Proof.
  intros results.
  refine (eq_trans (f_equal trace (proj1 (search_prints_each_record_in_order
            noEscape (answering results) (sort.Sort sort.xorshift_Next) "ch" _ tt
            (SortResults.Sort_contract sort.xorshift_Next) eq_refl _))) eq_refl).
  intros p [<-|[<-|[]]]; simpl; lia.
Defined.

(** [search] fails by panicking, never by returning an error: with the
    error of the request when the request fails, and with an
    index-out-of-range failure at the first record, in sorted order, whose
    category is outside the table, after the records before it have been
    written and before any of the later ones is. *)
Theorem search_panics_on_failure
  {St : Type} (QueryEscape : string -> string)
  (aurRequest : string -> Response + error)
  (sort_Sort : PackageList -> PackageList) (arg : string) (s : St) :
  (forall err,
     aurRequest ("/rpc.php?type=search&arg=" ++ QueryEscape arg)%string = inr err ->
     search QueryEscape aurRequest sort_Sort [arg] s
     = ([], s, Panicked (PanicError err))) /\
  (forall resp pre bad post,
     aurRequest ("/rpc.php?type=search&arg=" ++ QueryEscape arg)%string = inl resp ->
     sort_Sort (Results resp) = pre ++ bad :: post ->
     (forall p, In p pre -> 0 <= CategoryID p <= 20) ->
     CategoryID bad < 0 \/ 20 < CategoryID bad ->
     search QueryEscape aurRequest sort_Sort [arg] s
     = (flat_map searchEvents pre, s,
        Panicked (IndexOutOfRange (CategoryID bad) 21))).
Proof.
  split.
  - intros err Herr. unfold search. now rewrite Herr.
  - intros resp pre bad post Hresp Hsorted Hpre Hbad.
    unfold search. rewrite Hresp, Hsorted.
    rewrite (forRange_stops searchLine searchEvents pre post bad s []
               (Panicked (IndexOutOfRange (CategoryID bad) 21))).
    + now rewrite app_nil_r.
    + intros p Hp. now apply searchLine_in_range, Hpre.
    + exact (proj1 (rendering_out_of_range blankFormat bad s Hbad)).
    + discriminate.
Qed.

(** The exit status of [info] with at least one argument: it exits with
    status 1, having written nothing, when the request fails; and, when the
    categories of the returned records lie within the table, it exits with
    status 1 exactly when the response holds fewer records than there are
    arguments, and returns normally otherwise. *)
Theorem info_exit_status
  {St : Type} (QueryEscape : string -> string)
  (aurRequest : string -> Response + error)
  (Format : Time -> string -> string)
  (a : string) (rest : list string) (s : St) :
  (forall err,
     aurRequest (multiInfoRequest QueryEscape (a :: rest)) = inr err ->
     info QueryEscape aurRequest Format (a :: rest) s = ([], s, Exited 1)) /\
  (forall resp,
     aurRequest (multiInfoRequest QueryEscape (a :: rest)) = inl resp ->
     (forall p, In p (Results resp) -> 0 <= CategoryID p <= 20) ->
     result (info QueryEscape aurRequest Format (a :: rest) s)
     = if (List.length (Results resp) <? List.length (a :: rest))%nat
       then Exited 1 else Returned tt).
Proof.
  split.
  - intros err Herr. unfold info, multiInfo. rewrite Herr. reflexivity.
  - intros resp Hresp Hcat.
    pose proof (multiInfo_count QueryEscape aurRequest (infoCallback Format)
                  (a :: rest) resp s Hresp) as Hcount.
    assert (Hnil : forall (p : Package) (s' : St), In p (Results resp) ->
                     snd (infoCallback Format p s') = Returned None).
    { intros p s'' Hp.
      now rewrite (infoCallback_in_range Format p s'' (Hcat p Hp)). }
    specialize (Hcount Hnil).
    unfold info, bind, result.
    destruct (multiInfo QueryEscape aurRequest (a :: rest) (infoCallback Format) s)
      as [[t s'] o].
    simpl in Hcount. subst o.
    change (List.length (a :: rest)) with (S (List.length rest)).
    destruct (List.length (Results resp) <? S (List.length rest))%nat;
      reflexivity.
Qed.

(** When the request succeeds and every record of the response has a
    category within the table (0 to 20), [info] writes the verbose form of
    the records the arguments select, in the order of the arguments, and
    before each of them the not-found lines of the arguments that come
    before it and have no record. *)
Theorem info_prints_selected_records
  {St : Type} (QueryEscape : string -> string)
  (aurRequest : string -> Response + error)
  (Format : Time -> string -> string)
  (a : string) (rest : list string) (resp : Response) (s : St)
  (Hresp : aurRequest (multiInfoRequest QueryEscape (a :: rest)) = inl resp)
  (Hcat : forall p, In p (Results resp) -> 0 <= CategoryID p <= 20) :
  trace (info QueryEscape aurRequest Format (a :: rest) s)
  = flat_map (fun arg => match firstNamed arg (Results resp) with
                         | Some p => Invoke p :: infoEvents Format p
                         | None => [Stdout (notFoundLine arg)]
                         end) (a :: rest).
Proof.
  assert (Hloop : forall (args : list string) (s0 : St),
    argLoop (infoCallback Format) (Results resp) args s0
    = (flat_map (fun arg => match firstNamed arg (Results resp) with
                            | Some p => Invoke p :: infoEvents Format p
                            | None => [Stdout (notFoundLine arg)]
                            end) args, s0, Returned None)).
  { induction args as [|b args IH]; intros s0; [reflexivity|].
    simpl flat_map. destruct (firstNamed b (Results resp)) as [p|] eqn:Hb.
    - rewrite (argLoop_matched (infoCallback Format) _ _ _ _ _ _ _ Hb
                 (infoCallback_in_range Format p s0
                    (Hcat p (proj1 (firstNamed_some _ _ _ Hb))))).
      rewrite IH. reflexivity.
    - rewrite (argLoop_unmatched (infoCallback Format) _ _ _ _ Hb), IH.
      reflexivity. }
  unfold info, multiInfo. rewrite Hresp. unfold bind. rewrite Hloop.
  unfold trace.
  destruct (List.length (Results resp) <? List.length (a :: rest))%nat;
    simpl; now rewrite !app_nil_r.
Qed.

(** An instance: one of two arguments has a record. *)
Lemma info_prints_selected_records_witness :
  trace (info noEscape (answering [pkg 1 "jq" 4 1]) blankFormat
           ["nope"; "jq"]%string tt)
  = Stdout (notFoundLine "nope") :: Invoke (pkg 1 "jq" 4 1)
    :: infoEvents blankFormat (pkg 1 "jq" 4 1).
Proof.
  refine (eq_trans (info_prints_selected_records noEscape
            (answering [pkg 1 "jq" 4 1]) blankFormat "nope" ["jq"%string] _ tt
            eq_refl _) eq_refl).
  intros p [<-|[]]; simpl; lia.
Defined.

(** [tarball] makes no request: with identifiers of two bytes or more it
    writes one URL line per identifier, in order, built from the first two
    bytes of the identifier and the identifier itself, and returns; at the
    first shorter identifier it panics, after the lines of the identifiers
    before it and before any later one. *)
Theorem tarball_writes_one_url_per_identifier
  {St : Type} (s : St) :
  (forall a rest,
     (forall id, In id (a :: rest) -> 2 <= len id) ->
     tarball (a :: rest) s
     = (map (fun id => Stdout (tarballText id)) (a :: rest), s, Returned tt)) /\
  (forall pre short post,
     (forall id, In id pre -> 2 <= len id) -> len short < 2 ->
     tarball (pre ++ short :: post) s
     = (map (fun id => Stdout (tarballText id)) pre, s,
        Panicked (SliceBoundsOutOfRange 2 (len short)))).
Proof.
  assert (Hline : forall id, 2 <= len id ->
            tarballLine id s = ([Stdout (tarballText id)], s, Returned tt)).
  { intros id H. unfold tarballLine, bind. now rewrite slice_first_two. }
  assert (Hshort : forall id, len id < 2 ->
            tarballLine id s
            = ([], s, Panicked (SliceBoundsOutOfRange 2 (len id)))).
  { intros id H. unfold tarballLine, bind. now rewrite slice_first_two_short. }
  split.
  - intros a rest Hall. unfold tarball.
    rewrite (forRange_all tarballLine (fun id => [Stdout (tarballText id)]))
      by (intros id Hid; apply Hline, Hall, Hid).
    now rewrite (flat_map_singleton (fun id => Stdout (tarballText id))).
  - intros pre short post Hpre Hs.
    assert (Hrun : forRange (pre ++ short :: post) tarballLine s
                   = (map (fun id => Stdout (tarballText id)) pre, s,
                      Panicked (SliceBoundsOutOfRange 2 (len short)))).
    { rewrite (forRange_stops tarballLine (fun id => [Stdout (tarballText id)])
                 pre post short s [] _ (fun id Hid => Hline id (Hpre id Hid))
                 (Hshort short Hs) ltac:(discriminate)).
      now rewrite app_nil_r,
        (flat_map_singleton (fun id => Stdout (tarballText id))). }
    unfold tarball. destruct pre; exact Hrun.
Qed.

(** [pkgbuild] fetches the PKGBUILD of each identifier in order and writes
    the body it receives followed by a newline, whatever the body is.  At
    the first identifier whose fetch fails it exits with status 1, and at the
    first identifier shorter than two bytes it panics; in both cases the
    bodies of the identifiers before it have been written and nothing of the
    later ones. *)
Theorem pkgbuild_prints_bodies_until_failure
  {St : Type} (httpGetBody : string -> string + error) (s : St)
  (body : string -> string)
  (pre : list string)
  (Hpre : forall id, In id pre ->
            2 <= len id /\ httpGetBody (pkgbuildURL id) = inl (body id)) :
  (pre <> [] ->
   pkgbuild httpGetBody pre s
   = (map (fun id => Stdout (body id ++ LF)) pre, s, Returned tt)) /\
  (forall id post err,
     2 <= len id -> httpGetBody (pkgbuildURL id) = inr err ->
     pkgbuild httpGetBody (pre ++ id :: post) s
     = (map (fun id => Stdout (body id ++ LF)) pre, s, Exited 1)) /\
  (forall id post,
     len id < 2 ->
     pkgbuild httpGetBody (pre ++ id :: post) s
     = (map (fun id => Stdout (body id ++ LF)) pre, s,
        Panicked (SliceBoundsOutOfRange 2 (len id)))).
Proof.
  assert (Hmap : forall l : list string,
            flat_map (fun id => [Stdout (body id ++ LF)]) l
            = map (fun id => Stdout (body id ++ LF)) l)
    by (intros l; apply (flat_map_singleton (fun id => Stdout (body id ++ LF)))).
  assert (Hstep : forall id, In id pre ->
            pkgbuildStep httpGetBody id s
            = ([Stdout (body id ++ LF)], s, Returned tt)).
  { intros id Hid. destruct (Hpre id Hid) as [Hlen Hget].
    unfold pkgbuildStep, bind. rewrite slice_first_two by assumption.
    unfold printPKGBUILD. fold (pkgbuildURL id). now rewrite Hget. }
  split; [|split].
  - intros Hne.
    assert (Hrun : forRange pre (pkgbuildStep httpGetBody) s
                   = (map (fun id => Stdout (body id ++ LF)) pre, s, Returned tt))
      by (rewrite (forRange_all (pkgbuildStep httpGetBody)
                     (fun id => [Stdout (body id ++ LF)]) pre s Hstep);
          now rewrite Hmap).
    unfold pkgbuild. destruct pre; [now exfalso|exact Hrun].
  - intros id post err Hlen Herr.
    assert (Hrun : forRange (pre ++ id :: post) (pkgbuildStep httpGetBody) s
                   = (map (fun id => Stdout (body id ++ LF)) pre, s, Exited 1)).
    { rewrite (forRange_stops (pkgbuildStep httpGetBody)
                 (fun id => [Stdout (body id ++ LF)]) pre post id s []
                 (Exited 1) Hstep).
      - now rewrite app_nil_r, Hmap.
      - unfold pkgbuildStep, bind. rewrite slice_first_two by assumption.
        unfold printPKGBUILD. fold (pkgbuildURL id). now rewrite Herr.
      - discriminate. }
    unfold pkgbuild. destruct pre; exact Hrun.
  - intros id post Hlen.
    assert (Hrun : forRange (pre ++ id :: post) (pkgbuildStep httpGetBody) s
                   = (map (fun id => Stdout (body id ++ LF)) pre, s,
                      Panicked (SliceBoundsOutOfRange 2 (len id)))).
    { rewrite (forRange_stops (pkgbuildStep httpGetBody)
                 (fun id => [Stdout (body id ++ LF)]) pre post id s []
                 (Panicked (SliceBoundsOutOfRange 2 (len id))) Hstep).
      - now rewrite app_nil_r, Hmap.
      - unfold pkgbuildStep, bind. now rewrite slice_first_two_short.
      - discriminate. }
    unfold pkgbuild. destruct pre; exact Hrun.
Qed.

(** An instance: the server serves the PKGBUILD of [jq] only. *)
Lemma pkgbuild_prints_bodies_until_failure_witness :
  pkgbuild (onlyServes "jq" "pkgname=jq") ["jq"; "yaourt"; "jq"]%string tt
  = ([Stdout ("pkgname=jq" ++ LF)], tt, Exited 1).
Proof.
  refine (proj1 (proj2 (pkgbuild_prints_bodies_until_failure
            (onlyServes "jq" "pkgname=jq") tt (fun _ => "pkgname=jq"%string)
            ["jq"%string] _)) "yaourt"%string ["jq"%string]
            (ErrorString "connection refused") _ eq_refl).
  - intros id [<-|[]]. split; [vm_compute; discriminate|reflexivity].
  - vm_compute. discriminate.
Defined.

(** ** Decoding what [%v] prints *)

Lemma digitsValue_of_uint_acc (d : Decimal.uint) :
  forall acc : positive,
    digitsValue (NilEmpty.string_of_uint d) (Z.pos acc)
    = Z.pos (Pos.of_uint_acc d acc).
Proof.
  induction d as [|d IH|d IH|d IH|d IH|d IH|d IH|d IH|d IH|d IH|d IH];
    intros acc; [reflexivity|..]; cbn [NilEmpty.string_of_uint
      digitsValue Pos.of_uint_acc]; rewrite <- IH; f_equal;
    match goal with
    | |- context [digitValue ?c] =>
        let v := eval vm_compute in (digitValue c) in
        change (digitValue c) with v
    end; lia.
Qed.

Lemma digitsValue_of_uint (d : Decimal.uint) :
  digitsValue (NilEmpty.string_of_uint d) 0 = Z.of_N (Pos.of_uint d).
Proof.
  induction d as [|d IH|d IH|d IH|d IH|d IH|d IH|d IH|d IH|d IH|d IH];
    [reflexivity|exact IH|..];
    cbn [NilEmpty.string_of_uint digitsValue Pos.of_uint Z.of_N];
    rewrite <- digitsValue_of_uint_acc; f_equal.
Qed.

Lemma allDigits_of_uint (d : Decimal.uint) :
  allDigits (NilEmpty.string_of_uint d) = true.
Proof.
  unfold allDigits.
  induction d as [|d IH|d IH|d IH|d IH|d IH|d IH|d IH|d IH|d IH|d IH];
    [reflexivity|..]; exact IH.
Qed.

Lemma token_of_digits (c : ascii) (rest : string) :
  allDigits (String c rest) = true ->
  isIntegerToken (String c rest) = true /\
  tokenValue (String c rest) = digitsValue (String c rest) 0.
Proof.
  intros Hall.
  assert (Hc : isDigit c = true).
  { unfold allDigits in Hall. simpl in Hall. now apply andb_true_iff in Hall. }
  assert (Hminus : Ascii.eqb c "-" = false).
  { destruct (Ascii.eqb_spec c "-") as [->|]; [discriminate Hc|reflexivity]. }
  assert (Hplus : Ascii.eqb c "+" = false).
  { destruct (Ascii.eqb_spec c "+") as [->|]; [discriminate Hc|reflexivity]. }
  unfold isIntegerToken, tokenValue. rewrite Hminus, Hplus. simpl orb.
  cbv iota. split; [|reflexivity]. now rewrite Hall.
Qed.

Lemma token_of_to_uint (p : positive) :
  let s := NilZero.string_of_uint (Pos.to_uint p) in
  s <> EmptyString /\ allDigits s = true /\ digitsValue s 0 = Z.pos p.
Proof.
  cbv zeta.
  pose proof (DecimalPos.Unsigned.to_uint_nonnil p) as Hnil.
  pose proof (DecimalPos.Unsigned.of_to p) as Hof.
  pose proof (digitsValue_of_uint (Pos.to_uint p)) as Hval.
  pose proof (allDigits_of_uint (Pos.to_uint p)) as Hall.
  unfold NilZero.string_of_uint.
  destruct (Pos.to_uint p) as [|d|d|d|d|d|d|d|d|d|d]; [now exfalso|..];
    (split; [discriminate|]); (split; [exact Hall|]);
    rewrite Hval, Hof; reflexivity.
Qed.

Lemma formatInt_token (n : Z) :
  isIntegerToken (formatInt n) = true /\ tokenValue (formatInt n) = n.
Proof.
  unfold formatInt. destruct n as [|p|p].
  - split; reflexivity.
  - cbn [Z.to_int NilZero.string_of_int].
    destruct (token_of_to_uint p) as (Hne & Hall & Hval).
    destruct (NilZero.string_of_uint (Pos.to_uint p)) as [|c rest];
      [now exfalso|].
    destruct (token_of_digits c rest Hall) as [H1 H2].
    split; [exact H1|]. now rewrite H2.
  - cbn [Z.to_int NilZero.string_of_int].
    destruct (token_of_to_uint p) as (Hne & Hall & Hval).
    unfold isIntegerToken, tokenValue. simpl Ascii.eqb. simpl orb. cbv iota.
    rewrite Hall, Hval.
    destruct (NilZero.string_of_uint (Pos.to_uint p)); [now exfalso|].
    split; reflexivity.
Qed.

Lemma parseDigits_error_kind (maxVal : Z) (s : string) :
  forall n e, allDigits s = true -> parseDigits maxVal s n = inr e -> e = ErrRange.
Proof.
  unfold allDigits.
  induction s as [|c r IH]; intros n e Hall; simpl in *; [discriminate|].
  apply andb_true_iff in Hall. destruct Hall as [Hc Hr]. rewrite Hc.
  destruct (n * 10 + digitValue c >? maxVal); [now intros [= <-]|].
  now apply IH.
Qed.

Lemma Atoi_error_kind (intSize : Z) (s : string) (e : error) :
  isIntegerToken s = true -> Atoi intSize s = inr e ->
  e = NumError "Atoi" s ErrRange.
Proof.
  destruct s as [|c rest]; [discriminate|].
  rewrite Atoi_unfold. unfold isIntegerToken.
  set (digits := if Ascii.eqb c "-" || Ascii.eqb c "+" then rest else String c rest).
  intros Htok. apply andb_true_iff in Htok. destruct Htok as [Hne Hall].
  unfold atoiDigits.
  destruct digits as [|d ds] eqn:Hd; [discriminate|]. rewrite <- Hd in *.
  destruct (parseDigits (2 ^ intSize - 1) digits 0) as [un|k] eqn:Hp.
  - cbv zeta.
    destruct (negb (Ascii.eqb c "-") && (un >=? 2 ^ (intSize - 1)));
      [now intros [= <-]|].
    destruct (Ascii.eqb c "-" && (un >? 2 ^ (intSize - 1)));
      [now intros [= <-]|discriminate].
  - rewrite (parseDigits_error_kind _ _ _ _ Hall Hp). now intros [= <-].
Qed.

(** The decoder reads back what [%v] prints: for every [n] within the range
    of [int], decoding the decimal rendering of [n] stores [time.Unix(n, 0)]
    and returns [nil]; for every [n] outside it, decoding that rendering
    fails with the range error of [Atoi] and leaves the field as it was. *)
Theorem UnmarshalJSON_reads_back_decimal
  (intSize : Z) (Hsize : intSize = 32 \/ intSize = 64)
  (t : timeUnmarshaler) (n : Z) :
  (- 2 ^ (intSize - 1) <= n < 2 ^ (intSize - 1) ->
   UnmarshalJSON intSize t (formatInt n) = (mkTimeUnmarshaler (Unix n), None)) /\
  (n < - 2 ^ (intSize - 1) \/ 2 ^ (intSize - 1) <= n ->
   UnmarshalJSON intSize t (formatInt n)
   = (t, Some (NumError "Atoi" (formatInt n) ErrRange))).
Proof.
  assert (H0 : 0 < intSize) by lia.
  destruct (formatInt_token n) as [Htok Hval].
  pose proof (fun v => Atoi_spec intSize (formatInt n) v H0) as Hspec.
  rewrite UnmarshalJSON_result. split.
  - intros Hr.
    rewrite (proj2 (Hspec n) (conj Htok (conj (eq_sym Hval) Hr))). reflexivity.
  - intros Hout.
    destruct (Atoi intSize (formatInt n)) as [v|e] eqn:HA.
    + destruct (proj1 (Hspec v) eq_refl) as (_ & Hv & Hr). lia.
    + now rewrite (Atoi_error_kind intSize (formatInt n) e Htok HA).
Qed.

(** An instance on a 64-bit platform: a time before the epoch. *)
Lemma UnmarshalJSON_reads_back_decimal_witness :
  UnmarshalJSON 64 epoch (formatInt (-86400))
  = (mkTimeUnmarshaler (Unix (-86400)), None).
Proof.
  refine (proj1 (UnmarshalJSON_reads_back_decimal 64 (or_intror eq_refl) epoch
                   (-86400)) _).
  vm_compute. split; [discriminate|reflexivity].
Defined.
